(** * Arglet: merging command-line flags into a configuration object

    A shallow embedding of [src/index.ts] (the default export [arglet] and
    its local helpers [logger.debug], [resolveValueAtPath],
    [hasConfigPath], [assignValueAtPath] and [parseFlag]), followed by the
    properties of the merge that the specification states and by further
    properties of the code.

    The working copy has three models.

    - The value layer models the working copy as an immutable tree and the
      in-place writes of the source as state passing: a write into a nested
      object rebuilds the objects above it.  It is the layer on which the
      behaviour of single flags and of whole token lists is stated.  It
      describes schemas that are trees: no object is reached along two
      paths.
    - The store layer ([Module Heap]) models objects as locations of a
      mutable store, [structuredClone] as the allocation of new objects
      and the writes of [assignValueAtPath] as updates of the store, for
      schemas of any shape (shared objects and cycles included).
    - The prototype layer ([Module Proto]) is the store layer with
      property access in full: the chain of prototypes, the accessor
      [__proto__], the [length] of an array, and the built-in objects as
      objects of the store.  It is the layer on which flags that name
      inherited members are run ([flag_writes_to_Object_prototype],
      [inherited_name_is_not_ignored]).

    In the value layer and in the store layer, property access ([key in
    o], [o[key]], [o[key] = v]) follows the own data properties of an
    object: the keys of a mapping object, and for an array the elements
    under their canonical index strings.  That is what the source does as
    long as no segment of a path is [length] or the name of a member of a
    built-in prototype, such as [toString] or [__proto__].  The three
    layers are the same program where they all apply: for a schema that is
    a tree in the store, the value layer and the store layer throw alike
    and return the same tree ([layers_agree]); on plain data and plain
    keys, the loop of the prototype layer is the loop of the store layer
    ([plain_flags_run_alike]).

    Values are what [structuredClone] returns for plain data:
    [undefined], [null], booleans, numbers, strings, arrays and mapping
    objects.  Numbers are leaves the program only looks at the type of;
    they are integers here.  Strings are byte strings; the program
    searches them for the characters [-], [=], [.], [,] and [|] only.

    In these layers [arglet] is modelled at its full call form
    [arglet(data, args, options)], with the options after the defaults are
    filled in, and without its diagnostic output.  Two more layers add
    what the first two leave out.

    - The console layer ([Module Console]) is the value layer with the
      calls of [logger.debug], the other call forms of [arglet] and the
      defaults of the options.  Its outcome is the outcome of the value
      layer ([debug_only_observes]).
    - [Module Dump] is the store layer with the two calls of
      [JSON.stringify] that build the messages of the final
      [logger.debug] calls.  They return on a schema without a cycle
      ([acyclic_schema_is_dumped]) and throw on a schema that holds one
      ([cyclic_schema_throws]).

    The statements of the specification come first, then further
    properties of the code. *)

From Stdlib Require Import Ascii.
From stdpp Require Import gmap strings list fin_maps pretty.

#[local] Set Warnings "-register-all,-clear-no-such-hyp".

(** ** String primitives

    The methods of [String.prototype] the source calls, on the arguments it
    calls them with: one-character separators for [includes] and [split]. *)

(** [s.startsWith(p)] *)
Fixpoint startsWith (p s : string) : bool :=
  match p, s with
  | EmptyString, _ => true
  | String a p', String b s' => if decide (a = b) then startsWith p' s' else false
  | String _ _, EmptyString => false
  end.

(** [s.slice(n)] for [0 <= n] *)
Fixpoint slice_from (n : nat) (s : string) : string :=
  match n, s with
  | O, _ => s
  | S n', String _ s' => slice_from n' s'
  | S _, EmptyString => EmptyString
  end.

(** [s.includes(c)] for a one-character string [c] *)
Fixpoint includes (c : ascii) (s : string) : bool :=
  match s with
  | EmptyString => false
  | String a s' => if decide (a = c) then true else includes c s'
  end.

(** [s.split(c)] for a one-character string [c]; the result is never empty:
    [split_on c ""] is [[""]]. *)
Fixpoint split_on (c : ascii) (s : string) : list string :=
  match s with
  | EmptyString => [EmptyString]
  | String a s' =>
      if decide (a = c) then EmptyString :: split_on c s'
      else match split_on c s' with
           | [] => [String a EmptyString]
           | seg :: segs => String a seg :: segs
           end
  end.

(** JavaScript truthiness of a string: [""] is falsy. *)
Definition nonempty (s : string) : bool :=
  match s with EmptyString => false | String _ _ => true end.

(** ** Values *)

Inductive obj_kind := Plain | Array.

Inductive value :=
| VUndef
| VNull
| VBool (b : bool)
| VNum (n : Z)
| VStr (s : string)
| VObj (k : obj_kind) (props : gmap string value).

(** A mapping node: what a variable of type [Record<string, unknown>]
    holds. *)
Record node := Node { kind : obj_kind; props : gmap string value }.

Definition of_node (n : node) : value := VObj (kind n) (props n).

Inductive js_type := TyUndefined | TyObject | TyBoolean | TyNumber | TyString.

#[global] Instance js_type_eq_dec : EqDecision js_type.
Proof. solve_decision. Defined.

(** [typeof v]; note [typeof null === "object"]. *)
Definition typeof (v : value) : js_type :=
  match v with
  | VUndef => TyUndefined
  | VNull => TyObject
  | VBool _ => TyBoolean
  | VNum _ => TyNumber
  | VStr _ => TyString
  | VObj _ _ => TyObject
  end.

(** Truthiness, as tested by [current && ...]. *)
Definition truthy (v : value) : bool :=
  match v with
  | VUndef | VNull => false
  | VBool b => b
  | VNum n => negb (n =? 0)%Z
  | VStr s => nonempty s
  | VObj _ _ => true
  end.

(** [key in current], among the own data properties of [current]: the
    operator of the source when the prototypes of [current] do not hold
    [key] and [key] is not the [length] of an array.  With the chain of
    prototypes: [Proto.has_property]. *)
Definition has_key (key : string) (current : value) : bool :=
  match current with
  | VObj _ m => bool_decide (is_Some (m !! key))
  | _ => false
  end.

(** [current[key]], among the own data properties of [current] (with the
    chain of prototypes: [Proto.get]). *)
Definition get_key (current : value) (key : string) : value :=
  match current with
  | VObj _ m => default VUndef (m !! key)
  | _ => VUndef
  end.

(** [v !== undefined] *)
Definition is_defined (v : value) : bool :=
  match v with VUndef => false | _ => true end.

(** [currentNode[segment] = v], as the write of an own data property (with
    the [length] of an array and the setter of [__proto__]: [Proto.set]). *)
Definition set_key (currentNode : node) (segment : string) (v : value) : node :=
  Node (kind currentNode) (<[segment := v]> (props currentNode)).

(** The array [l[0], l[1], ...]: element [i] is the property named by the
    decimal numeral of [i]. *)
Definition js_array (l : list value) : value :=
  VObj Array (list_to_map (imap (λ i v, (pretty i, v)) l)).

(** The empty mapping [{}]. *)
Definition empty_object : node := Node Plain ∅.

(** ** Options and outcomes *)

(** [arraySeparator?: "," | "|"] *)
Inductive separator := Comma | Pipe.

Definition sep_char (s : separator) : ascii :=
  match s with Comma => "," | Pipe => "|" end%char.

(** [Required<ArgletOptions>]: the options after the defaults are filled
    in.  With the declared type the guard
    [typeof opts.arraySeparator === "string"] of [parseFlag] is true. *)
Record ArgletOptions := { debug : bool; arraySeparator : separator }.

Definition default_options : ArgletOptions :=
  {| debug := false; arraySeparator := Comma |}.

(** A call either returns or throws [new Error(msg)]. *)
Inductive outcome (A : Type) :=
| Ok (a : A)
| Throw (msg : string).
Arguments Ok {A} a.
Arguments Throw {A} msg.

Definition bind {A B} (o : outcome A) (f : A → outcome B) : outcome B :=
  match o with Ok a => f a | Throw msg => Throw msg end.

(** ** The helpers of [arglet], over the working copy [result] *)

(** The callback of the [reduce] in [resolveValueAtPath]. *)
Definition resolve_step (current : value) (key : string) : value :=
  if truthy current && bool_decide (typeof current = TyObject) && has_key key current
  then get_key current key
  else VUndef.

Definition resolveValueAtPath (result : node) (path : string) : value :=
  foldl resolve_step (of_node result) (split_on "." path).

Definition hasConfigPath (result : node) (path : string) : bool :=
  is_defined (resolveValueAtPath result path).

(** [v === null] *)
Definition is_null (v : value) : bool :=
  match v with VNull => true | _ => false end.

(** The test guarding [currentNode[segment] = {}]. *)
Definition not_an_object (v : value) : bool :=
  negb (bool_decide (typeof v = TyObject)) || is_null v.

(** [currentNode = currentNode[segment] as Record<string, unknown>], once
    the guard above has made the property an object. *)
Definition as_node (v : value) : node :=
  match v with
  | VObj k m => Node k m
  | _ => empty_object
  end.

(** The [for] loop of [assignValueAtPath], from the current index on:
    [segments] are the segments not yet visited.  A write into a nested
    node is seen through its parent, so the parent is rebuilt around the
    updated child.  This is the write in place of the source on a working
    copy that is a tree; where an object is reached along two paths, the
    write in place shows through both, as [Heap.assign_loop] has it. *)
Fixpoint assign_loop (segments : list string) (v : value) (currentNode : node) : node :=
  match segments with
  | [] => currentNode
  | segment :: rest =>
      if negb (nonempty segment) then currentNode
      else match rest with
           | [] => set_key currentNode segment v
           | _ :: _ =>
               let child := get_key (of_node currentNode) segment in
               let child' := if not_an_object child then empty_object else as_node child in
               set_key currentNode segment (of_node (assign_loop rest v child'))
           end
  end.

Definition assignValueAtPath (result : node) (path : string) (v : value) : node :=
  assign_loop (split_on "." path) v result.

(** [typeof existingValue !== "boolean"] *)
Definition not_boolean (v : value) : bool :=
  negb (bool_decide (typeof v = TyBoolean)).

(** [flagName.startsWith("no-")] *)
Definition isDisabledFlag (flagName : string) : bool := startsWith "no-" flagName.

(** [isDisabledFlag ? flagName.slice(3) : flagName] *)
Definition normalizedPath (flagName : string) : string :=
  if isDisabledFlag flagName then slice_from 3 flagName else flagName.

(** The chain of [if]s that computes [parsedValue], or throws. *)
Definition parsedValue (opts : ArgletOptions) (flagName : string)
    (rawValue : option string) (existingValue : value) : outcome value :=
  if isDisabledFlag flagName then
    if not_boolean existingValue
    then Throw ("--no-" +:+ normalizedPath flagName +:+ " is only valid for boolean options")
    else Ok (VBool false)
  else match rawValue with
       | None =>
           if not_boolean existingValue
           then Throw ("--" +:+ normalizedPath flagName +:+ " requires a value")
           else Ok (VBool true)
       | Some rawValue =>
           if includes (sep_char (arraySeparator opts)) rawValue
           then Ok (js_array (VStr <$> split_on (sep_char (arraySeparator opts)) rawValue))
           else Ok (VStr rawValue)
       end.

(** [parseFlag(flagName?, rawValue?)]: an absent argument is [None]. *)
Definition parseFlag (opts : ArgletOptions) (result : node)
    (flagName rawValue : option string) : outcome node :=
  match flagName with
  | None => Ok result
  | Some flagName =>
      if negb (nonempty flagName) then Ok result
      else if negb (hasConfigPath result (normalizedPath flagName)) then Ok result
      else
        let existingValue := resolveValueAtPath result (normalizedPath flagName) in
        bind (parsedValue opts flagName rawValue existingValue)
             (λ v, Ok (assignValueAtPath result (normalizedPath flagName) v))
  end.

(** [nextToken && !nextToken.startsWith("--") ? nextToken : undefined] *)
Definition following_value (nextToken : option string) : option string :=
  match nextToken with
  | Some t => if nonempty t && negb (startsWith "--" t) then Some t else None
  | None => None
  end.

(** The flag a token dispatches, with the token after it at hand: [None]
    when the token is skipped ([continue]), else the two arguments of the
    [parseFlag] call. *)
Definition dispatch (rawArgument : string) (nextToken : option string)
    : option (option string * option string) :=
  if negb (startsWith "--" rawArgument) then None
  else
    let rawArgument := slice_from 2 rawArgument in
    if includes "=" rawArgument then
      (* const [flagName, flagValue] = rawArgument.split("=") *)
      let parts := split_on "=" rawArgument in
      Some (parts !! 0%nat, parts !! 1%nat)
    else
      Some (Some rawArgument, following_value nextToken).

(** The argument loop, from the current index on: [args] are the tokens
    not yet visited.  A throw of [parseFlag] ends the call. *)
Fixpoint argument_loop (opts : ArgletOptions) (args : list string) (result : node)
    : outcome node :=
  match args with
  | [] => Ok result
  | rawArgument :: rest =>
      match dispatch rawArgument (head rest) with
      | None => argument_loop opts rest result
      | Some (flagName, flagValue) =>
          bind (parseFlag opts result flagName flagValue) (argument_loop opts rest)
      end
  end.

(** On immutable trees a deep copy is the tree itself; the copy as an
    allocation of fresh objects is [Heap.structuredClone]. *)
Definition structuredClone (data : node) : node := data.

(** [arglet(data, args, options)].  The two calls of [JSON.stringify] in
    the last statements of the source return on a tree, which has no
    cycle, and leave no trace here; [Dump.arglet] has them. *)
Definition arglet (data : node) (args : list string) (opts : ArgletOptions) : outcome node :=
  let result := structuredClone data in
  argument_loop opts args result.

(** * The store layer

    The same program over a store of objects, where a variable holds an
    object by reference: [structuredClone] allocates the working copy, and
    [assignValueAtPath] updates objects of the store in place. *)

Module Heap.

Definition loc := positive.

(** Values as variables hold them. *)
Inductive hvalue :=
| HUndef
| HNull
| HBool (b : bool)
| HNum (n : Z)
| HStr (s : string)
| HRef (l : loc).

Record object := Object { okind : obj_kind; oprops : gmap string hvalue }.

(** The store: the objects allocated so far. *)
Abbreviation store := (gmap loc object).

(** A computation reads and updates the store, and returns or throws; the
    store it leaves behind is there in both cases. *)
Definition M (A : Type) : Type := store → outcome A * store.

Definition ret {A} (a : A) : M A := λ h, (Ok a, h).
Definition throw {A} (msg : string) : M A := λ h, (Throw msg, h).
Definition bindM {A B} (m : M A) (f : A → M B) : M B :=
  λ h, match m h with
       | (Ok a, h') => f a h'
       | (Throw msg, h') => (Throw msg, h')
       end.

Notation "'let*' x ':=' m 'in' k" := (bindM m (λ x, k))
  (at level 10, x name, m at level 100, k at level 200).

(** The store a computation reads. *)
Definition get_store : M store := λ h, (Ok h, h).

(** A new object, at a location that is not in use. *)
Definition alloc (o : object) : M loc :=
  λ h, let l := fresh (dom h) in (Ok l, <[l := o]> h).

(** [o[key]] for the object at [l] *)
Definition read (h : store) (l : loc) (key : string) : hvalue :=
  match h !! l with
  | Some o => default HUndef (oprops o !! key)
  | None => HUndef
  end.

(** [o[key] = v] for the object at [l] *)
Definition store_key (l : loc) (key : string) (v : hvalue) (h : store) : store :=
  match h !! l with
  | Some o => <[l := Object (okind o) (<[key := v]> (oprops o))]> h
  | None => h
  end.

Definition set_key (l : loc) (key : string) (v : hvalue) : M unit :=
  λ h, (Ok tt, store_key l key v h).

(** ** [structuredClone]

    The copy follows the structured clone algorithm: every object reached
    from the input is copied once, into a new object, and [seen] maps the
    objects already copied to their copies, so that sharing and cycles of
    the input are kept in the copy.  [fuel] bounds the nesting of the
    recursion. *)
Fixpoint clone_object (fuel : nat) (l : loc) (h : store) (seen : gmap loc loc)
    : option (loc * store * gmap loc loc) :=
  match seen !! l with
  | Some l' => Some (l', h, seen)
  | None =>
      match fuel, h !! l with
      | S fuel', Some o =>
          let l' := fresh (dom h) in
          let h1 := <[l' := Object (okind o) ∅]> h in
          let copy_property (acc : option (store * gmap loc loc)) (kv : string * hvalue) :=
            match acc with
            | None => None
            | Some (h, seen) =>
                match kv.2 with
                | HRef l2 =>
                    match clone_object fuel' l2 h seen with
                    | Some (l2', h', seen') => Some (store_key l' kv.1 (HRef l2') h', seen')
                    | None => None
                    end
                | v => Some (store_key l' kv.1 v h, seen)
                end
            end in
          match foldl copy_property (Some (h1, <[l := l']> seen)) (map_to_list (oprops o)) with
          | Some (h2, seen2) => Some (l', h2, seen2)
          | None => None
          end
      | _, _ => None
      end
  end.

(** [structuredClone(data)]; one unit of fuel per object of the store is
    enough for the copy of any object of a store without dangling
    references. *)
Definition structuredClone (data : loc) : M loc :=
  λ h, match clone_object (S (size h)) data h ∅ with
       | Some (l', h', _) => (Ok l', h')
       | None => (Throw "DataCloneError", h)
       end.

(** ** The helpers of [arglet], over the working copy at [result] *)

(** [current && typeof current === "object" && key in current], among the
    own data properties of the object (with the chain of prototypes:
    [Proto.resolve_step]). *)
Definition holds_key (h : store) (current : hvalue) (key : string) : bool :=
  match current with
  | HRef l => match h !! l with
              | Some o => bool_decide (is_Some (oprops o !! key))
              | None => false
              end
  | _ => false
  end.

Definition resolve_step (h : store) (current : hvalue) (key : string) : hvalue :=
  if holds_key h current key
  then match current with HRef l => read h l key | _ => HUndef end
  else HUndef.

Definition resolveValueAtPath (h : store) (result : loc) (path : string) : hvalue :=
  foldl (resolve_step h) (HRef result) (split_on "." path).

Definition is_defined (v : hvalue) : bool :=
  match v with HUndef => false | _ => true end.

Definition hasConfigPath (h : store) (result : loc) (path : string) : bool :=
  is_defined (resolveValueAtPath h result path).

(** The loop of [assignValueAtPath] from the current index on.  The
    property that is not an object gets a new empty object; then the walk
    goes on in the object the property holds. *)
Fixpoint assign_loop (segments : list string) (v : hvalue) (currentNode : loc) : M unit :=
  match segments with
  | [] => ret tt
  | segment :: rest =>
      if negb (nonempty segment) then ret tt
      else match rest with
           | [] => set_key currentNode segment v
           | _ :: _ =>
               let* h := get_store in
               match read h currentNode segment with
               | HRef child => assign_loop rest v child
               | _ =>
                   let* child := alloc (Object Plain ∅) in
                   let* _ := set_key currentNode segment (HRef child) in
                   assign_loop rest v child
               end
           end
  end.

Definition assignValueAtPath (result : loc) (path : string) (v : hvalue) : M unit :=
  assign_loop (split_on "." path) v result.

(** [typeof existingValue !== "boolean"] *)
Definition not_boolean (v : hvalue) : bool :=
  match v with HBool _ => false | _ => true end.

(** The array of strings [rawValue.split(sep)] returns, as a new object. *)
Definition alloc_array (pieces : list string) : M hvalue :=
  let* l := alloc (Object Array (list_to_map (imap (λ i s, (pretty i, HStr s)) pieces))) in
  ret (HRef l).

Definition parsedValue (opts : ArgletOptions) (flagName : string)
    (rawValue : option string) (existingValue : hvalue) : M hvalue :=
  if isDisabledFlag flagName then
    if not_boolean existingValue
    then throw ("--no-" +:+ normalizedPath flagName +:+ " is only valid for boolean options")
    else ret (HBool false)
  else match rawValue with
       | None =>
           if not_boolean existingValue
           then throw ("--" +:+ normalizedPath flagName +:+ " requires a value")
           else ret (HBool true)
       | Some rawValue =>
           if includes (sep_char (arraySeparator opts)) rawValue
           then alloc_array (split_on (sep_char (arraySeparator opts)) rawValue)
           else ret (HStr rawValue)
       end.

Definition parseFlag (opts : ArgletOptions) (result : loc)
    (flagName rawValue : option string) : M unit :=
  match flagName with
  | None => ret tt
  | Some flagName =>
      if negb (nonempty flagName) then ret tt
      else
        let* h := get_store in
        if negb (hasConfigPath h result (normalizedPath flagName)) then ret tt
        else
          let existingValue := resolveValueAtPath h result (normalizedPath flagName) in
          let* v := parsedValue opts flagName rawValue existingValue in
          assignValueAtPath result (normalizedPath flagName) v
  end.

Fixpoint argument_loop (opts : ArgletOptions) (args : list string) (result : loc) : M unit :=
  match args with
  | [] => ret tt
  | rawArgument :: rest =>
      match dispatch rawArgument (head rest) with
      | None => argument_loop opts rest result
      | Some (flagName, flagValue) =>
          let* _ := parseFlag opts result flagName flagValue in
          argument_loop opts rest result
      end
  end.

(** [arglet(data, args, options)], for the schema object at [data]: the
    location of the working copy is returned. *)
Definition arglet (data : loc) (args : list string) (opts : ArgletOptions) : M loc :=
  let* result := structuredClone data in
  let* _ := argument_loop opts args result in
  ret result.

(** ** Reading a store

    The tree a value unfolds to, down to [depth] levels of objects: what a
    deep comparison looks at.  Below the depth, and at a location that is
    not allocated, the unfolding stops with [undefined]. *)
Fixpoint snapshot (depth : nat) (h : store) (v : hvalue) : value :=
  match v with
  | HUndef => VUndef
  | HNull => VNull
  | HBool b => VBool b
  | HNum n => VNum n
  | HStr s => VStr s
  | HRef l =>
      match depth, h !! l with
      | S depth', Some o => VObj (okind o) (snapshot depth' h <$> oprops o)
      | _, _ => VUndef
      end
  end.

(** Two values are deep-equal, each in its store, when they unfold to the
    same tree at every depth. *)
Definition deep_equal (h1 : store) (v1 : hvalue) (h2 : store) (v2 : hvalue) : Prop :=
  ∀ depth, snapshot depth h1 v1 = snapshot depth h2 v2.

(** No object of the store refers to a location that is not allocated. *)
Definition allocated (h : store) (v : hvalue) : bool :=
  match v with
  | HRef l => bool_decide (is_Some (h !! l))
  | _ => true
  end.

Definition closed (h : store) : bool :=
  forallb (λ lo : loc * object,
             forallb (λ kv : string * hvalue, allocated h kv.2) (map_to_list (oprops lo.2)))
          (map_to_list h).

(** ** Stores that hold trees

    [tree_at d h F v t]: in the store [h] the value [v] is the tree [t],
    of height at most [d], made of objects of [F], each of them reached
    along one path only: the objects below two properties of an object are
    apart. *)
Fixpoint tree_at (d : nat) (h : store) (F : gset loc) (v : hvalue) (t : value) : Prop :=
  match v, t with
  | HUndef, VUndef => True
  | HNull, VNull => True
  | HBool b, VBool b' => b = b'
  | HNum n, VNum n' => n = n'
  | HStr s, VStr s' => s = s'
  | HRef l, VObj k m =>
      match d with
      | 0 => False
      | S d' =>
          ∃ o (Fs : gmap string (gset loc)),
            h !! l = Some o ∧ okind o = k ∧ l ∈ F ∧
            (∀ key, match oprops o !! key, m !! key, Fs !! key with
                    | Some v', Some t', Some Fk => tree_at d' h Fk v' t' ∧ Fk ⊆ F ∧ l ∉ Fk
                    | None, None, None => True
                    | _, _, _ => False
                    end) ∧
            (∀ k1 k2 F1 F2, k1 ≠ k2 → Fs !! k1 = Some F1 → Fs !! k2 = Some F2 → F1 ## F2)
      end
  | _, _ => False
  end.

(** ** The working copy, seen from the store [h0] of the caller *)

(** A location is new when the store of the caller does not have it. *)
Definition new_loc (h0 : store) (l : loc) : Prop := h0 !! l = None.

Definition new_value (h0 : store) (v : hvalue) : Prop :=
  match v with HRef l => new_loc h0 l | _ => True end.

(** The objects of the caller are as they were, and the new objects refer
    to new objects only. *)
Definition working (h0 h : store) : Prop :=
  h0 ⊆ h ∧
  ∀ l o k v, new_loc h0 l → h !! l = Some o → oprops o !! k = Some v → new_value h0 v.

(** The copies recorded in [seen] are new objects. *)
Definition new_range (h0 : store) (seen : gmap loc loc) : Prop :=
  ∀ a b, seen !! a = Some b → new_loc h0 b.

(** The objects of the caller not yet copied. *)
Definition pending (h0 : store) (seen : gmap loc loc) : gset loc := dom h0 ∖ dom seen.

End Heap.

(** * The console layer

    The value layer again, with what it leaves out: the calls of
    [logger.debug], and the call forms of [arglet] with the defaults of
    the options.  What [console.debug] is called with is collected in a
    list; [pkg.displayName] and [JSON.stringify] are left open, as a
    string and a function from trees to strings. *)

Module Console.

(** The lines [console.debug] has been called with, the oldest first. *)
Definition output := list string.

(** A computation prints, and returns or throws; what it has printed is
    there in both cases. *)
Definition W (A : Type) : Type := output * outcome A.

Definition ret {A} (a : A) : W A := ([], Ok a).
Definition lift {A} (o : outcome A) : W A := ([], o).
Definition print (line : string) : W unit := ([line], Ok tt).
Definition bindW {A B} (m : W A) (f : A → W B) : W B :=
  match m with
  | (out, Ok a) => (out ++ (f a).1, (f a).2)
  | (out, Throw msg) => (out, Throw msg)
  end.

Notation "'let*' x ':=' m 'in' k" := (bindW m (λ x, k))
  (at level 10, x name, m at level 100, k at level 200).

(** An optional property of an object literal: left out, or given, with
    a value that may be [undefined]. *)
Inductive property (A : Type) :=
| Absent
| Present (v : option A).
Arguments Absent {A}.
Arguments Present {A} v.

(** An object of the interface [ArgletOptions], as a caller passes it. *)
Record UserOptions := {
  user_debug : property bool;
  user_arraySeparator : property separator
}.

(** [{}] *)
Definition no_options : UserOptions :=
  {| user_debug := Absent; user_arraySeparator := Absent |}.

(** The object [opts]: both properties are there, each may hold
    [undefined]. *)
Record Options := { debug : option bool; arraySeparator : option separator }.

(** What the call reads of [process]. *)
Record process := { argv : list string; env_DEBUG : option string }.

(** [Boolean(process.env.DEBUG)]: a variable of the environment is a string
    or is not set. *)
Definition Boolean (v : option string) : bool :=
  match v with
  | Some s => nonempty s
  | None => false
  end.

(** A property of [{ ...defaults, ...userOptions }]: the spread copies the
    property of [userOptions] when it is there, [undefined] included. *)
Definition spread {A} (default : A) (p : property A) : option A :=
  match p with
  | Absent => Some default
  | Present v => v
  end.

Definition resolve_options (p : process) (userOptions : UserOptions) : Options :=
  {| debug := spread (Boolean (env_DEBUG p)) (user_debug userOptions);
     arraySeparator := spread Comma (user_arraySeparator userOptions) |}.

(** The second argument of a call: the tokens or the options. *)
Inductive ArgsOrOptions :=
| Args (args : list string)
| Opts (options : UserOptions).

Definition ESC : string := String "027" EmptyString.
Definition QUOTE : string := String "034" EmptyString.
Definition NEWLINE : string := String "010" EmptyString.

Definition COLORS_reset : string := ESC +:+ "[0m".
Definition COLORS_gray : string := ESC +:+ "[90m".
Definition COLORS_cyan : string := ESC +:+ "[36m".

Section logger.

(** [pkg.displayName], from [package.json], and [JSON.stringify(v, null,
    2)] on a tree of plain data, where it returns a string. *)
Variable displayName : string.
Variable JSON_stringify : node → string.

Definition logger_debug (opts : Options) (message : string) : W unit :=
  if negb (default false (debug opts)) then ret tt
  else print (COLORS_gray +:+ displayName +:+ COLORS_reset +:+ " "
              +:+ COLORS_cyan +:+ "[debug]" +:+ COLORS_reset +:+ " " +:+ message).

(** The chain of [if]s that computes [parsedValue], with the guard on the
    type of [opts.arraySeparator]. *)
Definition parsedValue (opts : Options) (flagName : string)
    (rawValue : option string) (existingValue : value) : outcome value :=
  if isDisabledFlag flagName then
    if not_boolean existingValue
    then Throw ("--no-" +:+ normalizedPath flagName +:+ " is only valid for boolean options")
    else Ok (VBool false)
  else match rawValue with
       | None =>
           if not_boolean existingValue
           then Throw ("--" +:+ normalizedPath flagName +:+ " requires a value")
           else Ok (VBool true)
       | Some rawValue =>
           match arraySeparator opts with
           | Some sep =>
               if includes (sep_char sep) rawValue
               then Ok (js_array (VStr <$> split_on (sep_char sep) rawValue))
               else Ok (VStr rawValue)
           | None => Ok (VStr rawValue)
           end
       end.

Definition parseFlag (opts : Options) (result : node)
    (flagName rawValue : option string) : W node :=
  match flagName with
  | None => ret result
  | Some flagName =>
      if negb (nonempty flagName) then ret result
      else
        let* _ := match rawValue with
                  | None =>
                      logger_debug opts
                        ("No explicit value provided for " +:+ QUOTE +:+ flagName +:+ QUOTE
                         +:+ ". Treating as a potential boolean flag.")
                  | Some _ => ret tt
                  end in
        if negb (hasConfigPath result (normalizedPath flagName)) then
          let* _ := logger_debug opts ("Ignoring unknown flag: --" +:+ flagName) in
          ret result
        else
          let existingValue := resolveValueAtPath result (normalizedPath flagName) in
          let* v := lift (parsedValue opts flagName rawValue existingValue) in
          ret (assignValueAtPath result (normalizedPath flagName) v)
  end.

Fixpoint argument_loop (opts : Options) (args : list string) (result : node) : W node :=
  match args with
  | [] => ret result
  | rawArgument :: rest =>
      match dispatch rawArgument (head rest) with
      | None => argument_loop opts rest result
      | Some (flagName, flagValue) =>
          let* result := parseFlag opts result flagName flagValue in
          argument_loop opts rest result
      end
  end.

(** The body of [arglet] once [args] and [opts] are set.  On the trees of
    this layer [JSON.stringify] returns a string; the throw on a schema
    with a cycle is in [Dump.arglet]. *)
Definition run (data : node) (args : list string) (opts : Options) : W node :=
  let result := structuredClone data in
  let* result := argument_loop opts args result in
  let* _ := logger_debug opts ("Input:" +:+ NEWLINE +:+ JSON_stringify data) in
  let* _ := logger_debug opts ("Resolved configuration:" +:+ NEWLINE +:+ JSON_stringify result) in
  ret result.

(** [arglet(data, argsOrOptions?, explicitOptions?)] *)
Definition arglet (p : process) (data : node)
    (argsOrOptions : option ArgsOrOptions) (explicitOptions : option UserOptions) : W node :=
  let '(args, userOptions) :=
    match argsOrOptions with
    | Some (Args args) => (args, default no_options explicitOptions)
    | Some (Opts options) => (drop 2 (argv p), options)
    | None => (drop 2 (argv p), no_options)
    end in
  run data args (resolve_options p userOptions).

End logger.
End Console.

(** * The dumps of the store layer

    The last two statements of [arglet] build the messages of their
    [logger.debug] calls with [JSON.stringify(data, null, 2)] and
    [JSON.stringify(result, null, 2)], before [logger.debug] tests
    [opts.debug].  On the trees of the value layer [JSON.stringify]
    returns a string; on a store it throws a [TypeError] when the value
    holds a cycle.  [Dump.arglet] is [Heap.arglet] with these two calls. *)

Module Dump.
Import Heap.

(** Whether [JSON.stringify(v)] returns: the walk keeps the stack of the
    objects it is inside of, and throws a [TypeError] when a property
    holds one of them.  [fuel] bounds the depth of the walk. *)
Fixpoint serializable (fuel : nat) (h : store) (stack : gset loc) (v : hvalue) : bool :=
  match v with
  | HRef l =>
      if decide (l ∈ stack) then false
      else match fuel with
           | O => false
           | S fuel' =>
               match h !! l with
               | Some o =>
                   forallb (λ kv : string * hvalue,
                              serializable fuel' h ({[l]} ∪ stack) kv.2)
                           (map_to_list (oprops o))
               | None => true
               end
           end
  | _ => true
  end.

(** [JSON.stringify(v, null, 2)] for the object at [v], as far as the
    caller can tell when the string is not used: it returns or throws. *)
Definition JSON_stringify (v : loc) : M unit :=
  let* h := get_store in
  if serializable (S (size h)) h ∅ (HRef v) then ret tt
  else throw "TypeError: Converting circular structure to JSON".

(** [arglet(data, args, options)] with the two calls of [JSON.stringify]
    that build the messages of the final [logger.debug] calls; they are
    evaluated whatever [opts.debug] is. *)
Definition arglet (data : loc) (args : list string) (opts : ArgletOptions) : M loc :=
  let* result := structuredClone data in
  let* _ := argument_loop opts args result in
  let* _ := JSON_stringify data in
  let* _ := JSON_stringify result in
  ret result.

(** A property of the object at [a] holds the object at [b]. *)
Definition edge (h : store) (a b : loc) : Prop :=
  ∃ o key, h !! a = Some o ∧ oprops o !! key = Some (HRef b).

(** A chain of properties that starts at [a] and goes through [path]. *)
Fixpoint chain (h : store) (a : loc) (path : list loc) : Prop :=
  match path with
  | [] => True
  | b :: rest => edge h a b ∧ chain h b rest
  end.

(** Some chain of properties from [data] comes back to an object it has
    gone through. *)
Definition cyclic (h : store) (data : loc) : Prop :=
  ∃ path, chain h data path ∧ ¬ NoDup (data :: path).

End Dump.

(** * The prototype layer

    The store layer again, with property access in full.  An object has a
    prototype; [key in o] and [o[key]] look a property up along the chain
    of prototypes; [o[key] = v] writes to [o], unless the chain holds the
    setter of [__proto__] for [key]; an array has a [length], which
    [arr.length = v] changes.  The built-in objects [Object.prototype] and
    [Array.prototype] are objects of the store like the others: a path
    such as [__proto__.toString] leads into them.

    Scope.  Objects are ordinary objects, arrays and functions; a function
    is a value the program only looks at the type of.  Properties are data
    properties, all of them writable, and the accessor [__proto__] of
    [Object.prototype].  The conversion of a value to an array length is a
    parameter.  Errors the platform throws are named with their class in
    front, worded as V8 words them. *)

Module Proto.

Abbreviation loc := Heap.loc.

(** A property: a data property with its value, or the accessor
    [__proto__]. *)
Inductive property :=
| Data (v : Heap.hvalue) (enumerable : bool)
| Accessor_proto.

(** What an object is: an ordinary object, an array with its [length], or
    a function. *)
Inductive class :=
| OrdinaryObject
| ArrayObject (length : N)
| FunctionObject.

Record object := Object {
  oproto : option loc;
  oclass : class;
  oprops : gmap string property
}.

Abbreviation store := (gmap loc object).

(** The locations of the two built-in objects that new objects and new
    arrays get as their prototype. *)
Definition Object_prototype : loc := 1%positive.
Definition Array_prototype : loc := 2%positive.

Definition M (A : Type) : Type := store → outcome A * store.

Definition ret {A} (a : A) : M A := λ h, (Ok a, h).
Definition throw {A} (msg : string) : M A := λ h, (Throw msg, h).
Definition bindM {A B} (m : M A) (f : A → M B) : M B :=
  λ h, match m h with
       | (Ok a, h') => f a h'
       | (Throw msg, h') => (Throw msg, h')
       end.

Notation "'let*' x ':=' m 'in' k" := (bindM m (λ x, k))
  (at level 10, x name, m at level 100, k at level 200).

Definition get_store : M store := λ h, (Ok h, h).

(** What a function that only reads the store returns or throws. *)
Definition lift {A} (f : store → outcome A) : M A := λ h, (f h, h).

Definition alloc (o : object) : M loc :=
  λ h, let l := fresh (dom h) in (Ok l, <[l := o]> h).

(** ** Array indices *)

Definition digit (a : ascii) : option N :=
  let n := N_of_ascii a in
  if (48 <=? n)%N && (n <=? 57)%N then Some (n - 48)%N else None.

Fixpoint digits (acc : N) (s : string) : option N :=
  match s with
  | EmptyString => Some acc
  | String a s' =>
      match digit a with
      | Some d => digits (10 * acc + d)%N s'
      | None => None
      end
  end.

(** The index a key is, when it is one: the canonical decimal numeral of
    an integer below [2^32 - 1]. *)
Definition array_index (key : string) : option N :=
  match digits 0 key with
  | Some n => if bool_decide (pretty n = key) && (n <? 4294967295)%N then Some n else None
  | None => None
  end.

(** ** Property access *)

(** The own property of [o] at [key]; the [length] of an array is one. *)
Definition own_property (o : object) (key : string) : option property :=
  match oclass o with
  | ArrayObject length =>
      if decide (key = "length") then Some (Data (Heap.HNum (Z.of_N length)) false)
      else oprops o !! key
  | _ => oprops o !! key
  end.

(** The first object on the chain of prototypes of [l], [l] included, that
    has [key] as an own property, with the property. *)
Fixpoint find_property (fuel : nat) (h : store) (l : loc) (key : string)
    : option (loc * property) :=
  match fuel, h !! l with
  | S fuel', Some o =>
      match own_property o key with
      | Some p => Some (l, p)
      | None =>
          match oproto o with
          | Some l' => find_property fuel' h l' key
          | None => None
          end
      end
  | _, _ => None
  end.

(** A chain of prototypes has no cycle, so that it is no longer than the
    store has objects. *)
Definition lookup_property (h : store) (l : loc) (key : string) : option (loc * property) :=
  find_property (S (size h)) h l key.

(** [key in o] for the object at [l] *)
Definition has_property (h : store) (l : loc) (key : string) : bool :=
  bool_decide (is_Some (lookup_property h l key)).

(** [Object.getPrototypeOf(o)] for the object at [l] *)
Definition prototype_of (h : store) (l : loc) : Heap.hvalue :=
  match h !! l with
  | Some o => match oproto o with Some p => Heap.HRef p | None => Heap.HNull end
  | None => Heap.HUndef
  end.

(** [o[key]] for the object at [l]: the getter of [__proto__] returns the
    prototype of [o], whichever object holds the accessor. *)
Definition get (h : store) (l : loc) (key : string) : Heap.hvalue :=
  match lookup_property h l key with
  | Some (_, Data v _) => v
  | Some (_, Accessor_proto) => prototype_of h l
  | None => Heap.HUndef
  end.

(** [typeof v === "object" && v !== null]: a function is not. *)
Definition is_object (h : store) (v : Heap.hvalue) : bool :=
  match v with
  | Heap.HRef l =>
      match h !! l with
      | Some o => match oclass o with FunctionObject => false | _ => true end
      | None => false
      end
  | _ => false
  end.

(** [typeof v === "function"] *)
Definition is_callable (h : store) (v : Heap.hvalue) : bool :=
  match v with
  | Heap.HRef l =>
      match h !! l with
      | Some o => match oclass o with FunctionObject => true | _ => false end
      | None => false
      end
  | _ => false
  end.

(** Whether [l] is on the chain of prototypes that starts at [p]. *)
Fixpoint on_chain (fuel : nat) (h : store) (p : option loc) (l : loc) : bool :=
  match fuel, p with
  | S fuel', Some q =>
      if decide (q = l) then true
      else match h !! q with
           | Some o => on_chain fuel' h (oproto o) l
           | None => false
           end
  | _, _ => false
  end.

(** The setter of [__proto__], called on the object [o] at [l].  A value
    that is neither an object nor [null] is ignored; the prototype of
    [Object.prototype] cannot change; and no chain of prototypes may come
    back to [l]. *)
Definition set_prototype (l : loc) (o : object) (v : Heap.hvalue) : M unit :=
  λ h, let change (p : option loc) :=
         if decide (p = oproto o) then (Ok tt, h)
         else if decide (l = Object_prototype)
         then (Throw "TypeError: Immutable prototype object 'Object.prototype' cannot have their prototype set", h)
         else if on_chain (S (size h)) h p l
         then (Throw "TypeError: Cyclic __proto__ value", h)
         else (Ok tt, <[l := Object p (oclass o) (oprops o)]> h) in
       match v with
       | Heap.HRef p => change (Some p)
       | Heap.HNull => change None
       | _ => (Ok tt, h)
       end.

(** [o] with a new own data property: a new element past the end of an
    array moves its [length]. *)
Definition define_own (o : object) (key : string) (v : Heap.hvalue) : object :=
  let class' :=
    match oclass o, array_index key with
    | ArrayObject length, Some i => ArrayObject (N.max length (i + 1))
    | c, _ => c
    end in
  Object (oproto o) class' (<[key := Data v true]> (oprops o)).

(** The keys an array keeps when its [length] becomes [n]. *)
Definition kept (n : N) (key : string) : bool :=
  match array_index key with
  | Some i => (i <? n)%N
  | None => true
  end.

(** [{}] *)
Definition empty_object : object := Object (Some Object_prototype) OrdinaryObject ∅.

(** The array of strings [s.split(c)] returns, as a new object. *)
Definition alloc_array (pieces : list string) : M Heap.hvalue :=
  let* l := alloc (Object (Some Array_prototype) (ArrayObject (N.of_nat (length pieces)))
                     (list_to_map (imap (λ i s, (pretty i, Data (Heap.HStr s) true)) pieces))) in
  ret (Heap.HRef l).

(** ** [structuredClone]

    As in the store layer, every object reached through own enumerable
    data properties is copied once.  The copy of an object is an ordinary
    object and the copy of an array an array of the same [length], each
    with the built-in prototype of its class, whatever the prototype of
    the original; a function cannot be copied. *)
Definition put (l : loc) (key : string) (v : Heap.hvalue) (h : store) : store :=
  match h !! l with
  | Some o => <[l := Object (oproto o) (oclass o) (<[key := Data v true]> (oprops o))]> h
  | None => h
  end.

Fixpoint clone_object (fuel : nat) (l : loc) (h : store) (seen : gmap loc loc)
    : option (loc * store * gmap loc loc) :=
  match seen !! l with
  | Some l' => Some (l', h, seen)
  | None =>
      match fuel, h !! l with
      | S fuel', Some o =>
          match oclass o with
          | FunctionObject => None
          | c =>
              let l' := fresh (dom h) in
              let proto :=
                match c with ArrayObject _ => Array_prototype | _ => Object_prototype end in
              let h1 := <[l' := Object (Some proto) c ∅]> h in
              let copy_property (acc : option (store * gmap loc loc))
                                (kp : string * property) :=
                match acc with
                | None => None
                | Some (h, seen) =>
                    match kp.2 with
                    | Data (Heap.HRef l2) true =>
                        match clone_object fuel' l2 h seen with
                        | Some (l2', h', seen') => Some (put l' kp.1 (Heap.HRef l2') h', seen')
                        | None => None
                        end
                    | Data v true => Some (put l' kp.1 v h, seen)
                    | _ => Some (h, seen)
                    end
                end in
              match foldl copy_property (Some (h1, <[l := l']> seen))
                          (map_to_list (oprops o)) with
              | Some (h2, seen2) => Some (l', h2, seen2)
              | None => None
              end
          end
      | _, _ => None
      end
  end.

Definition structuredClone (data : loc) : M loc :=
  λ h, match clone_object (S (size h)) data h ∅ with
       | Some (l', h', _) => (Ok l', h')
       | None => (Throw "DataCloneError", h)
       end.

(** ** The helpers of [arglet], over the working copy at [result] *)

(** The callback of the [reduce] in [resolveValueAtPath]:
    [current && typeof current === "object" && key in current]. *)
Definition resolve_step (h : store) (current : Heap.hvalue) (key : string) : Heap.hvalue :=
  match current with
  | Heap.HRef l =>
      if is_object h current && has_property h l key then get h l key else Heap.HUndef
  | _ => Heap.HUndef
  end.

(** [path.split(".").reduce(...)]: the array that [split] returns finds
    [reduce] in [Array.prototype], which has to hold a function there
    (the built-in one: the program stores no function). *)
Definition resolveValueAtPath (result : loc) (path : string) : M Heap.hvalue :=
  lift (λ h,
    if is_callable h (get h Array_prototype "reduce")
    then Ok (foldl (resolve_step h) (Heap.HRef result) (split_on "." path))
    else Throw "TypeError: path.split(...).reduce is not a function").

Definition hasConfigPath (result : loc) (path : string) : M bool :=
  let* v := resolveValueAtPath result path in
  ret (Heap.is_defined v).

Section assignment.

(** The conversion of [arr.length = v]: the length [v] converts to, no
    length when the number [v] converts to is not one (a [RangeError]), or
    the error the conversion to a number throws. *)
Variable ToArrayLength : store → Heap.hvalue → outcome (option N).

Definition ArraySetLength (l : loc) (o : object) (v : Heap.hvalue) : M unit :=
  λ h, match ToArrayLength h v with
       | Throw msg => (Throw msg, h)
       | Ok None => (Throw "RangeError: Invalid array length", h)
       | Ok (Some n) =>
           (Ok tt, <[l := Object (oproto o) (ArrayObject n)
                             (filter (λ kp, kept n kp.1 = true) (oprops o))]> h)
       end.

(** [o[key] = v] for the object at [l].  The [length] of an array is set
    by [ArraySetLength].  Otherwise an own data property takes the value;
    the accessor [__proto__], own or inherited, runs its setter on [o];
    and a key that is inherited as a data property, or is not there,
    becomes a new own property of [o]. *)
Definition set (l : loc) (key : string) (v : Heap.hvalue) : M unit :=
  λ h, match h !! l with
       | None => (Ok tt, h)
       | Some o =>
           match oclass o, decide (key = "length") with
           | ArrayObject _, left _ => ArraySetLength l o v h
           | _, _ =>
               match lookup_property h l key with
               | Some (holder, Data _ enumerable) =>
                   if decide (holder = l)
                   then (Ok tt, <[l := Object (oproto o) (oclass o)
                                         (<[key := Data v enumerable]> (oprops o))]> h)
                   else (Ok tt, <[l := define_own o key v]> h)
               | Some (_, Accessor_proto) => set_prototype l o v h
               | None => (Ok tt, <[l := define_own o key v]> h)
               end
           end
       end.

(** The loop of [assignValueAtPath] from the current index on.  The
    property is read again after the guard has made it an object.  (It is
    an object then: [arr.length = {}] throws, since no conversion makes
    [{}] a length; were it to return, the walk would go on from a number,
    which the model does not follow.) *)
Fixpoint assign_loop (segments : list string) (v : Heap.hvalue) (currentNode : loc) : M unit :=
  match segments with
  | [] => ret tt
  | segment :: rest =>
      if negb (nonempty segment) then ret tt
      else match rest with
           | [] => set currentNode segment v
           | _ :: _ =>
               let* h := get_store in
               let* _ :=
                 if is_object h (get h currentNode segment) then ret tt
                 else let* child := alloc empty_object in
                      set currentNode segment (Heap.HRef child) in
               let* h' := get_store in
               match get h' currentNode segment with
               | Heap.HRef child => assign_loop rest v child
               | _ => throw "TypeError: Cannot create property"
               end
           end
  end.

Definition assignValueAtPath (result : loc) (path : string) (v : Heap.hvalue) : M unit :=
  assign_loop (split_on "." path) v result.

Definition parsedValue (opts : ArgletOptions) (flagName : string)
    (rawValue : option string) (existingValue : Heap.hvalue) : M Heap.hvalue :=
  if isDisabledFlag flagName then
    if Heap.not_boolean existingValue
    then throw ("--no-" +:+ normalizedPath flagName +:+ " is only valid for boolean options")
    else ret (Heap.HBool false)
  else match rawValue with
       | None =>
           if Heap.not_boolean existingValue
           then throw ("--" +:+ normalizedPath flagName +:+ " requires a value")
           else ret (Heap.HBool true)
       | Some rawValue =>
           if includes (sep_char (arraySeparator opts)) rawValue
           then alloc_array (split_on (sep_char (arraySeparator opts)) rawValue)
           else ret (Heap.HStr rawValue)
       end.

Definition parseFlag (opts : ArgletOptions) (result : loc)
    (flagName rawValue : option string) : M unit :=
  match flagName with
  | None => ret tt
  | Some flagName =>
      if negb (nonempty flagName) then ret tt
      else
        let* known := hasConfigPath result (normalizedPath flagName) in
        if negb known then ret tt
        else
          let* existingValue := resolveValueAtPath result (normalizedPath flagName) in
          let* v := parsedValue opts flagName rawValue existingValue in
          assignValueAtPath result (normalizedPath flagName) v
  end.

Fixpoint argument_loop (opts : ArgletOptions) (args : list string) (result : loc) : M unit :=
  match args with
  | [] => ret tt
  | rawArgument :: rest =>
      match dispatch rawArgument (head rest) with
      | None => argument_loop opts rest result
      | Some (flagName, flagValue) =>
          let* _ := parseFlag opts result flagName flagValue in
          argument_loop opts rest result
      end
  end.

End assignment.

(** ** The dumps *)

(** Whether [JSON.stringify(v)] returns: it walks the own enumerable data
    properties of an object and the elements of an array up to its
    [length], passes over functions, and throws when it meets an object it
    is inside of.  (No object of plain data and no built-in prototype of
    theirs has a [toJSON] method; there is none here.) *)
Fixpoint serializable (fuel : nat) (h : store) (stack : gset loc) (v : Heap.hvalue) : bool :=
  match v with
  | Heap.HRef l =>
      match fuel, h !! l with
      | S fuel', Some o =>
          match oclass o with
          | FunctionObject => true
          | OrdinaryObject =>
              if decide (l ∈ stack) then false
              else forallb (λ kp : string * property,
                              match kp.2 with
                              | Data w true => serializable fuel' h ({[l]} ∪ stack) w
                              | _ => true
                              end)
                           (map_to_list (oprops o))
          | ArrayObject length =>
              if decide (l ∈ stack) then false
              else forallb (λ i : nat,
                              serializable fuel' h ({[l]} ∪ stack)
                                (get h l (pretty (N.of_nat i))))
                           (seq 0 (N.to_nat length))
          end
      | O, Some _ => false
      | _, None => true
      end
  | _ => true
  end.

Definition JSON_stringify (v : loc) : M unit :=
  let* h := get_store in
  if serializable (S (size h)) h ∅ (Heap.HRef v) then ret tt
  else throw "TypeError: Converting circular structure to JSON".

(** [arglet(data, args, options)], with the two calls of [JSON.stringify]
    of its last statements. *)
Definition arglet (ToArrayLength : store → Heap.hvalue → outcome (option N))
    (data : loc) (args : list string) (opts : ArgletOptions) : M loc :=
  let* result := structuredClone data in
  let* _ := argument_loop ToArrayLength opts args result in
  let* _ := JSON_stringify data in
  let* _ := JSON_stringify result in
  ret result.

End Proto.

(** * Vocabulary of the statements

    Definitions the statements below are written with, over the value
    layer. *)

(** ** Paths as lists of segments *)

(** [resolveValueAtPath] from an arbitrary value, on the segments. *)
Definition resolve_from (v : value) (segments : list string) : value :=
  foldl resolve_step v segments.

(** No segment of the dotted path is empty (no leading, trailing or
    doubled dot, and not the empty path). *)
Definition no_empty_segment (path : string) : bool :=
  forallb nonempty (split_on "." path).

(** Neither path leads to the other. *)
Definition unrelated (p q : string) : Prop :=
  ¬ split_on "." p `prefix_of` split_on "." q ∧
  ¬ split_on "." q `prefix_of` split_on "." p.

(** [result'] is [result] with [v] stored at [path]: the path reads as
    [v], and the paths unrelated to it read as in [result]. *)
Definition stores_at (result result' : node) (path : string) (v : value) : Prop :=
  resolveValueAtPath result' path = v ∧
  kind result' = kind result ∧
  ∀ q, unrelated path q → resolveValueAtPath result' q = resolveValueAtPath result q.

(** The existing value at the path is a boolean. *)
Definition is_boolean (v : value) : bool := bool_decide (typeof v = TyBoolean).

(** ** The intermediate-node branch of [assignValueAtPath], observed *)

(** Whether a run of the loop of [assignValueAtPath] executes
    [currentNode[segment] = {}] at some iteration: the loop again, with
    the branch observed instead of the write performed. *)
Fixpoint replaces_intermediate (segments : list string) (currentNode : node) : bool :=
  match segments with
  | [] => false
  | segment :: rest =>
      if negb (nonempty segment) then false
      else match rest with
           | [] => false
           | _ :: _ =>
               let child := get_key (of_node currentNode) segment in
               if not_an_object child then true
               else replaces_intermediate rest (as_node child)
           end
  end.

(** The same observation for one [parseFlag] call and for the whole
    argument loop. *)
Definition parseFlag_replaces (opts : ArgletOptions) (result : node)
    (flagName rawValue : option string) : bool :=
  match flagName with
  | None => false
  | Some flagName =>
      if negb (nonempty flagName) then false
      else if negb (hasConfigPath result (normalizedPath flagName)) then false
      else match parsedValue opts flagName rawValue
                   (resolveValueAtPath result (normalizedPath flagName)) with
           | Ok _ => replaces_intermediate (split_on "." (normalizedPath flagName)) result
           | Throw _ => false
           end
  end.

Fixpoint run_replaces (opts : ArgletOptions) (args : list string) (result : node) : bool :=
  match args with
  | [] => false
  | rawArgument :: rest =>
      match dispatch rawArgument (head rest) with
      | None => run_replaces opts rest result
      | Some (flagName, flagValue) =>
          parseFlag_replaces opts result flagName flagValue
          || match parseFlag opts result flagName flagValue with
             | Ok result' => run_replaces opts rest result'
             | Throw _ => false
             end
      end
  end.

(** ** Flags as writes on a tree *)

(** The flags the argument loop dispatches, in order. *)
Fixpoint flags_of (args : list string) : list (option string * option string) :=
  match args with
  | [] => []
  | rawArgument :: rest =>
      match dispatch rawArgument (head rest) with
      | None => flags_of rest
      | Some flag => flag :: flags_of rest
      end
  end.

Fixpoint run_flags (opts : ArgletOptions) (flags : list (option string * option string))
    (result : node) : outcome node :=
  match flags with
  | [] => Ok result
  | (flagName, flagValue) :: rest =>
      bind (parseFlag opts result flagName flagValue) (run_flags opts rest)
  end.

(** A write on a tree: the segments that lead to the target, and the value
    to store there computed from the one found there (or a throw). *)
Definition write : Type := list string * (value → outcome value).

(** The write carried out along its path, from the value [w] down: a
    target that is [undefined] or out of reach is left alone. *)
Fixpoint act (segments : list string) (pv : value → outcome value) (w : value)
    : outcome value :=
  match segments with
  | [] => if is_defined w then pv w else Ok w
  | key :: rest =>
      match w with
      | VObj k m =>
          match m !! key with
          | Some c => bind (act rest pv c) (λ c', Ok (VObj k (<[key := c']> m)))
          | None => Ok w
          end
      | _ => Ok w
      end
  end.

Fixpoint run_writes (ws : list write) (w : value) : outcome value :=
  match ws with
  | [] => Ok w
  | (segments, pv) :: rest => bind (act segments pv w) (run_writes rest)
  end.

(** The value a write stores does not depend on the value it replaces, and
    is never [undefined]. *)
Definition steady (pv : value → outcome value) : Prop :=
  (∀ e1 e2 v1 v2, pv e1 = Ok v1 → pv e2 = Ok v2 → v1 = v2) ∧
  (∀ e v, pv e = Ok v → is_defined v = true).

(** The writes below the key [x]: those whose path starts with [x], with
    the rest of their path. *)
Fixpoint below (x : string) (ws : list write) : list write :=
  match ws with
  | [] => []
  | ([], _) :: rest => below x rest
  | (key :: segments, pv) :: rest =>
      if decide (key = x) then (segments, pv) :: below x rest else below x rest
  end.

(** The write a flag stands for. *)
Definition write_of (opts : ArgletOptions) (flag : option string * option string) : write :=
  match flag with
  | (Some flagName, rawValue) =>
      (split_on "." (normalizedPath flagName), parsedValue opts flagName rawValue)
  | (None, _) => ([], Ok)
  end.

(** The flags that can write: a name is given, it is not empty, and no
    segment of its path is empty. *)
Definition live (flag : option string * option string) : bool :=
  match flag with
  | (Some flagName, _) => nonempty flagName && no_empty_segment (normalizedPath flagName)
  | (None, _) => false
  end.

(** A flag that cannot throw: no name, or a name without the [no-] prefix
    together with a value. *)
Definition carries_value (flag : option string * option string) : bool :=
  match flag with
  | (None, _) => true
  | (Some flagName, Some _) => negb (isDisabledFlag flagName)
  | (Some flagName, None) => negb (nonempty flagName)
  end.

(** ** Sample schemas *)

Definition obj (l : list (string * value)) : node := Node Plain (list_to_map l).


Definition sample_store : Heap.store :=
  {[ 1%positive := Heap.Object Plain {[ "verbose" := Heap.HBool false;
                                        "server" := Heap.HRef 2%positive ]};
     2%positive := Heap.Object Plain {[ "host" := Heap.HStr "localhost" ]} ]}.

(** A schema with a shared object: the copy keeps the sharing, so a write
    through one path shows through the other, in the copy only. *)
Definition shared_store : Heap.store :=
  {[ 1%positive := Heap.Object Plain {[ "a" := Heap.HRef 2%positive;
                                        "b" := Heap.HRef 2%positive ]};
     2%positive := Heap.Object Plain {[ "c" := Heap.HBool false ]} ]}.

(** ** Rules without their side conditions

    The readings of the specification that the code does not follow; each
    is refuted further down. *)




Definition trailing_equals_rule : Prop :=
  ∀ opts result X,
    nonempty X = true → isDisabledFlag X = false → includes "=" X = false →
    hasConfigPath result X = true →
    is_boolean (resolveValueAtPath result X) = false →
    ∃ msg, arglet result ["--" +:+ X +:+ "="] opts = Throw msg.

Definition idempotence_unrestricted : Prop :=
  ∀ opts S T R, arglet S T opts = Ok R → arglet R T opts = Ok R.

(** * Vocabulary of the further properties *)

(** ** Paths and assignments *)

(** What the guard of the intermediate-node branch leaves at a property:
    the object that was there, or a fresh empty mapping. *)
Definition ensure_object (v : value) : value :=
  if not_an_object v then of_node empty_object else v.

(** What a walk of [assignValueAtPath] leaves at its first segment, when
    the property held [child] and [rest] are the segments after it. *)
Definition written_at_head (rest : list string) (v : value) (child : value) : value :=
  match rest with
  | [] => v
  | _ :: _ =>
      of_node (assign_loop rest v (if not_an_object child then empty_object else as_node child))
  end.

(** Keys that no flag can address: the empty key, and the keys that
    contain the separator of paths or the separator of a token. *)
Definition unaddressable (key : string) : bool :=
  negb (nonempty key) || includes "." key || includes "=" key.

(** ** Tokens and values *)

(** [l.join(c)] for a one-character string [c] *)
Fixpoint join (c : ascii) (l : list string) : string :=
  match l with
  | [] => EmptyString
  | s :: rest =>
      match rest with
      | [] => s
      | _ :: _ => s +:+ String c (join c rest)
      end
  end.

(** The value a flag with a raw value assigns. *)
Definition value_of_raw (opts : ArgletOptions) (raw : string) : value :=
  if includes (sep_char (arraySeparator opts)) raw
  then js_array (VStr <$> split_on (sep_char (arraySeparator opts)) raw)
  else VStr raw.

(** The token [--name=value] of a pair of a name and a value, and the flag
    it dispatches when neither contains [=]. *)
Definition equals_token (flag : string * string) : string :=
  "--" +:+ flag.1 +:+ "=" +:+ flag.2.

Definition valued (flag : string * string) : option string * option string :=
  (Some flag.1, Some flag.2).

(** No two flags of the list address related paths. *)
Definition independent (flags : list (string * string)) : Prop :=
  ∀ i j f g, i ≠ j → flags !! i = Some f → flags !! j = Some g → unrelated f.1 g.1.

(** Tokens that reach no flag: no [--] marker, or an empty name. *)
Definition names_no_flag (token : string) : bool :=
  negb (startsWith "--" token) || bool_decide (token = "--") || startsWith "--=" token.

(** ** The console layer against the value layer *)

(** The options of the value layer that stand for [opts], when its
    separator is [sep]. *)
Definition erase (opts : Console.Options) (sep : separator) : ArgletOptions :=
  {| debug := default false (Console.debug opts); arraySeparator := sep |}.

(** ** The copy of [structuredClone], object by object *)

(** [v'] is the copy of [v]: the same primitive value, or the copy that
    [seen] records for the object [v] refers to. *)
Definition copied_value (seen : gmap Heap.loc Heap.loc) (v v' : Heap.hvalue) : Prop :=
  match v with
  | Heap.HRef x => ∃ y, seen !! x = Some y ∧ v' = Heap.HRef y
  | _ => v' = v
  end.

(** The copy of the object at [a] is finished: it has the kind of [a], and
    property by property the copy of what [a] holds. *)
Definition copy_done (h0 h : Heap.store) (seen : gmap Heap.loc Heap.loc) (a : Heap.loc) : Prop :=
  ∃ oa b ob,
    h0 !! a = Some oa ∧ seen !! a = Some b ∧ h !! b = Some ob ∧
    Heap.okind ob = Heap.okind oa ∧
    ∀ key, match Heap.oprops oa !! key, Heap.oprops ob !! key with
           | Some v, Some v' => copied_value seen v v'
           | None, None => True
           | _, _ => False
           end.

(** The state of a copy under way, seen from the store [h0] of the caller:
    the store of the caller is as it was, the copies are new objects, one
    per object copied, and the copy of every object but those of [opened],
    which are being filled, is finished. *)
Definition clone_inv (h0 : Heap.store) (opened : gset Heap.loc)
    (h : Heap.store) (seen : gmap Heap.loc Heap.loc) : Prop :=
  h0 ⊆ h
  ∧ dom seen ⊆ dom h0
  ∧ (∀ a b, seen !! a = Some b → is_Some (h !! b) ∧ h0 !! b = None)
  ∧ (∀ a a' b, seen !! a = Some b → seen !! a' = Some b → a = a')
  ∧ (∀ a, a ∈ dom seen → a ∉ opened → copy_done h0 h seen a).

(** ** A sample schema with a cycle *)

(** A schema that holds itself: [data.self === data]. *)
Definition cyclic_store : Heap.store :=
  {[ 1%positive := Heap.Object Plain {[ "self" := Heap.HRef 1%positive;
                                        "on" := Heap.HBool false ]} ]}.

(** * Vocabulary of the prototype layer *)

(** ** A realm and two schemas in it *)

(** A built-in function: an object with [Function.prototype], at [3], as
    its prototype. *)
Definition builtin_function : Proto.object :=
  Proto.Object (Some 3%positive) Proto.FunctionObject ∅.

(** A method of a built-in prototype: a data property that is not
    enumerable. *)
Definition method (l : Proto.loc) : Proto.property := Proto.Data (Heap.HRef l) false.

(** [Object.prototype] at [1] and [Array.prototype] at [2], each with some
    of its members, and the functions they hold. *)
Definition standard_realm : Proto.store :=
  {[ 1%positive := Proto.Object None Proto.OrdinaryObject
                     {[ "__proto__" := Proto.Accessor_proto;
                        "constructor" := method 4%positive;
                        "hasOwnProperty" := method 5%positive;
                        "toString" := method 6%positive;
                        "valueOf" := method 7%positive ]};
     2%positive := Proto.Object (Some 1%positive) (Proto.ArrayObject 0)
                     {[ "constructor" := method 8%positive;
                        "join" := method 9%positive;
                        "push" := method 10%positive;
                        "reduce" := method 11%positive;
                        "toString" := method 12%positive ]};
     3%positive := Proto.Object (Some 1%positive) Proto.FunctionObject ∅;
     4%positive := builtin_function; 5%positive := builtin_function;
     6%positive := builtin_function; 7%positive := builtin_function;
     8%positive := builtin_function; 9%positive := builtin_function;
     10%positive := builtin_function; 11%positive := builtin_function;
     12%positive := builtin_function ]}.

(** The object a literal [{k: v, ...}] builds. *)
Definition literal (l : list (string * Heap.hvalue)) : Proto.object :=
  Proto.Object (Some Proto.Object_prototype) Proto.OrdinaryObject
    (list_to_map (prod_map id (λ v, Proto.Data v true) <$> l)).

(** The schema [{a: 1}], at [20]. *)
Definition number_schema : Proto.store :=
  <[20%positive := literal [("a", Heap.HNum 1)]]> standard_realm.

(** The schema [{ids: "s"}], at [20]. *)
Definition string_schema : Proto.store :=
  <[20%positive := literal [("ids", Heap.HStr "s")]]> standard_realm.

(** A conversion for which the string [s] is no array length: [f], but
    at [s]. *)
Definition no_length_at (s : string) (f : Proto.store → Heap.hvalue → outcome (option N))
    : Proto.store → Heap.hvalue → outcome (option N) :=
  λ h v, match v with
         | Heap.HStr t => if decide (t = s) then Ok None else f h v
         | _ => f h v
         end.

(** ** The own data of a store of the prototype layer *)

Definition data_value (p : Proto.property) : option Heap.hvalue :=
  match p with
  | Proto.Data v _ => Some v
  | Proto.Accessor_proto => None
  end.

(** An object as the store layer has it: its kind and its own data
    properties. *)
Definition own_data (o : Proto.object) : Heap.object :=
  Heap.Object (match Proto.oclass o with Proto.ArrayObject _ => Array | _ => Plain end)
              (omap data_value (Proto.oprops o)).

Definition own_data_store (h : Proto.store) : Heap.store := own_data <$> h.

(** A value of plain data: a primitive value, or an object of [D]. *)
Definition data_ref (D : gset Proto.loc) (v : Heap.hvalue) : Prop :=
  match v with
  | Heap.HRef l => l ∈ D
  | _ => True
  end.

(** The store [h] is the realm [R], made of the built-in objects, and the
    plain data [D]: objects and arrays whose prototype is an object of the
    realm and whose properties are data properties that hold values of
    plain data.  The realm has [Object.prototype] and [Array.prototype],
    with a function as [reduce], and the prototype of an object of the
    realm is in the realm. *)
Record plain_inv (R : Proto.store) (D : gset Proto.loc) (h : Proto.store) : Prop := {
  inv_realm : ∀ l, l ∉ D → h !! l = R !! l;
  inv_apart : ∀ l, l ∈ D → R !! l = None;
  inv_data : ∀ l, l ∈ D →
    ∃ o, h !! l = Some o
         ∧ Proto.oclass o ≠ Proto.FunctionObject
         ∧ (∀ p, Proto.oproto o = Some p → is_Some (R !! p))
         ∧ ∀ key p, Proto.oprops o !! key = Some p →
             ∃ v e, p = Proto.Data v e ∧ data_ref D v;
  inv_chain : ∀ l o p, R !! l = Some o → Proto.oproto o = Some p → is_Some (R !! p);
  inv_Object : is_Some (R !! Proto.Object_prototype);
  inv_Array : is_Some (R !! Proto.Array_prototype);
  inv_reduce : ∃ fuel holder f e fo,
    fuel ≤ S (size h)
    ∧ Proto.find_property fuel R Proto.Array_prototype "reduce"
      = Some (holder, Proto.Data (Heap.HRef f) e)
    ∧ R !! f = Some fo ∧ Proto.oclass fo = Proto.FunctionObject
}.

(** A plain key: [key] is not [length], and no object of the realm has it
    as a key. *)
Definition plain_for (R : Proto.store) (key : string) : Prop :=
  key ≠ "length" ∧ ∀ l o, R !! l = Some o → Proto.oprops o !! key = None.

(** An object that can join the plain data. *)
Definition joins (R : Proto.store) (D : gset Proto.loc) (o : Proto.object) : Prop :=
  Proto.oclass o ≠ Proto.FunctionObject
  ∧ (∀ p, Proto.oproto o = Some p → is_Some (R !! p))
  ∧ ∀ key p, Proto.oprops o !! key = Some p → ∃ v e, p = Proto.Data v e ∧ data_ref D v.

(** A step of the two layers from the store [h]: the same result, and the
    store layer leaves the own data of the store the prototype layer
    leaves. *)
Definition agree {A} (R : Proto.store) (D : gset Proto.loc) (m : Proto.M A) (m' : Heap.M A)
    (h : Proto.store) (P : gset Proto.loc → A → Prop) : Prop :=
  ∃ D' r h', D ⊆ D'
    ∧ m h = (r, h')
    ∧ m' (own_data_store h) = (r, own_data_store h')
    ∧ plain_inv R D' h'
    ∧ ∀ a, r = Ok a → P D' a.

(** The same notions, decided on a store [h] and the set [D] of its
    objects of plain data; the realm is the rest of [h]. *)
Definition realm_of (h : Proto.store) (D : gset Proto.loc) : Proto.store :=
  filter (λ lo : Proto.loc * Proto.object, lo.1 ∉ D) h.

Definition data_object (h : Proto.store) (D : gset Proto.loc) (o : Proto.object) : bool :=
  match Proto.oclass o with Proto.FunctionObject => false | _ => true end
  && match Proto.oproto o with
     | Some p => bool_decide (p ∈ dom h ∖ D)
     | None => true
     end
  && forallb (λ kp : string * Proto.property,
                match kp.2 with
                | Proto.Data (Heap.HRef l) _ => bool_decide (l ∈ D)
                | Proto.Data _ _ => true
                | Proto.Accessor_proto => false
                end)
             (map_to_list (Proto.oprops o)).

Definition realm_object (h : Proto.store) (D : gset Proto.loc) (o : Proto.object) : bool :=
  match Proto.oproto o with
  | Some p => bool_decide (p ∈ dom h ∖ D)
  | None => true
  end.

Definition plain_data (h : Proto.store) (D : gset Proto.loc) : bool :=
  bool_decide (D ⊆ dom h)
  && forallb (λ lo : Proto.loc * Proto.object,
                if decide (lo.1 ∈ D) then data_object h D lo.2 else realm_object h D lo.2)
             (map_to_list h)
  && bool_decide (Proto.Object_prototype ∈ dom h ∖ D)
  && bool_decide (Proto.Array_prototype ∈ dom h ∖ D)
  && match Proto.lookup_property h Proto.Array_prototype "reduce" with
     | Some (_, Proto.Data v _) => Proto.is_callable h v
     | _ => false
     end.

Definition plain_key (h : Proto.store) (D : gset Proto.loc) (key : string) : bool :=
  negb (bool_decide (key = "length"))
  && forallb (λ lo : Proto.loc * Proto.object,
                bool_decide (lo.1 ∈ D) || bool_decide (Proto.oprops lo.2 !! key = None))
             (map_to_list h).

(** Every segment of the path of the flag is a plain key. *)
Definition plain_flag (h : Proto.store) (D : gset Proto.loc)
    (flag : option string * option string) : bool :=
  match flag.1 with
  | Some flagName => forallb (plain_key h D) (split_on "." (normalizedPath flagName))
  | None => true
  end.

(** The step that changes nothing. *)
Ltac agree_here D h :=
  unfold agree; exists D; eexists _, h; split_and!; [done..|]; intros ? ?; by simplify_eq/=.

(** * Properties of the value layer *)

(** ** Sample runs *)

Example run_quick_start :
  arglet (obj [("input", VStr "src"); ("output", VStr "dist"); ("watch", VBool false)])
         ["--input=lib"; "--watch"] default_options
  = Ok (obj [("input", VStr "lib"); ("output", VStr "dist"); ("watch", VBool true)]).
Proof. vm_compute. reflexivity. Qed.

Example run_space_separated :
  arglet (obj [("name", VStr "sriman"); ("age", VNum 23); ("debug", VBool false)])
         ["--name"; "tene"; "--age"; "25"; "--debug"] default_options
  = Ok (obj [("name", VStr "tene"); ("age", VStr "25"); ("debug", VBool true)]).
Proof. vm_compute. reflexivity. Qed.

Example run_nested :
  arglet (obj [("server", of_node (obj [("host", VStr "localhost"); ("port", VStr "3000")]))])
         ["--server.host=0.0.0.0"; "--server.port=8080"] default_options
  = Ok (obj [("server", of_node (obj [("host", VStr "0.0.0.0"); ("port", VStr "8080")]))]).
Proof. vm_compute. reflexivity. Qed.

Example run_array_pipe :
  arglet (obj [("ids", js_array [])]) ["--ids=1|2|3"] {| debug := false; arraySeparator := Pipe |}
  = Ok (obj [("ids", js_array [VStr "1"; VStr "2"; VStr "3"])]).
Proof. vm_compute. reflexivity. Qed.

Example run_missing_value :
  arglet (obj [("age", VNum 23)]) ["--age"] default_options
  = Throw "--age requires a value".
Proof. vm_compute. reflexivity. Qed.

Example run_negation_of_string :
  arglet (obj [("name", VStr "x")]) ["--no-name"] default_options
  = Throw "--no-name is only valid for boolean options".
Proof. vm_compute. reflexivity. Qed.

Example run_array_element :
  arglet (obj [("ids", js_array [VStr "a"; VStr "b"])]) ["--ids.1=z"] default_options
  = Ok (obj [("ids", js_array [VStr "a"; VStr "z"])]).
Proof. vm_compute. reflexivity. Qed.

(** ** Resolving a path *)

Lemma split_on_not_nil c s : split_on c s ≠ [].
Proof.
  destruct s as [|a s]; simpl; [done|].
  case_decide; [done|]. by destruct (split_on c s).
Qed.

Lemma resolve_step_obj k m key :
  resolve_step (VObj k m) key = default VUndef (m !! key).
Proof.
  unfold resolve_step, has_key, get_key; simpl.
  by destruct (m !! key) as [v|].
Qed.

Lemma resolve_step_not_obj v key :
  (∀ k m, v ≠ VObj k m) → resolve_step v key = VUndef.
Proof.
  intros H. unfold resolve_step.
  destruct v; simpl; try done; try (by rewrite andb_false_r).
  by destruct (H k props0).
Qed.

Lemma resolve_from_undef segments : resolve_from VUndef segments = VUndef.
Proof. induction segments as [|s segs IH]; [done|]. exact IH. Qed.

Lemma resolve_from_cons v key segments :
  resolve_from v (key :: segments) = resolve_from (resolve_step v key) segments.
Proof. done. Qed.

Lemma resolve_from_app v l1 l2 :
  resolve_from v (l1 ++ l2) = resolve_from (resolve_from v l1) l2.
Proof. apply foldl_app. Qed.

(** A defined step was taken inside a node that holds the key. *)
Lemma resolve_step_defined v key :
  is_defined (resolve_step v key) = true →
  ∃ k m, v = VObj k m ∧ m !! key = Some (resolve_step v key).
Proof.
  intros H. destruct v as [| | | | |k m];
    try (rewrite resolve_step_not_obj in H; [done | by intros]).
  exists k, m. split; [done|].
  rewrite resolve_step_obj in H |- *.
  by destruct (m !! key).
Qed.

Lemma resolve_from_defined_cons v key segments :
  is_defined (resolve_from v (key :: segments)) = true →
  ∃ k m w, v = VObj k m ∧ m !! key = Some w ∧ resolve_step v key = w ∧
           is_defined (resolve_from w segments) = true.
Proof.
  rewrite resolve_from_cons. intros H.
  destruct (is_defined (resolve_step v key)) eqn:E.
  - destruct (resolve_step_defined _ _ E) as (k & m & -> & Hm).
    by exists k, m, (resolve_step (VObj k m) key).
  - destruct (resolve_step v key); try done.
    by rewrite resolve_from_undef in H.
Qed.

Lemma hasConfigPath_resolve result path :
  hasConfigPath result path = is_defined (resolve_from (of_node result) (split_on "." path)).
Proof. done. Qed.

Lemma of_node_as_node k m : of_node (as_node (VObj k m)) = VObj k m.
Proof. done. Qed.

Lemma set_key_same n key v :
  props n !! key = Some v → set_key n key v = n.
Proof. intros H. destruct n as [k m]. unfold set_key; simpl in *. by rewrite insert_id. Qed.

(** ** [assignValueAtPath] on a path that exists *)

Lemma assign_loop_last segment v n :
  nonempty segment = true → assign_loop [segment] v n = set_key n segment v.
Proof. intros H. simpl. by rewrite H. Qed.

Lemma assign_loop_last_fun segment n :
  nonempty segment = true →
  (λ v, Ok (of_node (assign_loop [segment] v n)))
  = (λ v, Ok (VObj (kind n) (<[segment := v]> (props n)))).
Proof. intros H. simpl. by rewrite H. Qed.

Lemma assign_loop_descend segment s2 rest v n k m :
  nonempty segment = true →
  props n !! segment = Some (VObj k m) →
  assign_loop (segment :: s2 :: rest) v n
  = set_key n segment (of_node (assign_loop (s2 :: rest) v (Node k m))).
Proof.
  intros Hne Hm.
  change (assign_loop (segment :: s2 :: rest) v n) with
    (if negb (nonempty segment) then n
     else let child := get_key (of_node n) segment in
          let child' := if not_an_object child then empty_object else as_node child in
          set_key n segment (of_node (assign_loop (s2 :: rest) v child'))).
  rewrite Hne. unfold get_key, of_node. rewrite Hm. done.
Qed.

(** The walk of a defined path: the head is a key of the node, and when
    segments remain its value is itself a node. *)
Lemma defined_path_head n segment rest :
  is_defined (resolve_from (of_node n) (segment :: rest)) = true →
  ∃ w, props n !! segment = Some w ∧ is_defined (resolve_from w rest) = true.
Proof.
  intros H. destruct (resolve_from_defined_cons _ _ _ H) as (k & m & w & Hn & Hm & _ & Hw).
  exists w. split; [|done]. destruct n as [k' m']. unfold of_node in Hn; simpl in *.
  by simplify_eq.
Qed.

Lemma defined_path_inner w s2 rest :
  is_defined (resolve_from w (s2 :: rest)) = true → ∃ k m, w = VObj k m.
Proof.
  intros H. destruct (resolve_from_defined_cons _ _ _ H) as (k & m & ? & -> & _).
  by exists k, m.
Qed.

Lemma assign_loop_kind segments v n : kind (assign_loop segments v n) = kind n.
Proof.
  destruct segments as [|segment rest]; [done|]. simpl.
  destruct (nonempty segment); [|done]. by destruct rest.
Qed.

(** Reading back the path just assigned gives the assigned value. *)
Lemma assign_loop_resolve segments v n :
  segments ≠ [] →
  Forall (λ s, nonempty s = true) segments →
  is_defined (resolve_from (of_node n) segments) = true →
  resolve_from (of_node (assign_loop segments v n)) segments = v.
Proof.
  revert n. induction segments as [|segment rest IH]; intros n Hnil Hne Hdef; [done|].
  apply Forall_cons in Hne as [Hseg Hrest].
  destruct (defined_path_head _ _ _ Hdef) as (w & Hw & Hwdef).
  destruct rest as [|s2 rest].
  - rewrite assign_loop_last by done.
    rewrite resolve_from_cons. unfold of_node, set_key; simpl.
    by rewrite resolve_step_obj, lookup_insert_eq.
  - destruct (defined_path_inner _ _ _ Hwdef) as (k & m & ->).
    rewrite (assign_loop_descend _ _ _ _ _ k m) by done.
    rewrite resolve_from_cons. unfold of_node at 1, set_key; simpl.
    rewrite resolve_step_obj, lookup_insert_eq. simpl.
    apply IH; done.
Qed.

(** A path with an empty segment is never written: the loop returns at the
    empty segment, before it has changed anything. *)
Lemma assign_loop_empty_segment segments v n :
  Exists (λ s, nonempty s = false) segments →
  is_defined (resolve_from (of_node n) segments) = true →
  assign_loop segments v n = n.
Proof.
  revert n. induction segments as [|segment rest IH]; intros n Hex Hdef.
  - by apply Exists_nil in Hex.
  - destruct (nonempty segment) eqn:Hseg; [|by simpl; rewrite Hseg].
    apply Exists_cons in Hex as [Hex|Hex]; [congruence|].
    destruct (defined_path_head _ _ _ Hdef) as (w & Hw & Hwdef).
    destruct rest as [|s2 rest]; [by apply Exists_nil in Hex|].
    destruct (defined_path_inner _ _ _ Hwdef) as (k & m & ->).
    rewrite (assign_loop_descend _ _ _ _ _ k m) by done.
    rewrite (IH (Node k m)) by done.
    by apply set_key_same.
Qed.

(** Paths that neither extend the assigned path nor lead to it read as
    before. *)
Lemma assign_loop_frame segments v n q :
  is_defined (resolve_from (of_node n) segments) = true →
  ¬ segments `prefix_of` q → ¬ q `prefix_of` segments →
  resolve_from (of_node (assign_loop segments v n)) q = resolve_from (of_node n) q.
Proof.
  revert n q. induction segments as [|segment rest IH]; intros n q Hdef Hsq Hqs; [done|].
  destruct (nonempty segment) eqn:Hseg; [|by simpl; rewrite Hseg].
  destruct q as [|key q]; [by destruct Hqs; apply prefix_nil|].
  destruct (defined_path_head _ _ _ Hdef) as (w & Hw & Hwdef).
  destruct (decide (key = segment)) as [->|Hkey].
  - destruct rest as [|s2 rest].
    { destruct Hsq. apply prefix_cons, prefix_nil. }
    destruct (defined_path_inner _ _ _ Hwdef) as (k & m & ->).
    rewrite (assign_loop_descend _ _ _ _ _ k m) by done.
    rewrite !resolve_from_cons. unfold of_node at 1 3, set_key; simpl.
    rewrite !resolve_step_obj, lookup_insert_eq, Hw. simpl.
    apply (IH (Node k m)); [done| |].
    + intros ?. apply Hsq. by apply prefix_cons.
    + intros ?. apply Hqs. by apply prefix_cons.
  - assert (props (assign_loop (segment :: rest) v n) !! key = props n !! key) as Hsame.
    { destruct rest as [|s2 rest].
      - rewrite assign_loop_last by done. simpl. by rewrite lookup_insert_ne.
      - destruct (defined_path_inner _ _ _ Hwdef) as (k & m & ->).
        rewrite (assign_loop_descend _ _ _ _ _ k m) by done.
        simpl. by rewrite lookup_insert_ne. }
    rewrite !resolve_from_cons. unfold of_node.
    by rewrite !resolve_step_obj, Hsame.
Qed.

(** ** Tokens and the flags they dispatch *)

Lemma startsWith_app p s : startsWith p (p +:+ s) = true.
Proof. induction p as [|a p IH]; [done|]. simpl. by rewrite decide_True. Qed.

Lemma append_cons a s t : String a s +:+ t = String a (s +:+ t).
Proof. done. Qed.

Lemma includes_app_l c s t : includes c (s +:+ t) = includes c s || includes c t.
Proof.
  induction s as [|a s IH]; [done|].
  rewrite append_cons. simpl. by case_decide.
Qed.

Lemma split_on_app_sep c s t :
  includes c s = false →
  split_on c (s +:+ String c t) = s :: split_on c t.
Proof.
  induction s as [|a s IH]; intros H.
  - change ("" +:+ String c t) with (String c t). simpl. by rewrite decide_True.
  - rewrite append_cons. simpl in H |- *. case_decide; [done|]. by rewrite IH.
Qed.

Lemma split_on_no_sep c s : includes c s = false → split_on c s = [s].
Proof.
  induction s as [|a s IH]; intros H; [done|].
  simpl in H |- *. case_decide; [done|]. by rewrite IH.
Qed.

Lemma argument_loop_step opts tok rest result flagName flagValue :
  dispatch tok (head rest) = Some (flagName, flagValue) →
  argument_loop opts (tok :: rest) result
  = bind (parseFlag opts result flagName flagValue) (argument_loop opts rest).
Proof. intros H. simpl. by rewrite H. Qed.

Lemma argument_loop_skip opts tok rest result :
  dispatch tok (head rest) = None →
  argument_loop opts (tok :: rest) result = argument_loop opts rest result.
Proof. intros H. simpl. by rewrite H. Qed.

(** [--X] with no [=] in it dispatches [X] with the value that follows. *)
Lemma dispatch_plain X next :
  includes "=" X = false →
  dispatch ("--" +:+ X) next = Some (Some X, following_value next).
Proof.
  intros H. unfold dispatch.
  change (startsWith "--" ("--" +:+ X)) with true.
  change (slice_from 2 ("--" +:+ X)) with X.
  by rewrite H.
Qed.

(** [--name=rest] dispatches [name] with the text of [rest] up to its first
    [=]. *)
Lemma dispatch_equals name rest next :
  includes "=" name = false →
  dispatch ("--" +:+ name +:+ "=" +:+ rest) next
  = Some (Some name, head (split_on "=" rest)).
Proof.
  intros H. unfold dispatch.
  change (startsWith "--" ("--" +:+ name +:+ "=" +:+ rest)) with true.
  change (slice_from 2 ("--" +:+ name +:+ "=" +:+ rest)) with (name +:+ String "=" rest).
  rewrite includes_app_l. cbn [includes]. rewrite decide_True by done.
  rewrite orb_true_r. simpl.
  rewrite split_on_app_sep by done. simpl.
  by destruct (split_on "=" rest).
Qed.

(** ** What one [parseFlag] call does *)

Lemma parseFlag_unknown opts result flagName rawValue :
  hasConfigPath result (normalizedPath flagName) = false →
  parseFlag opts result (Some flagName) rawValue = Ok result.
Proof.
  intros H. unfold parseFlag. rewrite H. simpl. by destruct (nonempty flagName).
Qed.

Lemma parseFlag_known opts result flagName rawValue :
  nonempty flagName = true →
  hasConfigPath result (normalizedPath flagName) = true →
  parseFlag opts result (Some flagName) rawValue
  = bind (parsedValue opts flagName rawValue
            (resolveValueAtPath result (normalizedPath flagName)))
         (λ v, Ok (assignValueAtPath result (normalizedPath flagName) v)).
Proof. intros H1 H2. unfold parseFlag. by rewrite H1, H2. Qed.

Lemma no_empty_segment_Forall path :
  no_empty_segment path = true ↔ Forall (λ s, nonempty s = true) (split_on "." path).
Proof.
  unfold no_empty_segment. rewrite forallb_forall, Forall_forall.
  split; intros H x Hx; apply H; by apply list_elem_of_In.
Qed.

Lemma no_empty_segment_Exists path :
  no_empty_segment path = false ↔ Exists (λ s, nonempty s = false) (split_on "." path).
Proof.
  unfold no_empty_segment. generalize (split_on "." path). intros l.
  induction l as [|s l IH]; simpl.
  - split; [done | by intros ?%Exists_nil].
  - rewrite Exists_cons, andb_false_iff, IH. done.
Qed.

(** Assigning at an existing path stores the value there when no segment
    is empty, and does nothing when one is. *)
Lemma assignValueAtPath_stores result path v :
  hasConfigPath result path = true →
  no_empty_segment path = true →
  stores_at result (assignValueAtPath result path v) path v.
Proof.
  intros Hex Hne. rewrite hasConfigPath_resolve in Hex.
  apply no_empty_segment_Forall in Hne.
  unfold stores_at, assignValueAtPath, resolveValueAtPath. split_and!.
  - apply assign_loop_resolve; [apply split_on_not_nil | done..].
  - apply assign_loop_kind.
  - intros q [H1 H2]. by apply assign_loop_frame.
Qed.

Lemma assignValueAtPath_aborts result path v :
  hasConfigPath result path = true →
  no_empty_segment path = false →
  assignValueAtPath result path v = result.
Proof.
  intros Hex Hne. rewrite hasConfigPath_resolve in Hex.
  apply no_empty_segment_Exists in Hne.
  by apply assign_loop_empty_segment.
Qed.



Lemma parsedValue_raw opts X raw existing :
  isDisabledFlag X = false →
  parsedValue opts X (Some raw) existing
  = Ok (if includes (sep_char (arraySeparator opts)) raw
        then js_array (VStr <$> split_on (sep_char (arraySeparator opts)) raw)
        else VStr raw).
Proof.
  intros H. unfold parsedValue. rewrite H.
  by destruct (includes (sep_char (arraySeparator opts)) raw).
Qed.

Lemma normalizedPath_plain X : isDisabledFlag X = false → normalizedPath X = X.
Proof. intros H. unfold normalizedPath. by rewrite H. Qed.


Lemma parseFlag_with_value opts result X raw :
  nonempty X = true → isDisabledFlag X = false →
  hasConfigPath result X = true →
  parseFlag opts result (Some X) (Some raw)
  = Ok (assignValueAtPath result X
          (if includes (sep_char (arraySeparator opts)) raw
           then js_array (VStr <$> split_on (sep_char (arraySeparator opts)) raw)
           else VStr raw)).
Proof.
  intros Hne Hdis Hex.
  rewrite parseFlag_known by (by rewrite ?normalizedPath_plain).
  by rewrite normalizedPath_plain, parsedValue_raw.
Qed.

Lemma stores_or_aborts result path v :
  hasConfigPath result path = true →
  if no_empty_segment path
  then stores_at result (assignValueAtPath result path v) path v
  else assignValueAtPath result path v = result.
Proof.
  intros H. destruct (no_empty_segment path) eqn:E.
  - by apply assignValueAtPath_stores.
  - by apply assignValueAtPath_aborts.
Qed.




(** ** Bare flags *)




(** ** Negation flags *)




(** ** Unknown flags *)

(** A flag whose target path is no path of own data properties in the
    working copy is ignored: [parseFlag] returns the working copy as it
    is, without a throw, and the run goes on with the remaining tokens.
    (A name that a prototype holds is a path the source does find:
    [inherited_name_is_not_ignored].) *)
Theorem unknown_flag_ignored opts result flagName flagValue :
  hasConfigPath result (normalizedPath flagName) = false →
  parseFlag opts result (Some flagName) flagValue = Ok result
  ∧ ∀ tok rest,
      dispatch tok (head rest) = Some (Some flagName, flagValue) →
      argument_loop opts (tok :: rest) result = argument_loop opts rest result.
Proof.
  intros H. split; [by apply parseFlag_unknown|].
  intros tok rest Hd. rewrite (argument_loop_step _ _ _ _ _ _ Hd).
  by rewrite parseFlag_unknown.
Qed.

Lemma unknown_flag_ignored_witness :
  arglet (obj [("a", VNum 1)]) ["--unknown"] default_options = Ok (obj [("a", VNum 1)]).
Proof.
  exact (proj2 (unknown_flag_ignored default_options (obj [("a", VNum 1)])
                  "unknown" None eq_refl) "--unknown" [] eq_refl).
Defined.

(** ** Flags with a value *)




(** ** Tokens of the form [--name=value] *)

(** C6 (the code at the failing input).  The token [--k=a=b] dispatches
    the name [k] with the value [a]: [rawArgument.split("=")] cuts at every
    [=] and the destructuring keeps the first two pieces, so the text from
    the second [=] on is dropped.  The space-separated form [--k a=b] keeps
    the whole value. *)
Theorem equals_value_truncated :
  dispatch "--k=a=b" None = Some (Some "k", Some "a")
  ∧ arglet (obj [("k", VStr "")]) ["--k=a=b"] default_options
    = Ok (obj [("k", VStr "a")])
  ∧ arglet (obj [("k", VStr "")]) ["--k"; "a=b"] default_options
    = Ok (obj [("k", VStr "a=b")]).
Proof. split_and!; vm_compute; reflexivity. Qed.

(** The rule of C7 does not hold of the code: with schema
    [{port: "3000"}], whose [port] is not a boolean, the call with
    [--port=] does not throw, it returns [{port: ""}]. *)
Lemma trailing_equals_rule_fails :
  is_boolean (resolveValueAtPath (obj [("port", VStr "3000")]) "port") = false
  ∧ dispatch "--port=" None = Some (Some "port", Some "")
  ∧ arglet (obj [("port", VStr "3000")]) ["--port="] default_options
    = Ok (obj [("port", VStr "")])
  ∧ ¬ trailing_equals_rule.
Proof.
  split_and!; [by vm_compute..|].
  intros H.
  destruct (H default_options (obj [("port", VStr "3000")]) "port"
              eq_refl eq_refl eq_refl eq_refl eq_refl) as (msg & Hmsg).
  vm_compute in Hmsg. discriminate.
Qed.

(** What the code does with a trailing [=].  A token [--X=] (non-empty
    [X] without [=] and without the [no-] prefix) whose path [X] exists
    dispatches the empty string as the value of [X]: the call does not
    throw, and the run goes on with [""] assigned at [X], for a boolean
    and a non-boolean existing value alike.  The assignment stores [""] at
    [X] when no segment of [X] is empty and leaves the working copy
    untouched when one is. *)
Theorem trailing_equals_assigns_empty opts result X rest :
  nonempty X = true → isDisabledFlag X = false → includes "=" X = false →
  hasConfigPath result X = true →
  argument_loop opts (("--" +:+ X +:+ "=") :: rest) result
  = argument_loop opts rest (assignValueAtPath result X (VStr ""))
  ∧ (if no_empty_segment X
     then stores_at result (assignValueAtPath result X (VStr "")) X (VStr "")
     else assignValueAtPath result X (VStr "") = result).
Proof.
  intros Hne Hdis Heq Hex. split; [|by apply stores_or_aborts].
  rewrite (argument_loop_step _ _ _ _ (Some X) (Some "")).
  2:{ change ("--" +:+ X +:+ "=") with ("--" +:+ X +:+ "=" +:+ "").
      by rewrite dispatch_equals. }
  rewrite parseFlag_with_value by done.
  by destruct (arraySeparator opts).
Qed.

Lemma trailing_equals_assigns_empty_witness :
  argument_loop default_options ["--port="] (obj [("port", VStr "3000")])
  = Ok (assignValueAtPath (obj [("port", VStr "3000")]) "port" (VStr ""))
  ∧ stores_at (obj [("port", VStr "3000")])
      (assignValueAtPath (obj [("port", VStr "3000")]) "port" (VStr ""))
      "port" (VStr "").
Proof.
  exact (trailing_equals_assigns_empty default_options (obj [("port", VStr "3000")])
           "port" [] eq_refl eq_refl eq_refl eq_refl).
Defined.

(** C7 (the code at the failing input).  With the schema
    [{port: "3000"}], whose [port] holds a string, the token [--port=] is
    not rejected: the split at [=] hands the empty string to [parseFlag]
    as the value, [parseFlag] tests [rawValue === undefined] only, and the
    call returns [{port: ""}].  The same empty value after a space,
    [--port ""], counts as no value and throws, like the bare [--port]. *)
Theorem trailing_equals_is_accepted :
  dispatch "--port=" None = Some (Some "port", Some "")
  ∧ arglet (obj [("port", VStr "3000")]) ["--port="] default_options
    = Ok (obj [("port", VStr "")])
  ∧ arglet (obj [("port", VStr "3000")]) ["--port"; ""] default_options
    = Throw "--port requires a value"
  ∧ arglet (obj [("port", VStr "3000")]) ["--port"] default_options
    = Throw "--port requires a value".
Proof. split_and!; vm_compute; reflexivity. Qed.

(** ** The intermediate-node branch of [assignValueAtPath] *)

(** Called on its own, on a path that does not exist, the branch does
    run: the string at [a] is replaced by a fresh mapping. *)
Example replacement_outside_merge :
  replaces_intermediate (split_on "." "a.b") (obj [("a", VStr "s")]) = true
  ∧ assignValueAtPath (obj [("a", VStr "s")]) "a.b" (VBool true)
    = obj [("a", of_node (obj [("b", VBool true)]))].
Proof. split; vm_compute; reflexivity. Qed.

Lemma defined_path_no_replacement segments n :
  is_defined (resolve_from (of_node n) segments) = true →
  replaces_intermediate segments n = false.
Proof.
  revert n. induction segments as [|segment rest IH]; intros n Hdef; [done|].
  simpl. destruct (nonempty segment); [|done]. simpl.
  destruct rest as [|s2 rest]; [done|].
  destruct (defined_path_head _ _ _ Hdef) as (w & Hw & Hwdef).
  destruct (defined_path_inner _ _ _ Hwdef) as (k & m & ->).
  unfold get_key, of_node. rewrite Hw. simpl.
  by apply (IH (Node k m)).
Qed.

Lemma defined_path_prefixes v segments i key :
  is_defined (resolve_from v segments) = true →
  segments !! S i = Some key →
  ∃ k m, resolve_from v (take (S i) segments) = VObj k m ∧ is_Some (m !! key).
Proof.
  intros Hdef Hkey.
  rewrite <- (take_drop (S i) segments) in Hdef at 1.
  rewrite resolve_from_app in Hdef.
  rewrite (drop_S _ _ _ Hkey) in Hdef.
  destruct (resolve_from_defined_cons _ _ _ Hdef) as (k & m & w & -> & Hm & _).
  exists k, m. split; [done | by eexists].
Qed.

Lemma parseFlag_no_replacement opts result flagName rawValue :
  parseFlag_replaces opts result flagName rawValue = false.
Proof.
  unfold parseFlag_replaces. destruct flagName as [flagName|]; [|done].
  destruct (nonempty flagName); [|done]. simpl.
  destruct (hasConfigPath result (normalizedPath flagName)) eqn:Hex; [|done]. simpl.
  destruct (parsedValue _ _ _ _); [|done].
  by apply defined_path_no_replacement.
Qed.

Lemma run_no_replacement opts args result :
  run_replaces opts args result = false.
Proof.
  revert result. induction args as [|tok rest IH]; intros result; [done|].
  simpl. destruct (dispatch tok (head rest)) as [[flagName flagValue]|]; [|done].
  rewrite parseFlag_no_replacement. simpl.
  by destruct (parseFlag opts result flagName flagValue).
Qed.

(** C9.  On a path that [hasConfigPath] accepts, the loop of
    [assignValueAtPath] never takes the branch that replaces an
    intermediate node by a fresh mapping: every segment but the last
    resolves to an object that holds the next segment.  Since [parseFlag]
    assigns only after [hasConfigPath], no call of [arglet] takes the
    branch. *)
Theorem no_intermediate_replacement result path :
  hasConfigPath result path = true →
  replaces_intermediate (split_on "." path) result = false
  ∧ (∀ i key, split_on "." path !! S i = Some key →
       ∃ k m, resolve_from (of_node result) (take (S i) (split_on "." path)) = VObj k m
              ∧ is_Some (m !! key))
  ∧ (∀ opts args, run_replaces opts args (structuredClone result) = false).
Proof.
  intros Hex. rewrite hasConfigPath_resolve in Hex. split_and!.
  - by apply defined_path_no_replacement.
  - intros i key. by apply defined_path_prefixes.
  - intros opts args. apply run_no_replacement.
Qed.

Lemma no_intermediate_replacement_witness :
  replaces_intermediate (split_on "." "server.host")
    (obj [("server", of_node (obj [("host", VStr "localhost")]))]) = false.
Proof.
  exact (proj1 (no_intermediate_replacement
                  (obj [("server", of_node (obj [("host", VStr "localhost")]))])
                  "server.host" eq_refl)).
Defined.

(** ** Keys that store [undefined] *)




(** ** Running a token list twice

    The flags of a run are writes of fixed values at fixed paths.  Below
    an object the writes sort by the property they go through, and a write
    at a property itself makes what was there before irrelevant; this
    gives, by induction on the length of the paths, that a second run
    reproduces the result of the first. *)

Lemma argument_loop_run_flags opts args result :
  argument_loop opts args result = run_flags opts (flags_of args) result.
Proof.
  revert result. induction args as [|tok rest IH]; intros result; [done|].
  simpl. destruct (dispatch tok (head rest)) as [[flagName flagValue]|]; simpl.
  - destruct (parseFlag opts result flagName flagValue); simpl; [apply IH | done].
  - apply IH.
Qed.

Lemma bind_Ok {A B} (o : outcome A) (f : A → outcome B) b :
  bind o f = Ok b ↔ ∃ a, o = Ok a ∧ f a = Ok b.
Proof.
  destruct o as [a|msg]; simpl; [|by split; [|intros (? & ? & ?)]].
  split; [by exists a | by intros (? & [= ->] & ?)].
Qed.

Lemma run_writes_app ws1 ws2 w :
  run_writes (ws1 ++ ws2) w = bind (run_writes ws1 w) (run_writes ws2).
Proof.
  revert w. induction ws1 as [|[segments pv] ws1 IH]; intros w; [done|].
  simpl. destruct (act segments pv w); simpl; [apply IH | done].
Qed.

Lemma act_undefined segments pv : act segments pv VUndef = Ok VUndef.
Proof. by destruct segments. Qed.

Lemma act_defined segments pv w w' :
  steady pv → is_defined w = true → act segments pv w = Ok w' → is_defined w' = true.
Proof.
  intros [_ Hdef] Hw. destruct segments as [|key rest]; simpl.
  - rewrite Hw. apply Hdef.
  - destruct w as [| | | | |k m]; try (by intros [= <-]).
    destruct (m !! key) as [c|]; [|by intros [= <-]].
    destruct (act rest pv c); simpl; [by intros [= <-] | done].
Qed.

Lemma run_writes_undefined ws : run_writes ws VUndef = Ok VUndef.
Proof.
  induction ws as [|[segments pv] ws IH]; [done|].
  simpl. by rewrite act_undefined.
Qed.

Lemma run_writes_defined ws w w' :
  Forall (λ wr : write, steady wr.2) ws →
  is_defined w = true → run_writes ws w = Ok w' → is_defined w' = true.
Proof.
  intros Hws. revert w. induction Hws as [|[segments pv] ws Hpv _ IH]; intros w Hw.
  - by intros [= <-].
  - simpl. intros (u & Hu & Hrun)%bind_Ok.
    eapply IH; [|done]. by eapply act_defined.
Qed.

Lemma undefined_inv w : is_defined w = false → w = VUndef.
Proof. by destruct w. Qed.

(** A write at the root makes the run forget where it started. *)
Lemma run_writes_twice_root ws w w1 w2 :
  Forall (λ wr : write, steady wr.2) ws →
  Exists (λ wr : write, wr.1 = []) ws →
  run_writes ws w = Ok w1 → run_writes ws w1 = Ok w2 → w2 = w1.
Proof.
  intros Hsteady Hroot H1 H2.
  destruct (is_defined w) eqn:Hw.
  2:{ apply undefined_inv in Hw as ->.
      rewrite run_writes_undefined in H1. injection H1 as <-.
      rewrite run_writes_undefined in H2. by injection H2 as <-. }
  apply Exists_exists in Hroot as ([segments pv] & Hin & Hnil). simpl in Hnil. subst.
  apply list_elem_of_split in Hin as (ws1 & ws2 & ->).
  apply Forall_app in Hsteady as [Hs1 Hs2].
  apply Forall_cons in Hs2 as [Hpv Hs2]. simpl in Hpv.
  assert (is_defined w1 = true) as Hw1.
  { eapply run_writes_defined; [|exact Hw|exact H1].
    apply Forall_app. split; [done|]. by apply Forall_cons. }
  rewrite run_writes_app in H1, H2.
  apply bind_Ok in H1 as (u & Hu & H1). apply bind_Ok in H2 as (u' & Hu' & H2).
  simpl in H1, H2.
  rewrite (run_writes_defined _ _ _ Hs1 Hw Hu) in H1.
  rewrite (run_writes_defined _ _ _ Hs1 Hw1 Hu') in H2.
  apply bind_Ok in H1 as (v & Hv & H1). apply bind_Ok in H2 as (v' & Hv' & H2).
  destruct Hpv as [Hconst _]. rewrite (Hconst _ _ _ _ Hv' Hv) in H2.
  congruence.
Qed.

Lemma run_writes_not_obj ws w :
  (∀ k m, w ≠ VObj k m) →
  Forall (λ wr : write, wr.1 ≠ []) ws →
  run_writes ws w = Ok w.
Proof.
  intros Hw Hws. induction Hws as [|[segments pv] ws Hne _ IH]; [done|].
  simpl in Hne |- *. destruct segments as [|key rest]; [done|].
  assert (act (key :: rest) pv w = Ok w) as ->; [|done].
  simpl. destruct w; try done. by destruct (Hw k props0).
Qed.

(** Below a node, a run of writes that all descend is, key by key, the
    run of the writes below that key. *)
Lemma run_writes_below ws k m w1 :
  Forall (λ wr : write, wr.1 ≠ []) ws →
  run_writes ws (VObj k m) = Ok w1 →
  ∃ m1, w1 = VObj k m1 ∧
        ∀ x, match m !! x with
             | None => m1 !! x = None
             | Some c => ∃ c1, m1 !! x = Some c1 ∧ run_writes (below x ws) c = Ok c1
             end.
Proof.
  intros Hws. revert m. induction Hws as [|[segments pv] ws Hne _ IH]; intros m Hrun.
  - injection Hrun as <-. exists m. split; [done|]. intros x.
    destruct (m !! x) as [c|]; [by exists c | done].
  - simpl in Hne. destruct segments as [|key rest]; [done|].
    simpl in Hrun. destruct (m !! key) as [c|] eqn:Hkey.
    + apply bind_Ok in Hrun as (w' & Hact & Hrun).
      apply bind_Ok in Hact as (c' & Hc' & [= <-]).
      destruct (IH _ Hrun) as (m1 & -> & Hm1). exists m1. split; [done|].
      intros x. specialize (Hm1 x). simpl.
      destruct (decide (key = x)) as [->|Hx].
      * rewrite lookup_insert_eq in Hm1. rewrite Hkey.
        destruct Hm1 as (c1 & Hc1 & Hrun1). exists c1. split; [done|].
        simpl. by rewrite Hc'.
      * by rewrite lookup_insert_ne in Hm1.
    + destruct (IH _ Hrun) as (m1 & -> & Hm1). exists m1. split; [done|].
      intros x. specialize (Hm1 x). simpl.
      destruct (decide (key = x)) as [->|Hx]; [|done].
      by rewrite Hkey in Hm1 |- *.
Qed.

Lemma below_steady x ws :
  Forall (λ wr : write, steady wr.2) ws → Forall (λ wr : write, steady wr.2) (below x ws).
Proof.
  induction 1 as [|[segments pv] ws Hpv _ IH]; [done|].
  simpl. destruct segments as [|key rest]; [done|].
  case_decide; [by apply Forall_cons | done].
Qed.

Lemma below_length x n ws :
  Forall (λ wr : write, length wr.1 ≤ S n) ws →
  Forall (λ wr : write, length wr.1 ≤ n) (below x ws).
Proof.
  induction 1 as [|[segments pv] ws Hlen _ IH]; [done|].
  simpl. destruct segments as [|key rest]; [done|].
  case_decide; [|done]. apply Forall_cons. split; [simpl in *; lia | done].
Qed.

(** Running a list of steady writes a second time, from the tree the first
    run produced, reproduces that tree whenever it returns. *)
Lemma run_writes_twice n ws w w1 w2 :
  Forall (λ wr : write, steady wr.2) ws →
  Forall (λ wr : write, length wr.1 ≤ n) ws →
  run_writes ws w = Ok w1 → run_writes ws w1 = Ok w2 → w2 = w1.
Proof.
  revert ws w w1 w2. induction n as [|n IH]; intros ws w w1 w2 Hsteady Hlen H1 H2.
  - destruct ws as [|wr ws]; [by simplify_eq/=|].
    eapply run_writes_twice_root; [done| |done..].
    apply Exists_cons. left. apply Forall_cons in Hlen as [Hwr _].
    destruct (wr.1); [done | simpl in Hwr; lia].
  - destruct (decide (Exists (λ wr : write, wr.1 = []) ws)) as [Hroot|Hroot].
    { by eapply run_writes_twice_root. }
    apply not_Exists_Forall in Hroot; [|intros wr; apply _].
    destruct w as [| | | | |k m];
      try (rewrite run_writes_not_obj in H1 by done; injection H1 as <-;
           rewrite run_writes_not_obj in H2 by done; by injection H2 as <-).
    destruct (run_writes_below _ _ _ _ Hroot H1) as (m1 & -> & Hm1).
    destruct (run_writes_below _ _ _ _ Hroot H2) as (m2 & -> & Hm2).
    f_equal. apply map_eq. intros x.
    specialize (Hm1 x). specialize (Hm2 x).
    destruct (m !! x) as [c|].
    + destruct Hm1 as (c1 & Hc1 & Hrun1). rewrite Hc1 in Hm2 |- *.
      destruct Hm2 as (c2 & -> & Hrun2). f_equal.
      eapply (IH (below x ws)); [by apply below_steady | by apply below_length | done..].
    + rewrite Hm1 in Hm2 |- *. done.
Qed.

(** *** From flags to writes *)

Lemma parsedValue_steady opts flagName rawValue :
  steady (parsedValue opts flagName rawValue).
Proof.
  unfold steady, parsedValue. split.
  - intros e1 e2 v1 v2.
    destruct (isDisabledFlag flagName).
    { destruct (not_boolean e1), (not_boolean e2); congruence. }
    destruct rawValue as [raw|].
    { destruct (includes _ raw); congruence. }
    destruct (not_boolean e1), (not_boolean e2); congruence.
  - intros e v.
    destruct (isDisabledFlag flagName).
    { destruct (not_boolean e); by intros [= <-]. }
    destruct rawValue as [raw|].
    { destruct (includes _ raw); by intros [= <-]. }
    destruct (not_boolean e); by intros [= <-].
Qed.

Lemma act_out_of_reach segments pv w :
  is_defined (resolve_from w segments) = false → act segments pv w = Ok w.
Proof.
  revert w. induction segments as [|key rest IH]; intros w H; simpl in *.
  - by rewrite H.
  - destruct w as [| | | | |k m]; try done.
    change (foldl resolve_step (resolve_step (VObj k m) key) rest)
      with (resolve_from (resolve_step (VObj k m) key) rest) in H.
    rewrite resolve_step_obj in H.
    destruct (m !! key) as [c|] eqn:Hkey; [|done]. simpl in H.
    rewrite (IH c H). simpl. by rewrite insert_id.
Qed.

Lemma act_cons key rest pv k m :
  act (key :: rest) pv (VObj k m)
  = match m !! key with
    | Some c => bind (act rest pv c) (λ c', Ok (VObj k (<[key := c']> m)))
    | None => Ok (VObj k m)
    end.
Proof. done. Qed.

Lemma act_assign segments pv n :
  segments ≠ [] →
  Forall (λ s, nonempty s = true) segments →
  is_defined (resolve_from (of_node n) segments) = true →
  act segments pv (of_node n)
  = bind (pv (resolve_from (of_node n) segments))
         (λ v, Ok (of_node (assign_loop segments v n))).
Proof.
  revert n. induction segments as [|key rest IH]; intros n Hnil Hne Hdef; [done|].
  apply Forall_cons in Hne as [Hkey Hrest].
  destruct (defined_path_head _ _ _ Hdef) as (w & Hw & Hwdef).
  rewrite resolve_from_cons. unfold of_node at 1 2.
  rewrite resolve_step_obj, act_cons, Hw.
  destruct rest as [|s2 rest].
  - rewrite assign_loop_last_fun by done.
    simpl in Hwdef |- *. rewrite Hwdef.
    by destruct (pv w).
  - destruct (defined_path_inner _ _ _ Hwdef) as (k & m & ->).
    change (VObj k m) with (of_node (Node k m)).
    rewrite (IH (Node k m)) by done.
    simpl default.
    destruct (pv (resolve_from (of_node (Node k m)) (s2 :: rest))) as [v|msg]; [|done].
    cbn [bind]. by rewrite (assign_loop_descend _ _ _ _ _ k m).
Qed.

(** A live flag is its write. *)
Lemma parseFlag_act opts result flag :
  live flag = true →
  bind (parseFlag opts result flag.1 flag.2) (λ r, Ok (of_node r))
  = act (write_of opts flag).1 (write_of opts flag).2 (of_node result).
Proof.
  destruct flag as [[flagName|] rawValue]; [|done].
  intros [Hne Hseg]%andb_true_iff. cbn [fst snd write_of].
  destruct (hasConfigPath result (normalizedPath flagName)) eqn:Hex.
  - rewrite parseFlag_known by done.
    rewrite hasConfigPath_resolve in Hex.
    rewrite act_assign;
      [| apply split_on_not_nil | by apply no_empty_segment_Forall | done].
    unfold resolveValueAtPath, assignValueAtPath.
    change (foldl resolve_step) with resolve_from.
    by destruct (parsedValue _ _ _ _).
  - rewrite parseFlag_unknown by done. simpl.
    rewrite act_out_of_reach; [done|]. by rewrite hasConfigPath_resolve in Hex.
Qed.

(** A flag that is not live returns the working copy as it is, or
    throws. *)
Lemma parseFlag_dead opts result flag result' :
  live flag = false →
  parseFlag opts result flag.1 flag.2 = Ok result' → result' = result.
Proof.
  destruct flag as [[flagName|] rawValue]; simpl; [|by intros _ [= <-]].
  intros Hlive. unfold parseFlag.
  destruct (nonempty flagName); simpl in *; [|by intros [= <-]].
  destruct (hasConfigPath result (normalizedPath flagName)) eqn:Hex; simpl;
    [|by intros [= <-]].
  destruct (parsedValue _ _ _ _) as [v|msg]; simpl; [|done].
  intros [= <-]. by apply assignValueAtPath_aborts.
Qed.

Lemma run_writes_cons (wr : write) ws w :
  run_writes (wr :: ws) w = bind (act wr.1 wr.2 w) (run_writes ws).
Proof. by destruct wr. Qed.

Lemma run_flags_writes opts flags result result' :
  run_flags opts flags result = Ok result' →
  run_writes (write_of opts <$> filter (λ f, live f = true) flags) (of_node result)
  = Ok (of_node result').
Proof.
  revert result. induction flags as [|flag flags IH]; intros result.
  - by intros [= <-].
  - destruct flag as [flagName flagValue]. cbn [run_flags].
    intros (r & Hr & Hrun)%bind_Ok.
    rewrite filter_cons.
    destruct (decide (live (flagName, flagValue) = true)) as [Hlive|Hlive].
    + rewrite fmap_cons, run_writes_cons.
      rewrite <- (parseFlag_act opts result _ Hlive). cbn [fst snd].
      rewrite Hr. cbn [bind]. by apply IH.
    + apply not_true_is_false in Hlive.
      pose proof (parseFlag_dead opts result (flagName, flagValue) r Hlive Hr) as ->.
      by apply IH.
Qed.

Lemma of_node_inj n1 n2 : of_node n1 = of_node n2 → n1 = n2.
Proof. destruct n1, n2. unfold of_node. simpl. congruence. Qed.

Lemma run_flags_twice opts flags result r1 r2 :
  run_flags opts flags result = Ok r1 →
  run_flags opts flags r1 = Ok r2 →
  r2 = r1.
Proof.
  intros H1%run_flags_writes H2%run_flags_writes.
  apply of_node_inj.
  set (ws := write_of opts <$> filter (λ f, live f = true) flags) in *.
  eapply (run_writes_twice (max_list (length ∘ fst <$> ws)) ws); [| |done..].
  - apply Forall_fmap, Forall_forall.
    intros [[flagName|] rawValue] [Hlive _]%list_elem_of_filter; [|done].
    apply parsedValue_steady.
  - apply Forall_forall. intros wr Hin.
    apply max_list_elem_of_le.
    apply list_elem_of_fmap. by exists wr.
Qed.

Lemma parseFlag_carries_value opts result flag :
  carries_value flag = true →
  ∃ result', parseFlag opts result flag.1 flag.2 = Ok result'.
Proof.
  destruct flag as [[flagName|] [raw|]]; simpl; intros H; try (by eexists).
  - apply negb_true_iff in H. unfold parseFlag.
    destruct (nonempty flagName); simpl; [|by eexists].
    destruct (hasConfigPath _ _); simpl; [|by eexists].
    rewrite parsedValue_raw by done. by eexists.
  - apply negb_true_iff in H. unfold parseFlag. rewrite H. by eexists.
Qed.

Lemma run_flags_carries_value opts flags result :
  forallb carries_value flags = true →
  ∃ result', run_flags opts flags result = Ok result'.
Proof.
  revert result. induction flags as [|flag flags IH]; intros result; [by eexists|].
  simpl. intros [Hflag Hrest]%andb_true_iff.
  destruct (parseFlag_carries_value opts result flag Hflag) as (r & Hr).
  destruct flag as [flagName flagValue]. simpl in Hr. rewrite Hr. simpl.
  by apply IH.
Qed.

(** ** Idempotence of the merge *)

(** C8, as stated, fails: with schema [{v: false}] and tokens
    [["--v", "--v=x"]] the first merge returns [{v: "x"}], and the second
    merge throws, since the bare [--v] now meets a string. *)
Lemma idempotence_unrestricted_fails :
  arglet (obj [("v", VBool false)]) ["--v"; "--v=x"] default_options
  = Ok (obj [("v", VStr "x")])
  ∧ arglet (obj [("v", VStr "x")]) ["--v"; "--v=x"] default_options
    = Throw "--v requires a value"
  ∧ ¬ idempotence_unrestricted.
Proof.
  split_and!; [by vm_compute..|].
  intros H.
  specialize (H default_options (obj [("v", VBool false)]) ["--v"; "--v=x"]
                (obj [("v", VStr "x")])).
  vm_compute in H. specialize (H eq_refl). discriminate.
Qed.

(** C8 (amended).  For a schema [S] that is a tree of plain data, and
    flags that name own data properties: when [merge(S,T)] returns [R], a
    second merge of [T] into [R] that returns, returns [R] again; and it
    does return when every flag of [T] carries a value and is not a
    negation.  (A second merge can throw where the first did not: a bare
    or negated flag of [T] may meet a value that a later flag of [T] has
    made a non-boolean.  Beyond trees and own data the statement fails:
    [second_merge_meets_a_shared_object],
    [second_merge_meets_an_array_length].) *)
Theorem merge_twice opts S T R :
  arglet S T opts = Ok R →
  (∀ R', arglet R T opts = Ok R' → R' = R)
  ∧ (forallb carries_value (flags_of T) = true → arglet R T opts = Ok R).
Proof.
  unfold arglet, structuredClone. rewrite !argument_loop_run_flags.
  intros H1.
  assert (∀ R', run_flags opts (flags_of T) R = Ok R' → R' = R) as Hsame
    by (intros R' H2; by eapply run_flags_twice).
  split; [done|].
  intros Hval. destruct (run_flags_carries_value opts _ R Hval) as (R' & HR').
  by rewrite HR', (Hsame R' HR').
Qed.

Lemma merge_twice_witness :
  arglet (obj [("name", VStr "b")]) ["--name=a"; "--name=b"] default_options
  = Ok (obj [("name", VStr "b")]).
Proof.
  exact (proj2 (merge_twice default_options (obj [("name", VStr "")])
                  ["--name=a"; "--name=b"] (obj [("name", VStr "b")]) eq_refl)
               eq_refl).
Defined.

(** * The schema object is not written to

    Every write of the call goes to an object the call has allocated:
    [structuredClone] builds the working copy out of new objects, and the
    walk of [assignValueAtPath] starts at the working copy and follows
    references stored in new objects, which lead to new objects. *)

Section frame.
Import Heap.

(** The store at the time of the call. *)
Variable h0 : store.

Lemma working_start : working h0 h0.
Proof.
  split; [done|]. intros l o k v Hl Ho. unfold new_loc in Hl. congruence.
Qed.

Lemma fresh_is_new h : h0 ⊆ h → new_loc h0 (fresh (dom h)).
Proof.
  intros Hsub. unfold new_loc.
  destruct (h0 !! fresh (dom h)) as [o|] eqn:E; [|done].
  eapply lookup_weaken in E; [|done].
  destruct (is_fresh (dom h)). apply elem_of_dom. by eexists.
Qed.

Lemma working_alloc h o :
  working h0 h →
  (∀ k v, oprops o !! k = Some v → new_value h0 v) →
  working h0 (<[fresh (dom h) := o]> h).
Proof.
  intros [Hsub Hnew] Ho. split.
  - etrans; [done|]. apply insert_subseteq.
    apply not_elem_of_dom, is_fresh.
  - intros l o' k v Hl. rewrite lookup_insert.
    case_decide; [intros [= <-]; by apply Ho | by apply Hnew].
Qed.

Lemma working_store_key h l key v :
  working h0 h → new_loc h0 l → new_value h0 v → working h0 (store_key l key v h).
Proof.
  intros [Hsub Hnew] Hl Hv. unfold store_key.
  destruct (h !! l) as [o|] eqn:Ho; [|done]. split.
  - apply map_subseteq_spec. intros i x Hi.
    rewrite lookup_insert_ne; [by eapply lookup_weaken|].
    intros <-. unfold new_loc in Hl. congruence.
  - intros l' o' k w Hl'.
    destruct (decide (l = l')) as [<-|Hne].
    + rewrite lookup_insert_eq. intros [= <-]. simpl.
      destruct (decide (key = k)) as [<-|Hk].
      * rewrite lookup_insert_eq. by intros [= <-].
      * rewrite lookup_insert_ne by done. by apply (Hnew l o).
    + rewrite lookup_insert_ne by done. by apply Hnew.
Qed.

Lemma foldl_option_inv {S A} (f : option S → A → option S) (P : S → Prop) l s s' :
  (∀ a, f None a = None) →
  (∀ s a s', P s → f (Some s) a = Some s' → P s') →
  P s → foldl f (Some s) l = Some s' → P s'.
Proof.
  intros Hnone Hstep. revert s. induction l as [|a l IH]; intros s Hs; simpl.
  - by intros [= <-].
  - destruct (f (Some s) a) as [s1|] eqn:E.
    + by apply IH, (Hstep s a).
    + assert (foldl f None l = None) as ->; [|done].
      clear IH. induction l as [|b l IH]; [done|]. simpl. by rewrite Hnone.
Qed.

(** The copy is made of new objects. *)
Lemma clone_object_working fuel l h seen l' h' seen' :
  working h0 h → new_range h0 seen →
  clone_object fuel l h seen = Some (l', h', seen') →
  working h0 h' ∧ new_range h0 seen' ∧ new_loc h0 l'.
Proof.
  revert l h seen l' h' seen'.
  induction fuel as [|fuel IH]; intros l h seen l' h' seen' Hw Hseen; simpl.
  - destruct (seen !! l) as [b|] eqn:Hl; [|done].
    intros [= <- <- <-]. split_and!; [done..|by eapply Hseen].
  - destruct (seen !! l) as [b|] eqn:Hl.
    { intros [= <- <- <-]. split_and!; [done..|by eapply Hseen]. }
    destruct (h !! l) as [o|] eqn:Ho; [|done].
    match goal with
    | |- match foldl ?f ?init ?kvs with _ => _ end = _ → _ =>
        destruct (foldl f init kvs) as [[h2 seen2]|] eqn:Hfold; [|done]
    end.
    intros [= <- <- <-].
    assert (new_loc h0 (fresh (dom h))) as Hfresh by (destruct Hw; by apply fresh_is_new).
    cut (working h0 h2 ∧ new_range h0 seen2); [intros [? ?]; by split_and!|].
    revert Hfold.
    apply (foldl_option_inv _ (λ st, working h0 st.1 ∧ new_range h0 st.2)).
    + done.
    + intros [h3 seen3] [key v] [h4 seen4] [Hw3 Hs3]; simpl.
      destruct v as [| | | | |l2];
        try (intros [= <- <-]; split; [by apply working_store_key | done]).
      destruct (clone_object fuel l2 h3 seen3) as [[[l2' h5] seen5]|] eqn:Hc; [|done].
      intros [= <- <-].
      destruct (IH _ _ _ _ _ _ Hw3 Hs3 Hc) as (Hw5 & Hs5 & Hl2').
      split; [by apply working_store_key | done].
    + simpl. split.
      * apply working_alloc; [done|]. intros k v. simpl. by rewrite lookup_empty.
      * intros a b. rewrite lookup_insert. case_decide; [by intros [= <-] | by apply Hseen].
Qed.

Lemma structuredClone_working data h :
  working h0 h →
  working h0 (structuredClone data h).2 ∧
  ∀ result, (structuredClone data h).1 = Ok result → new_loc h0 result.
Proof.
  intros Hw. unfold structuredClone.
  destruct (clone_object _ _ _ _) as [[[l' h'] seen']|] eqn:Hc; simpl; [|done].
  destruct (clone_object_working _ _ _ _ _ _ _ Hw (λ a b, ltac:(by rewrite lookup_empty)) Hc)
    as (? & ? & ?).
  split; [done | by intros ? [= <-]].
Qed.

Lemma read_new h l key child :
  working h0 h → new_loc h0 l → read h l key = HRef child → new_loc h0 child.
Proof.
  intros [_ Hnew] Hl. unfold read.
  destruct (h !! l) as [o|] eqn:Ho; [|done].
  destruct (oprops o !! key) as [v|] eqn:Hv; [|done].
  simpl. intros ->. by apply (Hnew l o key (HRef child)).
Qed.

(** The walk of [assignValueAtPath] stays inside the new objects. *)
Lemma assign_loop_working segments v currentNode h :
  working h0 h → new_loc h0 currentNode → new_value h0 v →
  working h0 (assign_loop segments v currentNode h).2.
Proof.
  revert currentNode h.
  induction segments as [|segment rest IH]; intros cur h Hw Hcur Hv; [done|].
  simpl. destruct (nonempty segment); [|done]. simpl.
  destruct rest as [|s2 rest].
  { by apply working_store_key. }
  unfold bindM at 1. simpl.
  destruct (read h cur segment) as [| | | | |child] eqn:Hread;
    try (unfold bindM; simpl;
         apply IH;
         [ apply working_store_key; [|done|];
           [ apply working_alloc; [done|]; intros k w; simpl; by rewrite lookup_empty
           | destruct Hw; by apply fresh_is_new ]
         | destruct Hw; by apply fresh_is_new
         | done ]).
  apply IH; [done | by eapply read_new | done].
Qed.

Lemma parsedValue_working opts flagName rawValue existing h :
  working h0 h →
  working h0 (parsedValue opts flagName rawValue existing h).2 ∧
  ∀ v, (parsedValue opts flagName rawValue existing h).1 = Ok v → new_value h0 v.
Proof.
  intros Hw. unfold parsedValue.
  destruct (isDisabledFlag flagName).
  { destruct (not_boolean existing); simpl; (split; [done|]); [done | by intros ? [= <-]]. }
  destruct rawValue as [raw|].
  2:{ destruct (not_boolean existing); simpl; (split; [done|]); [done | by intros ? [= <-]]. }
  destruct (includes _ raw); simpl; [|split; [done | by intros ? [= <-]]].
  split.
  - apply working_alloc; [done|]. intros k v. simpl. intros Hk.
    apply elem_of_list_to_map_2, elem_of_lookup_imap in Hk as (i & s & [= _ ->] & _).
    done.
  - intros v [= <-]. destruct Hw. by apply fresh_is_new.
Qed.

Lemma parseFlag_working opts result flagName rawValue h :
  working h0 h → new_loc h0 result →
  working h0 (parseFlag opts result flagName rawValue h).2.
Proof.
  intros Hw Hres. unfold parseFlag.
  destruct flagName as [flagName|]; [|done].
  destruct (nonempty flagName); [|done]. simpl.
  unfold bindM at 1. simpl.
  destruct (hasConfigPath h result (normalizedPath flagName)); [|done]. simpl.
  unfold bindM.
  destruct (parsedValue_working opts flagName rawValue
              (resolveValueAtPath h result (normalizedPath flagName)) h Hw) as [Hw' Hv].
  destruct (parsedValue _ _ _ _ h) as [[v|msg] h']; simpl in *; [|done].
  apply assign_loop_working; [done..|by apply Hv].
Qed.

Lemma argument_loop_working opts args result h :
  working h0 h → new_loc h0 result →
  working h0 (argument_loop opts args result h).2.
Proof.
  revert h. induction args as [|tok rest IH]; intros h Hw Hres; [done|].
  simpl. destruct (dispatch tok (head rest)) as [[flagName flagValue]|]; [|by apply IH].
  unfold bindM.
  pose proof (parseFlag_working opts result flagName flagValue h Hw Hres) as Hw'.
  destruct (parseFlag opts result flagName flagValue h) as [[[]|msg] h']; simpl in *;
    [by apply IH | done].
Qed.

Lemma arglet_working data args opts :
  working h0 (Heap.arglet data args opts h0).2.
Proof.
  unfold Heap.arglet, bindM.
  destruct (structuredClone_working data h0 working_start) as [Hw Hres].
  destruct (structuredClone data h0) as [[result|msg] h1]; simpl in *; [|done].
  pose proof (argument_loop_working opts args result h1 Hw (Hres _ eq_refl)) as Hw'.
  by destruct (argument_loop opts args result h1) as [[[]|msg] h2].
Qed.
End frame.

Lemma closed_allocated (h : Heap.store) l o k v :
  Heap.closed h = true → h !! l = Some o → Heap.oprops o !! k = Some v →
  Heap.allocated h v = true.
Proof.
  unfold Heap.closed. rewrite forallb_forall. intros Hc Hl Hk.
  specialize (Hc (l, o)). simpl in Hc. rewrite forallb_forall in Hc.
  apply (Hc ltac:(by apply list_elem_of_In, elem_of_map_to_list) (k, v)).
  by apply list_elem_of_In, elem_of_map_to_list.
Qed.

Section clone_returns.
Import Heap.

Variable h0 : store.
Hypothesis h0_closed : closed h0 = true.

Lemma foldl_option_total {S A} (f : option S → A → option S)
    (P : S → Prop) (Q : A → Prop) l s :
  (∀ s a, P s → Q a → ∃ s', f (Some s) a = Some s' ∧ P s') →
  Forall Q l → P s → ∃ s', foldl f (Some s) l = Some s' ∧ P s'.
Proof.
  intros Hstep Hl. revert s. induction Hl as [|a l Ha _ IH]; intros s Hs; simpl.
  - by exists s.
  - destruct (Hstep s a Hs Ha) as (s1 & -> & Hs1). by apply IH.
Qed.

(** With one unit of fuel per object still to copy, the copy of an
    object of the caller is made. *)
Lemma clone_object_total fuel l h seen :
  working h0 h → new_range h0 seen →
  dom seen ⊆ dom h0 → is_Some (h0 !! l) →
  size (pending h0 seen) ≤ fuel →
  ∃ l' h' seen',
    clone_object fuel l h seen = Some (l', h', seen') ∧
    dom seen ⊆ dom seen' ∧ dom seen' ⊆ dom h0.
Proof.
  revert l h seen.
  unfold pending.
  induction fuel as [|fuel IH]; intros l h seen Hw Hnew Hdom [o Ho] Hfuel.
  - simpl. destruct (seen !! l) as [b|] eqn:Hl; [by eexists _, _, _|].
    assert (l ∈ dom h0 ∖ dom seen) as Hin.
    { apply elem_of_difference. split; [by apply elem_of_dom | by apply not_elem_of_dom]. }
    assert (dom h0 ∖ dom seen ≡ ∅) as Hempty by (apply size_empty_iff; lia).
    set_solver.
  - simpl. destruct (seen !! l) as [b|] eqn:Hl; [by eexists _, _, _|].
    assert (l ∈ dom h0 ∖ dom seen) as Hin.
    { apply elem_of_difference. split; [by apply elem_of_dom | by apply not_elem_of_dom]. }
    destruct Hw as [Hsub Hrefs].
    rewrite (lookup_weaken _ _ _ _ Ho Hsub).
    set (l' := fresh (dom h)). set (seen1 := <[l := l']> seen).
    assert (new_loc h0 l') as Hl' by (by apply fresh_is_new).
    assert (size (dom h0 ∖ dom seen1) ≤ fuel) as Hfuel1.
    { assert (dom h0 ∖ dom seen1 ⊂ dom h0 ∖ dom seen) as Hlt%subset_size; [|lia].
      unfold seen1. rewrite dom_insert_L.
      split; [set_solver|]. intros Hsubset. specialize (Hsubset l Hin). set_solver. }
    match goal with
    | |- ∃ _ _ _, match foldl ?f ?init ?kvs with _ => _ end = _ ∧ _ =>
        destruct (foldl_option_total f
                    (λ st, working h0 st.1 ∧ new_range h0 st.2 ∧
                           dom seen1 ⊆ dom st.2 ∧ dom st.2 ⊆ dom h0)
                    (λ kv, allocated h0 kv.2 = true) kvs
                    (<[l' := Object (okind o) ∅]> h, seen1))
          as ([h2 seen2] & -> & Hw2 & Hn2 & Hd2 & Hd2')
    end.
    + intros [h3 seen3] [key v] (Hw3 & Hn3 & Hd3 & Hd3') Hv. simpl in *.
      destruct v as [| | | | |l2];
        try (eexists; split; [done|]; split_and!; [by apply working_store_key|done..]).
      apply bool_decide_eq_true in Hv.
      destruct (IH l2 h3 seen3 Hw3 Hn3 Hd3' Hv) as (l2' & h4 & seen4 & Hc & Hd4 & Hd4').
      { etrans; [|exact Hfuel1]. apply subseteq_size. set_solver. }
      rewrite Hc.
      destruct (clone_object_working h0 _ _ _ _ _ _ _ Hw3 Hn3 Hc) as (Hw4 & Hn4 & Hl2').
      eexists. split; [done|]. simpl.
      split_and!; [by apply working_store_key | done | set_solver | done].
    + apply Forall_forall. intros [key v] Hkv%elem_of_map_to_list. simpl.
      by eapply closed_allocated.
    + simpl. split_and!.
      * apply working_alloc; [by split|]. intros k v. simpl. by rewrite lookup_empty.
      * intros a b. unfold seen1. rewrite lookup_insert.
        case_decide; [by intros [= <-] | by apply Hnew].
      * done.
      * unfold seen1. rewrite dom_insert_L.
        assert (l ∈ dom h0) by (by apply elem_of_dom). set_solver.
    + eexists _, _, _. split; [done|]. simpl in *.
      split; [|done]. etrans; [|exact Hd2]. unfold seen1. rewrite dom_insert_L. set_solver.
Qed.
End clone_returns.

(** On a store without dangling references, [structuredClone] of an
    allocated object returns. *)
Lemma structuredClone_returns data h :
  Heap.closed h = true → Heap.allocated h (Heap.HRef data) = true →
  ∃ result, (Heap.structuredClone data h).1 = Ok result.
Proof.
  intros Hc Hdata. simpl in Hdata. apply bool_decide_eq_true in Hdata.
  unfold Heap.structuredClone.
  destruct (clone_object_total h Hc (S (size h)) data h ∅) as (l' & h' & seen' & -> & _);
    [apply working_start | intros a b; by rewrite lookup_empty | set_solver | done | |by eexists].
  unfold Heap.pending. rewrite dom_empty_L, difference_empty_L, size_dom. lia.
Qed.

Section deep_equality.
Import Heap.

(** What a value unfolds to depends on the objects it reaches only. *)
Lemma snapshot_frame h h' depth v :
  closed h = true → h ⊆ h' → allocated h v = true →
  snapshot depth h' v = snapshot depth h v.
Proof.
  intros Hc Hsub. revert v. induction depth as [|depth IH]; intros v Hv.
  - by destruct v.
  - destruct v as [| | | | |l]; try done. simpl in *.
    apply bool_decide_eq_true in Hv as [o Ho].
    rewrite Ho, (lookup_weaken _ _ _ _ Ho Hsub). f_equal.
    apply map_fmap_ext. intros k w Hk. apply IH. by eapply closed_allocated.
Qed.
End deep_equality.

(** X23.  In the store layer, where a path follows own data properties:
    whatever the call does (return or throw), the store it leaves contains
    every object of the caller's store as it was: the writes of the call
    go to objects allocated by the call.  Hence the schema unfolds to the
    same tree before and after the call, and the object returned is not an
    object of the caller.  (A flag through [__proto__] is outside:
    [flag_writes_to_Object_prototype].) *)
Theorem schema_not_mutated data args opts h :
  h ⊆ (Heap.arglet data args opts h).2
  ∧ (∀ result, (Heap.arglet data args opts h).1 = Ok result → h !! result = None)
  ∧ (Heap.closed h = true → Heap.allocated h (Heap.HRef data) = true →
     Heap.deep_equal (Heap.arglet data args opts h).2 (Heap.HRef data) h (Heap.HRef data)).
Proof.
  pose proof (arglet_working h data args opts) as [Hsub Hnew].
  split_and!; [done| |].
  - intros result. unfold Heap.arglet, Heap.bindM.
    destruct (structuredClone_working h data h (working_start h)) as [_ Hres].
    destruct (Heap.structuredClone data h) as [[r|msg] h1]; simpl in *; [|done].
    destruct (Heap.argument_loop opts args r h1) as [[[]|msg] h2]; simpl; [|done].
    intros [= <-]. by apply Hres.
  - intros Hc Hdata depth. by apply snapshot_frame.
Qed.

Lemma schema_not_mutated_witness :
  Heap.deep_equal
    (Heap.arglet 1%positive ["--verbose"; "--server.host=0.0.0.0"] default_options
       sample_store).2
    (Heap.HRef 1%positive) sample_store (Heap.HRef 1%positive).
Proof.
  exact (proj2 (proj2 (schema_not_mutated 1%positive
                         ["--verbose"; "--server.host=0.0.0.0"] default_options sample_store))
           eq_refl eq_refl).
Defined.

(** The run on [sample_store]: the working copy is made of the new objects
    [3] and [4], it unfolds to the tree the value layer computes, and the
    schema at [1] unfolds as before. *)
Example sample_run :
  let run := Heap.arglet 1%positive ["--verbose"; "--server.host=0.0.0.0"]
               default_options sample_store in
  run.1 = Ok 3%positive
  ∧ Ok (as_node (Heap.snapshot 2 run.2 (Heap.HRef 3%positive)))
    = arglet (as_node (Heap.snapshot 2 sample_store (Heap.HRef 1%positive)))
        ["--verbose"; "--server.host=0.0.0.0"] default_options
  ∧ Heap.snapshot 2 run.2 (Heap.HRef 1%positive)
    = of_node (obj [("verbose", VBool false);
                    ("server", of_node (obj [("host", VStr "localhost")]))]).
Proof. split_and!; vm_compute; reflexivity. Qed.

Example shared_run :
  let run := Heap.arglet 1%positive ["--a.c"] default_options shared_store in
  run.1 = Ok 3%positive
  ∧ Heap.snapshot 2 run.2 (Heap.HRef 3%positive)
    = of_node (obj [("a", of_node (obj [("c", VBool true)]));
                    ("b", of_node (obj [("c", VBool true)]))])
  ∧ Heap.snapshot 2 run.2 (Heap.HRef 1%positive)
    = of_node (obj [("a", of_node (obj [("c", VBool false)]));
                    ("b", of_node (obj [("c", VBool false)]))]).
Proof. split_and!; vm_compute; reflexivity. Qed.

(** ** Reading agrees between the layers

    On every store, shared objects and cycles included, resolving a path
    in the store and then unfolding is resolving the path in the
    unfolding. *)

Lemma snapshot_resolve_step depth (h : Heap.store) current key :
  Heap.snapshot depth h (Heap.resolve_step h current key)
  = resolve_step (Heap.snapshot (S depth) h current) key.
Proof.
  unfold Heap.resolve_step, Heap.holds_key, Heap.read.
  destruct current as [| | | | |l];
    try (destruct depth; by rewrite resolve_step_not_obj by (by intros)).
  cbn [Heap.snapshot]. destruct (h !! l) as [o|] eqn:Ho;
    [|destruct depth; by rewrite resolve_step_not_obj by (by intros)].
  rewrite resolve_step_obj, lookup_fmap.
  destruct (Heap.oprops o !! key); [done | by destruct depth].
Qed.

Lemma snapshot_resolve depth (h : Heap.store) current segments :
  Heap.snapshot depth h (foldl (Heap.resolve_step h) current segments)
  = resolve_from (Heap.snapshot (depth + length segments) h current) segments.
Proof.
  revert current. induction segments as [|key rest IH]; intros current.
  - by rewrite Nat.add_0_r.
  - cbn [foldl length]. rewrite IH, snapshot_resolve_step, resolve_from_cons.
    by rewrite Nat.add_succ_r.
Qed.

(** The existence test and the type test of [parseFlag] agree: on a store
    without dangling references the path exists in the store exactly when
    it exists in the unfolding of the working copy, and holds a boolean
    there exactly when it does in the unfolding. *)
Lemma heap_decisions_agree (h : Heap.store) result path :
  let tree := Heap.snapshot (S (length (split_on "." path))) h (Heap.HRef result) in
  Heap.snapshot 1 h (Heap.resolveValueAtPath h result path) = resolve_from tree (split_on "." path)
  ∧ Heap.not_boolean (Heap.resolveValueAtPath h result path)
    = not_boolean (resolve_from tree (split_on "." path)).
Proof.
  intros tree. unfold Heap.resolveValueAtPath.
  pose proof (snapshot_resolve 1 h (Heap.HRef result) (split_on "." path)) as H.
  change (1 + length (split_on "." path)) with (S (length (split_on "." path))) in H.
  split; [done|]. unfold tree. rewrite <- H.
  destruct (foldl _ _ _) as [| | | | |l]; try done.
  simpl. by destruct (h !! l).
Qed.

(** * The two layers agree on trees

    When the schema is a tree in the store of the caller, the call of the
    store layer and the call of the value layer throw alike, and the
    working copy the first returns is the tree the second returns. *)

Lemma tree_at_mono_F d h F F' v t :
  F ⊆ F' → Heap.tree_at d h F v t → Heap.tree_at d h F' v t.
Proof.
  intros HF. destruct d as [|d]; destruct v as [| | | | |l], t as [| | | | |k m];
    try done. simpl.
  intros (o & Fs & Ho & Hk & Hl & Hch & Hdisj). exists o, Fs. split_and!; try done.
  - set_solver.
  - intros key. specialize (Hch key).
    destruct (Heap.oprops o !! key), (m !! key), (Fs !! key); try done.
    destruct Hch as (? & ? & ?). split_and!; [done | set_solver | done].
Qed.

Lemma tree_at_frame d h h' F v t :
  (∀ l, l ∈ F → h' !! l = h !! l) → Heap.tree_at d h F v t → Heap.tree_at d h' F v t.
Proof.
  revert F v t. induction d as [|d IH]; intros F v t Hagree;
    destruct v as [| | | | |l], t as [| | | | |k m]; try done.
  simpl. intros (o & Fs & Ho & Hk & Hl & Hch & Hdisj). exists o, Fs.
  split_and!; try done.
  - by rewrite Hagree.
  - intros key. specialize (Hch key).
    destruct (Heap.oprops o !! key), (m !! key), (Fs !! key) as [Fk|]; try done.
    destruct Hch as (? & ? & ?). split_and!; [|done..].
    apply IH; [|done]. intros l' Hl'. apply Hagree. set_solver.
Qed.

Lemma tree_at_mono_d d h F v t : Heap.tree_at d h F v t → Heap.tree_at (S d) h F v t.
Proof.
  revert F v t. induction d as [|d IH]; intros F v t;
    destruct v as [| | | | |l], t as [| | | | |k m]; try done.
  intros (o & Fs & Ho & Hk & Hl & Hch & Hdisj). exists o, Fs.
  split_and!; try done.
  intros key. specialize (Hch key).
  destruct (Heap.oprops o !! key), (m !! key), (Fs !! key) as [Fk|]; try done.
  destruct Hch as (? & ? & ?). split_and!; [|done..]. by apply IH.
Qed.

Lemma tree_at_snapshot d h F v t : Heap.tree_at d h F v t → Heap.snapshot d h v = t.
Proof.
  revert F v t. induction d as [|d IH]; intros F v t;
    destruct v as [| | | | |l], t as [| | | | |k m]; try done;
    try (by simpl; intros ->).
  simpl. intros (o & Fs & Ho & Hk & Hl & Hch & Hdisj). rewrite Ho, Hk. f_equal.
  apply map_eq. intros key. rewrite lookup_fmap. specialize (Hch key).
  destruct (Heap.oprops o !! key), (m !! key), (Fs !! key) as [Fk|]; try done.
  destruct Hch as (Ht & _). simpl. f_equal. by eapply IH.
Qed.

Lemma tree_at_le d d' h F v t : d ≤ d' → Heap.tree_at d h F v t → Heap.tree_at d' h F v t.
Proof. induction 1; [done|]. intros. by apply tree_at_mono_d, IHle. Qed.

Lemma tree_at_undef d h F : Heap.tree_at d h F Heap.HUndef VUndef.
Proof. by destruct d. Qed.

Lemma tree_at_obj_inv d h F v k m :
  Heap.tree_at d h F v (VObj k m) →
  ∃ d' l o (Fs : gmap string (gset Heap.loc)),
    d = S d' ∧ v = Heap.HRef l ∧ h !! l = Some o ∧ Heap.okind o = k ∧ l ∈ F ∧
    (∀ key, match Heap.oprops o !! key, m !! key, Fs !! key with
            | Some v', Some t', Some Fk => Heap.tree_at d' h Fk v' t' ∧ Fk ⊆ F ∧ l ∉ Fk
            | None, None, None => True
            | _, _, _ => False
            end) ∧
    (∀ k1 k2 F1 F2, k1 ≠ k2 → Fs !! k1 = Some F1 → Fs !! k2 = Some F2 → F1 ## F2).
Proof.
  destruct d as [|d]; destruct v as [| | | | |l]; try done.
  intros (o & Fs & ? & ? & ? & ? & ?). by exists d, l, o, Fs.
Qed.

Lemma tree_at_ref_inv d h F l t :
  Heap.tree_at d h F (Heap.HRef l) t → ∃ k m, t = VObj k m.
Proof. destruct d, t; try done; by eexists _, _. Qed.

Lemma tree_is_defined d h F v t :
  Heap.tree_at d h F v t → Heap.is_defined v = is_defined t.
Proof. destruct d, v, t; done. Qed.

Lemma tree_not_boolean d h F v t :
  Heap.tree_at d h F v t → Heap.not_boolean v = not_boolean t.
Proof. destruct d, v, t; done. Qed.

Lemma tree_resolve_step d h F cur t key :
  Heap.tree_at d h F cur t →
  ∃ F', F' ⊆ F ∧ Heap.tree_at d h F' (Heap.resolve_step h cur key) (resolve_step t key).
Proof.
  intros Ht. destruct t as [| | | | |k m];
    try (exists ∅; split; [set_solver|];
         rewrite resolve_step_not_obj by (by intros);
         destruct d, cur; try done; apply tree_at_undef).
  destruct (tree_at_obj_inv _ _ _ _ _ _ Ht) as (d' & l & o & Fs & -> & -> & Ho & Hk & Hl & Hch & _).
  rewrite resolve_step_obj. unfold Heap.resolve_step, Heap.holds_key, Heap.read. rewrite Ho.
  specialize (Hch key).
  destruct (Heap.oprops o !! key) as [v'|], (m !! key) as [t'|], (Fs !! key) as [Fk|]; try done.
  - destruct Hch as (Ht' & HFk & _). exists Fk. split; [done|].
    rewrite bool_decide_eq_true_2 by (by eexists). simpl. by apply tree_at_mono_d.
  - exists ∅. split; [set_solver|].
    rewrite bool_decide_eq_false_2 by (by intros [? ?]). done.
Qed.

Lemma tree_resolve d h F cur t segments :
  Heap.tree_at d h F cur t →
  ∃ F', F' ⊆ F ∧
        Heap.tree_at d h F' (foldl (Heap.resolve_step h) cur segments) (resolve_from t segments).
Proof.
  revert F cur t. induction segments as [|key rest IH]; intros F cur t Ht.
  - by exists F.
  - destruct (tree_resolve_step _ _ _ _ _ key Ht) as (F1 & HF1 & Ht1).
    destruct (IH _ _ _ Ht1) as (F2 & HF2 & Ht2).
    exists F2. split; [set_solver | done].
Qed.

Lemma store_key_lookup l key v (h : Heap.store) o :
  h !! l = Some o →
  Heap.store_key l key v h !! l = Some (Heap.Object (Heap.okind o) (<[key := v]> (Heap.oprops o))).
Proof. intros Ho. unfold Heap.store_key. by rewrite Ho, lookup_insert_eq. Qed.

Lemma store_key_lookup_ne l l' key v (h : Heap.store) :
  l ≠ l' → Heap.store_key l key v h !! l' = h !! l'.
Proof.
  intros Hne. unfold Heap.store_key. destruct (h !! l); [|done]. by rewrite lookup_insert_ne.
Qed.

Lemma heap_assign_loop_last segment v cur (h : Heap.store) :
  nonempty segment = true →
  Heap.assign_loop [segment] v cur h = (Ok tt, Heap.store_key cur segment v h).
Proof. intros H. simpl. by rewrite H. Qed.

Lemma heap_assign_loop_descend segment s2 rest v cur (h : Heap.store) child :
  nonempty segment = true →
  Heap.read h cur segment = Heap.HRef child →
  Heap.assign_loop (segment :: s2 :: rest) v cur h
  = Heap.assign_loop (s2 :: rest) v child h.
Proof.
  intros H Hread.
  change (Heap.assign_loop (segment :: s2 :: rest) v cur h) with
    ((if negb (nonempty segment) then Heap.ret tt
      else Heap.bindM Heap.get_store (λ h,
             match Heap.read h cur segment with
             | Heap.HRef child => Heap.assign_loop (s2 :: rest) v child
             | _ => Heap.bindM (Heap.alloc (Heap.Object Plain ∅)) (λ child,
                      Heap.bindM (Heap.set_key cur segment (Heap.HRef child)) (λ _,
                        Heap.assign_loop (s2 :: rest) v child))
             end)) h).
  rewrite H. unfold Heap.bindM at 1. simpl. by rewrite Hread.
Qed.

(** Assigning at a path that exists: the store layer writes into one
    object of the tree, and the tree it leaves is the one the value layer
    rebuilds. *)
Lemma tree_assign segments :
  ∀ d h F root n dv Fv v tv,
    Heap.tree_at d h F (Heap.HRef root) (of_node n) →
    is_defined (resolve_from (of_node n) segments) = true →
    Heap.tree_at dv h Fv v tv → Fv ## F →
    Heap.tree_at (d + dv) (Heap.assign_loop segments v root h).2 (F ∪ Fv) (Heap.HRef root)
      (of_node (assign_loop segments tv n))
    ∧ (∀ l, l ∉ F → (Heap.assign_loop segments v root h).2 !! l = h !! l)
    ∧ (Heap.assign_loop segments v root h).1 = Ok tt.
Proof.
  induction segments as [|segment rest IH]; intros d h F root n dv Fv v tv Ht Hdef Hv Hdisj.
  { simpl. split_and!; [|done..]. apply (tree_at_le d); [lia|].
    eapply tree_at_mono_F; [|done]. set_solver. }
  destruct (nonempty segment) eqn:Hseg.
  2:{ simpl. rewrite Hseg. simpl. split_and!; [|done..]. apply (tree_at_le d); [lia|].
      eapply tree_at_mono_F; [|done]. set_solver. }
  destruct (tree_at_obj_inv _ _ _ _ _ _ Ht)
    as (d' & l & o & Fs & -> & [= <-] & Ho & Hk & Hl & Hch & HFs).
  destruct (defined_path_head _ _ _ Hdef) as (w & Hw & Hwdef).
  assert (∀ k0 Fk0, Fs !! k0 = Some Fk0 → Fk0 ⊆ F) as HsubF.
  { intros k0 Fk0 HFk0. specialize (Hch k0). rewrite HFk0 in Hch.
    destruct (Heap.oprops o !! k0), (props n !! k0); try done. by destruct Hch as (_ & ? & _). }
  destruct rest as [|s2 rest].
  - (* the last segment *)
    rewrite heap_assign_loop_last, assign_loop_last by done. cbn [fst snd].
    split_and!; [| |done].
    2:{ intros l Hl'. apply store_key_lookup_ne. set_solver. }
    exists (Heap.Object (Heap.okind o) (<[segment := v]> (Heap.oprops o))), (<[segment := Fv]> Fs).
    split_and!; [by apply store_key_lookup | done | set_solver | |].
    + intros key. cbn [Heap.oprops Heap.okind props kind of_node set_key].
      destruct (decide (key = segment)) as [->|Hne].
      * rewrite !lookup_insert_eq. split_and!; [|set_solver|set_solver].
        apply (tree_at_le dv); [lia|].
        eapply tree_at_frame; [|done]. intros l Hl'. apply store_key_lookup_ne. set_solver.
      * rewrite !lookup_insert_ne by done. specialize (Hch key).
        destruct (Heap.oprops o !! key), (props n !! key), (Fs !! key) as [Fk|]; try done.
        destruct Hch as (Ht' & HFk & HlFk). split_and!; [|set_solver|done].
        apply (tree_at_le d'); [lia|].
        eapply tree_at_frame; [|done]. intros l Hl'. apply store_key_lookup_ne. set_solver.
    + intros k1 k2 F1 F2 Hne
        [[<- <-]|[? H1]]%lookup_insert_Some [[<- <-]|[? H2]]%lookup_insert_Some.
      * done.
      * pose proof (HsubF _ _ H2). set_solver.
      * pose proof (HsubF _ _ H1). set_solver.
      * exact (HFs _ _ _ _ Hne H1 H2).
  - (* an inner segment *)
    destruct (defined_path_inner _ _ _ Hwdef) as (k & m & ->).
    pose proof (Hch segment) as Hseg'. rewrite Hw in Hseg'.
    destruct (Heap.oprops o !! segment) as [v'|] eqn:Hv', (Fs !! segment) as [Fk|] eqn:HFk; try done.
    destruct Hseg' as (Hchild & HFkF & HrootFk).
    destruct (tree_at_obj_inv _ _ _ _ _ _ Hchild) as (d'' & c & oc & Fsc & -> & -> & _).
    rewrite (heap_assign_loop_descend _ _ _ _ _ _ c) by (done || by unfold Heap.read; rewrite Ho, Hv').
    rewrite (assign_loop_descend _ _ _ _ _ k m) by done.
    destruct (IH (S d'') h Fk c (Node k m) dv Fv v tv Hchild Hwdef Hv ltac:(set_solver))
      as (Htree & Hframe & Hok).
    set (h' := (Heap.assign_loop (s2 :: rest) v c h).2) in *.
    split_and!; [| |done].
    2:{ intros l Hl'. apply Hframe. set_solver. }
    exists o, (<[segment := Fk ∪ Fv]> Fs).
    split_and!; [by rewrite Hframe | done | set_solver | |].
    + intros key. cbn [Heap.oprops Heap.okind props kind of_node set_key].
      destruct (decide (key = segment)) as [->|Hne].
      * rewrite Hv', !lookup_insert_eq.
        split_and!; [done | set_solver | set_solver].
      * rewrite !lookup_insert_ne by done. specialize (Hch key).
        destruct (Heap.oprops o !! key), (props n !! key), (Fs !! key) as [Fk'|] eqn:HFk'; try done.
        destruct Hch as (Ht' & HFk'F & HlFk'). split_and!; [|set_solver|done].
        apply (tree_at_le (S d'')); [lia|].
        eapply tree_at_frame; [|done]. intros l Hl'. apply Hframe.
        pose proof (HFs key segment Fk' Fk Hne HFk' HFk). set_solver.
    + intros k1 k2 F1 F2 Hne
        [[<- <-]|[? H1]]%lookup_insert_Some [[<- <-]|[? H2]]%lookup_insert_Some.
      * done.
      * pose proof (HsubF _ _ H2). pose proof (HFs k2 segment F2 Fk (not_eq_sym Hne) H2 HFk).
        set_solver.
      * pose proof (HsubF _ _ H1). pose proof (HFs k1 segment F1 Fk Hne H1 HFk).
        set_solver.
      * exact (HFs _ _ _ _ Hne H1 H2).
Qed.

Lemma indexed_fmap {A B} (f : A → B) (l : list A) :
  list_to_map (imap (λ i s, (pretty i, f s)) l)
  =@{gmap string B} f <$> list_to_map (imap (λ i s, (pretty i, s)) l).
Proof.
  rewrite <- list_to_map_fmap, fmap_imap. f_equal.
Qed.

Lemma js_array_fmap (pieces : list string) :
  js_array (VStr <$> pieces)
  = VObj Array (VStr <$> list_to_map (imap (λ i s, (pretty i, s)) pieces)).
Proof. unfold js_array. by rewrite imap_fmap, <- indexed_fmap. Qed.

Lemma store_key_dom l key v (h : Heap.store) : dom (Heap.store_key l key v h) = dom h.
Proof.
  unfold Heap.store_key. destruct (h !! l) as [o|] eqn:Ho; [|done].
  rewrite dom_insert_L. assert (l ∈ dom h) by (apply elem_of_dom; by eexists). set_solver.
Qed.

Lemma heap_assign_loop_dom segments v cur (h : Heap.store) :
  dom h ⊆ dom (Heap.assign_loop segments v cur h).2.
Proof.
  revert cur h. induction segments as [|segment rest IH]; intros cur h; [done|].
  simpl. destruct (nonempty segment); [|done]. simpl.
  destruct rest as [|s2 rest].
  { simpl. by rewrite store_key_dom. }
  unfold Heap.bindM at 1. simpl.
  destruct (Heap.read h cur segment); try apply IH;
    (unfold Heap.bindM; simpl; etrans; [|apply IH]; rewrite store_key_dom, dom_insert_L; set_solver).
Qed.

Lemma tree_parsedValue opts flagName rawValue eh ev (h : Heap.store) :
  Heap.not_boolean eh = not_boolean ev →
  match Heap.parsedValue opts flagName rawValue eh h,
        parsedValue opts flagName rawValue ev with
  | (Throw m, h'), Throw m' => m = m'
  | (Ok v, h'), Ok tv =>
      ∃ Fv, Heap.tree_at 1 h' Fv v tv ∧ Fv ## dom h ∧ Fv ⊆ dom h' ∧ h ⊆ h'
  | _, _ => False
  end.
Proof.
  intros Hb. unfold Heap.parsedValue, parsedValue. rewrite Hb.
  destruct (isDisabledFlag flagName).
  { destruct (not_boolean ev); simpl; [done|].
    exists ∅. split_and!; [done | set_solver..| done]. }
  destruct rawValue as [raw|].
  2:{ destruct (not_boolean ev); simpl; [done|].
      exists ∅. split_and!; [done | set_solver..| done]. }
  destruct (includes _ raw).
  2:{ simpl. exists ∅. split_and!; [done | set_solver..| done]. }
  unfold Heap.alloc_array, Heap.bindM, Heap.alloc, Heap.ret.
  set (pieces := split_on _ raw). set (l := fresh (dom h)).
  assert (l ∉ dom h) as Hl by apply is_fresh.
  exists {[l]}. split_and!.
  - rewrite js_array_fmap, indexed_fmap.
    eexists _, ((λ _, ∅) <$> list_to_map (imap (λ i s, (pretty i, s)) pieces)).
    split_and!; [by rewrite lookup_insert_eq | done | set_solver | |].
    + intros key. simpl. rewrite !lookup_fmap.
      destruct (_ !! key); simpl; [|done]. split_and!; [done | set_solver..].
    + intros k1 k2 F1 F2 _. rewrite !lookup_fmap.
      destruct (_ !! k1), (_ !! k2); simpl; try done. intros [= <-] [= <-]. set_solver.
  - set_solver.
  - rewrite dom_insert_L. set_solver.
  - apply insert_subseteq. by apply not_elem_of_dom.
Qed.

Lemma tree_hasConfigPath d (h : Heap.store) F root n path :
  Heap.tree_at d h F (Heap.HRef root) (of_node n) →
  Heap.hasConfigPath h root path = hasConfigPath n path
  ∧ Heap.not_boolean (Heap.resolveValueAtPath h root path)
    = not_boolean (resolveValueAtPath n path).
Proof.
  intros Ht.
  destruct (tree_resolve _ _ _ _ _ (split_on "." path) Ht) as (F' & _ & Hres).
  split.
  - by eapply tree_is_defined.
  - by eapply tree_not_boolean.
Qed.

(** One flag: the Heap.store layer and the value layer throw alike, and
    leave working copies that correspond. *)
Lemma tree_parseFlag opts d (h : Heap.store) F root n flagName rawValue :
  Heap.tree_at d h F (Heap.HRef root) (of_node n) → F ⊆ dom h →
  match Heap.parseFlag opts root flagName rawValue h,
        parseFlag opts n flagName rawValue with
  | (Throw m, _), Throw m' => m = m'
  | (Ok _, h'), Ok n' =>
      ∃ d' F', Heap.tree_at d' h' F' (Heap.HRef root) (of_node n') ∧ F' ⊆ dom h'
  | _, _ => False
  end.
Proof.
  intros Ht HF. unfold Heap.parseFlag, parseFlag.
  destruct flagName as [flagName|]; [|by exists d, F].
  destruct (nonempty flagName); [|by exists d, F]. cbn [negb].
  unfold Heap.bindM at 1. cbn [Heap.get_store].
  destruct (tree_hasConfigPath _ _ _ _ _ (normalizedPath flagName) Ht) as [-> Hbool].
  destruct (hasConfigPath n (normalizedPath flagName)) eqn:Hex; [|by exists d, F].
  cbn [negb]. unfold Heap.bindM.
  pose proof (tree_parsedValue opts flagName rawValue _ _ h Hbool) as Hpv.
  destruct (Heap.parsedValue _ _ _ _ h) as [[v|msg] h1],
           (parsedValue _ _ _ _) as [tv|msg']; try done.
  destruct Hpv as (Fv & Hv & HFv & HFv' & Hsub).
  cbn [bind].
  assert (Heap.tree_at d h1 F (Heap.HRef root) (of_node n)) as Ht1.
  { eapply tree_at_frame; [|done]. intros l Hl.
    assert (is_Some (h !! l)) as [x Hx] by (apply elem_of_dom; set_solver).
    by rewrite Hx, (lookup_weaken _ _ _ _ Hx Hsub). }
  destruct (tree_assign (split_on "." (normalizedPath flagName))
              d h1 F root n 1 Fv v tv Ht1 Hex Hv ltac:(set_solver))
    as (Ht2 & Hframe & Hok).
  unfold Heap.assignValueAtPath, assignValueAtPath.
  pose proof (heap_assign_loop_dom (split_on "." (normalizedPath flagName)) v root h1) as Hdom.
  destruct (Heap.assign_loop _ v root h1) as [[[]|msg] h2]; [|done].
  exists (d + 1), (F ∪ Fv). split; [done|].
  assert (dom h ⊆ dom h1) by (by apply subseteq_dom).
  simpl in Hdom. set_solver.
Qed.

(** The argument loop: the two layers throw alike, and return working
    copies that correspond. *)
Lemma tree_argument_loop opts args :
  ∀ d (h : Heap.store) F root n,
    Heap.tree_at d h F (Heap.HRef root) (of_node n) → F ⊆ dom h →
    match Heap.argument_loop opts args root h, argument_loop opts args n with
    | (Throw m, _), Throw m' => m = m'
    | (Ok _, h'), Ok n' =>
        ∃ d' F', Heap.tree_at d' h' F' (Heap.HRef root) (of_node n') ∧ F' ⊆ dom h'
    | _, _ => False
    end.
Proof.
  induction args as [|tok rest IH]; intros d h F root n Ht HF.
  - by exists d, F.
  - simpl. destruct (dispatch tok (head rest)) as [[flagName flagValue]|];
      [|by apply (IH d h F)].
    unfold Heap.bindM.
    pose proof (tree_parseFlag opts d h F root n flagName flagValue Ht HF) as Hflag.
    destruct (Heap.parseFlag opts root flagName flagValue h) as [[[]|msg] h1],
             (parseFlag opts n flagName flagValue) as [n1|msg']; try done.
    destruct Hflag as (d1 & F1 & Ht1 & HF1). simpl. by apply (IH d1 h1 F1).
Qed.

Lemma foldl_option_prefix {S A} (f : option S → A → option S)
    (P : list A → S → Prop) l s s' :
  (∀ a, f None a = None) →
  P [] s →
  (∀ pre a suf s s1, l = pre ++ a :: suf → P pre s → f (Some s) a = Some s1 → P (pre ++ [a]) s1) →
  foldl f (Some s) l = Some s' → P l s'.
Proof.
  intros Hnone H0 Hstep.
  cut (∀ suf pre s, l = pre ++ suf → P pre s → foldl f (Some s) suf = Some s' → P l s').
  { intros H. by apply (H l [] s). }
  induction suf as [|a suf IH]; intros pre s0 Hl Hpre; simpl.
  - intros [= <-]. by rewrite Hl, app_nil_r.
  - destruct (f (Some s0) a) as [s1|] eqn:E.
    + apply (IH (pre ++ [a])); [by rewrite <- app_assoc | by eapply Hstep].
    + assert (foldl f None suf = None) as ->; [|done].
      clear -Hnone. induction suf as [|b suf IH]; [done|]. simpl. by rewrite Hnone.
Qed.

Lemma tree_at_prim d d' (h h' : Heap.store) F F' v t :
  (∀ l, v ≠ Heap.HRef l) → Heap.tree_at d h F v t → Heap.tree_at d' h' F' v t.
Proof.
  intros Hv. destruct v as [| | | | |l]; [..|by destruct (Hv l)];
    by destruct d, d', t.
Qed.

Lemma tree_at_allocated d (h : Heap.store) F l t : Heap.tree_at d h F (Heap.HRef l) t → l ∈ F ∧ is_Some (h !! l).
Proof.
  intros Ht. destruct (tree_at_ref_inv _ _ _ _ _ Ht) as (k & m & ->).
  destruct (tree_at_obj_inv _ _ _ _ _ _ Ht) as (d' & l' & o & Fs & _ & [= <-] & Ho & _ & Hl & _).
  split; [done | by eexists].
Qed.

Lemma subseteq_agree (h h' : Heap.store) (F : gset Heap.loc) :
  h ⊆ h' → F ⊆ dom h → ∀ x, x ∈ F → h' !! x = h !! x.
Proof.
  intros Hsub HF x Hx.
  assert (is_Some (h !! x)) as [y Hy] by (apply elem_of_dom; set_solver).
  by rewrite Hy, (lookup_weaken _ _ _ _ Hy Hsub).
Qed.

Lemma store_key_subseteq l key v (h hc : Heap.store) :
  h ⊆ hc → l ∉ dom h → h ⊆ Heap.store_key l key v hc.
Proof.
  intros Hsub Hl. apply map_subseteq_spec. intros x y Hx.
  rewrite store_key_lookup_ne; [by eapply lookup_weaken|].
  intros <-. apply Hl, elem_of_dom. by eexists.
Qed.

(** The copy of a tree is a tree, equal to it, made of objects that were
    not in the store. *)
Lemma tree_clone fuel :
  ∀ d (h : Heap.store) F l t seen l' h' seen',
    Heap.tree_at d h F (Heap.HRef l) t → F ⊆ dom h → dom seen ## F →
    Heap.clone_object fuel l h seen = Some (l', h', seen') →
    Heap.tree_at d h' (dom h' ∖ dom h) (Heap.HRef l') t ∧ h ⊆ h' ∧ dom seen' ⊆ dom seen ∪ F.
Proof.
  induction fuel as [|fuel IH]; intros d h F l t seen l' h' seen' Ht HF Hseen;
    destruct (tree_at_ref_inv _ _ _ _ _ Ht) as (k & m & ->);
    destruct (tree_at_obj_inv _ _ _ _ _ _ Ht)
      as (d' & l0 & o & Fs & -> & [= <-] & Ho & Hk & Hl & Hch & HFs);
    assert (seen !! l = None) as Hnot by (apply not_elem_of_dom; set_solver).
  { simpl. by rewrite Hnot. }
  simpl. rewrite Hnot, Ho.
  set (l1 := fresh (dom h)). set (h1 := <[l1 := Heap.Object (Heap.okind o) ∅]> h).
  set (seen1 := <[l := l1]> seen).
  assert (l1 ∉ dom h) as Hl1 by apply is_fresh.
  match goal with
  | |- match foldl ?f ?init ?kvs with _ => _ end = _ → _ =>
      destruct (foldl f init kvs) as [[h2 seen2]|] eqn:Hfold; [|done]
  end.
  intros [= <- <- <-].
  revert Hfold.
  set (Inv := λ (pre : list (string * Heap.hvalue)) (st : Heap.store * gmap Heap.loc Heap.loc),
    h ⊆ st.1 ∧
    (∀ x, x ∈ dom st.2 →
          x ∈ dom seen1 ∨ ∃ key v0 Fk, (key, v0) ∈ pre ∧ Fs !! key = Some Fk ∧ x ∈ Fk) ∧
    ∃ (P : gmap string Heap.hvalue) (Fs' : gmap string (gset Heap.loc)),
      st.1 !! l1 = Some (Heap.Object (Heap.okind o) P) ∧
      (∀ key, match P !! key, Fs' !! key with
              | Some v', Some Fk' =>
                  ∃ t', m !! key = Some t' ∧ Heap.tree_at d' st.1 Fk' v' t' ∧
                        Fk' ⊆ dom st.1 ∖ dom h ∧ l1 ∉ Fk'
              | None, None => ∀ v0, (key, v0) ∉ pre
              | _, _ => False
              end) ∧
      (∀ k1 k2 F1 F2, k1 ≠ k2 → Fs' !! k1 = Some F1 → Fs' !! k2 = Some F2 → F1 ## F2)).
  intros Hfold.
  cut (Inv (map_to_list (Heap.oprops o)) (h2, seen2)).
  { intros (Hsub & Hs2 & P & Fs' & HP & Hch' & HFs'). simpl in *.
    split_and!; [|done|].
    - exists (Heap.Object (Heap.okind o) P), Fs'.
      split_and!; [done | done | | | done].
      + apply elem_of_difference. split; [|done]. apply elem_of_dom. by eexists.
      + intros key. specialize (Hch' key). simpl.
        destruct (P !! key) as [v'|], (Fs' !! key) as [Fk'|]; try done.
        * destruct Hch' as (t' & -> & Ht' & HFk' & Hl1'). done.
        * destruct (Heap.oprops o !! key) as [v0|] eqn:Hv0.
          { destruct (Hch' v0). by apply elem_of_map_to_list. }
          specialize (Hch key). rewrite Hv0 in Hch.
          by destruct (m !! key), (Fs !! key).
    - intros x Hx. destruct (Hs2 x Hx) as [Hx1|(key & v0 & Fk & _ & HFk & HxFk)].
      + unfold seen1 in Hx1. rewrite dom_insert_L in Hx1. set_solver.
      + specialize (Hch key). rewrite HFk in Hch.
        destruct (Heap.oprops o !! key), (m !! key); try done. set_solver. }
  revert Hfold. apply (foldl_option_prefix _ Inv).
  - done.
  - (* before the first property *)
    split_and!; simpl.
    + apply insert_subseteq. by apply not_elem_of_dom.
    + intros x Hx. by left.
    + exists ∅, ∅. split_and!; [by apply lookup_insert_eq| |done].
      intros key. rewrite !lookup_empty. intros v0 Hin. by apply elem_of_nil in Hin.
  - (* one more property *)
    intros pre [key v] suf [hc seenc] [hc1 seenc1] Hkvs
      (Hsub & Hs & P & Fs' & HP & Hch' & HFs'). simpl in *.
    assert (Heap.oprops o !! key = Some v) as Hv.
    { apply elem_of_map_to_list. rewrite Hkvs. set_solver. }
    pose proof (Hch key) as Hkey. rewrite Hv in Hkey.
    destruct (m !! key) as [t'|] eqn:Ht', (Fs !! key) as [Fk|] eqn:HFk; try done.
    destruct Hkey as (Hchild & HFkF & HlFk).
    assert (l1 ∈ dom hc) as Hl1c by (apply elem_of_dom; by eexists).
    assert (dom h ⊆ dom hc) as Hdomc by (by apply subseteq_dom).
    assert (∀ hx seenx v',
      h ⊆ hx → hc ⊆ hx →
      (∀ x, x ∈ dom seenx →
            x ∈ dom seen1 ∨ ∃ key0 v0 Fk0, (key0, v0) ∈ pre ++ [(key, v)] ∧
                                            Fs !! key0 = Some Fk0 ∧ x ∈ Fk0) →
      Heap.tree_at d' hx (dom hx ∖ dom hc) v' t' →
      Inv (pre ++ [(key, v)]) (Heap.store_key l1 key v' hx, seenx)) as Hput.
    { intros hx seenx v' Hhx Hcx Hsx Hv'. split_and!; simpl.
      - by apply store_key_subseteq.
      - done.
      - exists (<[key := v']> P), (<[key := dom hx ∖ dom hc]> Fs').
        assert (dom hc ⊆ dom hx) as Hdomx by (by apply subseteq_dom).
        split_and!.
        + rewrite (store_key_lookup _ _ _ _ (Heap.Object (Heap.okind o) P)); [done|].
          by eapply lookup_weaken.
        + intros key'. destruct (decide (key' = key)) as [->|Hne].
          * rewrite !lookup_insert_eq. exists t'. split_and!; [done| | |set_solver].
            -- eapply tree_at_frame; [|done]. intros x Hx.
               apply store_key_lookup_ne. set_solver.
            -- rewrite store_key_dom. set_solver.
          * rewrite !lookup_insert_ne by done. specialize (Hch' key').
            destruct (P !! key') as [v''|], (Fs' !! key') as [Fk'|]; try done.
            -- destruct Hch' as (t'' & Ht'' & Htree & HFk' & Hl1').
               exists t''. split_and!; [done| | |done].
               ++ eapply tree_at_frame; [|eapply tree_at_frame; [|done]].
                  ** intros x Hx. apply store_key_lookup_ne. set_solver.
                  ** apply subseteq_agree; [done | set_solver].
               ++ rewrite store_key_dom. set_solver.
            -- intros v0 [Hin|Hin]%elem_of_app; [by eapply Hch'|].
               apply list_elem_of_singleton in Hin. congruence.
        + intros k1 k2 F1 F2 Hne
            [[<- <-]|[? H1]]%lookup_insert_Some [[<- <-]|[? H2]]%lookup_insert_Some.
          * done.
          * specialize (Hch' k2). rewrite H2 in Hch'.
            destruct (P !! k2); [|done]. destruct Hch' as (? & _ & _ & ? & _). set_solver.
          * specialize (Hch' k1). rewrite H1 in Hch'.
            destruct (P !! k1); [|done]. destruct Hch' as (? & _ & _ & ? & _). set_solver.
          * exact (HFs' _ _ _ _ Hne H1 H2). }
    assert (∀ x, x ∈ dom seenc →
              x ∈ dom seen1 ∨ ∃ key0 v0 Fk0, (key0, v0) ∈ pre ++ [(key, v)] ∧
                                              Fs !! key0 = Some Fk0 ∧ x ∈ Fk0) as Hs'.
    { intros x Hx. destruct (Hs x Hx) as [?|(key0 & v0 & Fk0 & ? & ? & ?)]; [by left|].
      right. exists key0, v0, Fk0. split_and!; [set_solver | done..]. }
    destruct v as [| | | | |c];
      try (intros [= <- <-]; apply Hput; [done..|];
           eapply tree_at_prim; [|done]; by intros).
    destruct (Heap.clone_object fuel c hc seenc) as [[[c' hc'] seenc']|] eqn:Hc; [|done].
    intros [= <- <-].
    assert (Heap.tree_at d' hc Fk (Heap.HRef c) t') as Hchild'.
    { eapply tree_at_frame; [|done]. apply subseteq_agree; [done | set_solver]. }
    assert (dom seenc ## Fk) as Hdisj.
    { intros x Hx HxFk. destruct (Hs x Hx) as [Hx1|(key0 & v0 & Fk0 & Hin & HFk0 & HxFk0)].
      - unfold seen1 in Hx1. rewrite dom_insert_L in Hx1. set_solver.
      - assert (key0 ≠ key) as Hne.
        { intros ->. pose proof (NoDup_fst_map_to_list (Heap.oprops o)) as Hnd.
          rewrite Hkvs, fmap_app, fmap_cons in Hnd. simpl in Hnd.
          apply NoDup_app in Hnd as (_ & Hnd & _).
          apply (Hnd key); [|set_solver].
          apply list_elem_of_fmap. by exists (key, v0). }
        pose proof (HFs _ _ _ _ Hne HFk0 HFk). set_solver. }
    destruct (IH d' hc Fk c t' seenc c' hc' seenc' Hchild' ltac:(set_solver) Hdisj Hc)
      as (Htree & Hsubc & Hseenc').
    apply Hput; [by etrans | done | | done].
    intros x Hx. destruct (decide (x ∈ dom seenc)) as [Hin|Hnin]; [by apply Hs'|].
    right. exists key, (Heap.HRef c), Fk. split_and!; [set_solver | done | set_solver].
Qed.

(** For a schema that is a tree in a store without dangling references,
    the two layers throw alike, and the working copy the store layer
    returns unfolds to the tree the value layer returns. *)
Theorem layers_agree data schema args opts d (h : Heap.store) F :
  Heap.tree_at d h F (Heap.HRef data) (of_node schema) → F ⊆ dom h → Heap.closed h = true →
  match Heap.arglet data args opts h, arglet schema args opts with
  | (Throw m, _), Throw m' => m = m'
  | (Ok result, h'), Ok R =>
      ∃ d', ∀ depth, d' ≤ depth → Heap.snapshot depth h' (Heap.HRef result) = of_node R
  | _, _ => False
  end.
Proof.
  intros Ht HF Hclosed.
  destruct (tree_at_allocated _ _ _ _ _ Ht) as [_ Hdata].
  destruct (structuredClone_returns data h Hclosed) as (result & Hres).
  { simpl. by apply bool_decide_eq_true. }
  unfold Heap.arglet, arglet, structuredClone, Heap.bindM.
  unfold Heap.structuredClone in *.
  destruct (Heap.clone_object (S (size h)) data h ∅) as [[[l' h1] seen']|] eqn:Hc; [|done].
  simpl in Hres. injection Hres as ->.
  assert (dom (∅ : gmap Heap.loc Heap.loc) ## F) as Hempty by set_solver.
  destruct (tree_clone _ _ _ _ _ _ _ _ _ _ Ht HF Hempty Hc) as (Ht1 & _ & _).
  pose proof (tree_argument_loop opts args d h1 _ result schema Ht1 ltac:(set_solver)) as Hloop.
  destruct (Heap.argument_loop opts args result h1) as [[[]|msg] h2],
           (argument_loop opts args schema) as [R|msg']; try done.
  destruct Hloop as (d' & F' & Ht2 & _). exists d'. intros depth Hle.
  eapply tree_at_snapshot, tree_at_le; done.
Qed.

(** The schema of [sample_store] is a tree. *)
Example sample_store_tree :
  Heap.tree_at 2 sample_store {[ 1%positive; 2%positive ]} (Heap.HRef 1%positive)
    (of_node (obj [("verbose", VBool false);
                   ("server", of_node (obj [("host", VStr "localhost")]))])).
Proof.
  exists (Heap.Object Plain {[ "verbose" := Heap.HBool false;
                               "server" := Heap.HRef 2%positive ]}),
         {[ "verbose" := ∅; "server" := {[ 2%positive ]} ]}.
  split_and!; [done | done | set_solver | |].
  - intros key. cbn [Heap.oprops of_node obj props list_to_map foldr uncurry fst snd].
    rewrite !lookup_insert. case_decide; [done|].
    rewrite !lookup_singleton. case_decide; [|done].
    split_and!; [|set_solver..].
    exists (Heap.Object Plain {[ "host" := Heap.HStr "localhost" ]}), {[ "host" := ∅ ]}.
    split_and!; [done | done | set_solver | |].
    + intros key'. cbn [Heap.oprops of_node obj props list_to_map foldr uncurry fst snd].
      rewrite lookup_insert, lookup_empty, !lookup_singleton. by case_decide.
    + intros k1 k2 F1 F2 Hne [<- <-]%lookup_singleton_Some [<- <-]%lookup_singleton_Some.
      done.
  - intros k1 k2 F1 F2 Hne H1 H2.
    apply lookup_insert_Some in H1 as [[<- <-]|[_ [<- <-]%lookup_singleton_Some]];
      apply lookup_insert_Some in H2 as [[<- <-]|[_ [<- <-]%lookup_singleton_Some]];
      set_solver.
Qed.

(** * Further properties of the code

    Properties of the functions of [src/index.ts] beyond the statements of
    the specification: of [assignValueAtPath] and [resolveValueAtPath] on
    their own, of the token loop and [parseFlag], of the diagnostic output
    and the call forms, and of the copy the call works on. *)

(** ** Assigning on any working copy

    [assignValueAtPath] outside [parseFlag]: the path need not exist. *)

Lemma assign_loop_head segment rest v n :
  nonempty segment = true →
  assign_loop (segment :: rest) v n
  = set_key n segment (written_at_head rest v (get_key (of_node n) segment)).
Proof. intros H. destruct rest; simpl; by rewrite H. Qed.

Lemma assign_loop_empty_head segment rest v n :
  nonempty segment = false → assign_loop (segment :: rest) v n = n.
Proof. intros H. simpl. by rewrite H. Qed.

Lemma get_key_of_node n key : get_key (of_node n) key = default VUndef (props n !! key).
Proof. done. Qed.

Lemma get_key_set_key n key v : get_key (of_node (set_key n key v)) key = v.
Proof. unfold get_key, of_node, set_key. simpl. by rewrite lookup_insert_eq. Qed.

Lemma get_key_set_key_ne n key key' v :
  key ≠ key' → get_key (of_node (set_key n key v)) key' = get_key (of_node n) key'.
Proof. intros H. unfold get_key, of_node, set_key. simpl. by rewrite lookup_insert_ne. Qed.

Lemma set_key_twice n key a b : set_key (set_key n key a) key b = set_key n key b.
Proof. unfold set_key. simpl. by rewrite insert_insert_eq. Qed.

Lemma set_key_commute n k1 k2 a b :
  k1 ≠ k2 → set_key (set_key n k1 a) k2 b = set_key (set_key n k2 b) k1 a.
Proof. intros H. unfold set_key. simpl. f_equal. by apply insert_insert_ne. Qed.

Lemma as_node_of_node n : as_node (of_node n) = n.
Proof. by destruct n. Qed.

Lemma not_an_object_of_node n : not_an_object (of_node n) = false.
Proof. done. Qed.

Lemma not_an_object_true v : not_an_object v = true → ∀ k m, v ≠ VObj k m.
Proof. intros H k m ->. done. Qed.

Lemma not_an_object_false v : not_an_object v = false → of_node (as_node v) = v.
Proof. by destruct v. Qed.

Lemma resolve_step_of_node n key : resolve_step (of_node n) key = get_key (of_node n) key.
Proof. unfold of_node. by rewrite resolve_step_obj. Qed.

Lemma resolve_from_leaf v key rest :
  not_an_object v = true → resolve_from v (key :: rest) = VUndef.
Proof.
  intros H. rewrite resolve_from_cons, resolve_step_not_obj; [apply resolve_from_undef|].
  by apply not_an_object_true.
Qed.

Lemma resolve_from_empty_object key rest :
  resolve_from (of_node empty_object) (key :: rest) = VUndef.
Proof.
  rewrite resolve_from_cons, resolve_step_of_node. unfold get_key, of_node, empty_object. simpl.
  rewrite lookup_empty. apply resolve_from_undef.
Qed.

Lemma assign_loop_resolve_any segments v n :
  segments ≠ [] →
  Forall (λ s, nonempty s = true) segments →
  resolve_from (of_node (assign_loop segments v n)) segments = v.
Proof.
  revert n. induction segments as [|segment rest IH]; intros n Hnil Hne; [done|].
  apply Forall_cons in Hne as [Hseg Hrest].
  rewrite assign_loop_head by done.
  rewrite resolve_from_cons, resolve_step_of_node, get_key_set_key.
  destruct rest as [|s2 rest]; [done|].
  unfold written_at_head. by apply IH.
Qed.

(** Paths that neither extend the assigned path nor lead to it read as
    before, whether the assigned path existed or not. *)

Lemma assign_loop_frame_any segments v n q :
  ¬ segments `prefix_of` q → ¬ q `prefix_of` segments →
  resolve_from (of_node (assign_loop segments v n)) q = resolve_from (of_node n) q.
Proof.
  revert n q. induction segments as [|segment rest IH]; intros n q Hsq Hqs.
  { destruct Hsq. apply prefix_nil. }
  destruct (nonempty segment) eqn:Hseg; [|by rewrite assign_loop_empty_head].
  destruct q as [|key q]; [destruct Hqs; apply prefix_nil|].
  rewrite assign_loop_head by done.
  rewrite !resolve_from_cons, !resolve_step_of_node.
  destruct (decide (key = segment)) as [->|Hkey].
  2:{ by rewrite get_key_set_key_ne. }
  rewrite get_key_set_key.
  destruct rest as [|s2 rest].
  { destruct Hsq. apply prefix_cons, prefix_nil. }
  unfold written_at_head.
  rewrite IH.
  - destruct (not_an_object (get_key (of_node n) segment)) eqn:Hobj.
    + destruct q as [|k2 q]; [destruct Hqs; apply prefix_cons, prefix_nil|].
      by rewrite resolve_from_empty_object, resolve_from_leaf.
    + by rewrite not_an_object_false.
  - intros ?. apply Hsq. by apply prefix_cons.
  - intros ?. apply Hqs. by apply prefix_cons.
Qed.

(** X1.  [assignValueAtPath] followed by [resolveValueAtPath].  On a
    working copy that is a tree, whether the path exists or not, assigning
    [v] at a path without empty segment makes the path read as [v]
    (objects are created on the way, and what is no object there is
    replaced), keeps the kind of the root, and leaves the paths unrelated
    to it as they read before.  (With an object reached along two paths a
    write through one shows through the other: [shared_run].) *)
Theorem assign_then_resolve result path v :
  no_empty_segment path = true →
  stores_at result (assignValueAtPath result path v) path v.
Proof.
  intros Hne. apply no_empty_segment_Forall in Hne.
  unfold stores_at, assignValueAtPath, resolveValueAtPath. split_and!.
  - apply assign_loop_resolve_any; [apply split_on_not_nil | done].
  - apply assign_loop_kind.
  - intros q [H1 H2]. by apply assign_loop_frame_any.
Qed.

Lemma assign_then_resolve_witness :
  stores_at (obj [("a", VStr "s")])
    (assignValueAtPath (obj [("a", VStr "s")]) "a.b" (VBool true)) "a.b" (VBool true).
Proof. exact (assign_then_resolve (obj [("a", VStr "s")]) "a.b" (VBool true) eq_refl). Defined.

(** ** The empty segment *)

Lemma split_on_app c s t :
  split_on c (s +:+ String c t) = split_on c s ++ split_on c t.
Proof.
  induction s as [|a s IH].
  - change ("" +:+ String c t) with (String c t). simpl. by rewrite decide_True.
  - rewrite append_cons. cbn [split_on]. case_decide; [by rewrite IH|].
    rewrite IH. destruct (split_on c s) as [|seg segs] eqn:E; [by destruct (split_on_not_nil c s)|].
    done.
Qed.

Lemma ensure_object_node child :
  of_node (if not_an_object child then empty_object else as_node child) = ensure_object child.
Proof. unfold ensure_object. destruct (not_an_object child) eqn:E; [done | by apply not_an_object_false]. Qed.

Lemma resolve_from_ensure child q :
  q ≠ [] →
  resolve_from (of_node (if not_an_object child then empty_object else as_node child)) q
  = resolve_from child q.
Proof.
  intros Hq. destruct q as [|k q]; [done|].
  destruct (not_an_object child) eqn:E.
  - by rewrite resolve_from_empty_object, resolve_from_leaf.
  - by rewrite not_an_object_false.
Qed.

Lemma assign_loop_stops pre post v n :
  pre ≠ [] →
  Forall (λ s, nonempty s = true) pre →
  assign_loop (pre ++ "" :: post) v n
  = assign_loop pre (ensure_object (resolve_from (of_node n) pre)) n.
Proof.
  revert n. induction pre as [|s pre IH]; intros n Hnil Hne; [done|].
  apply Forall_cons in Hne as [Hs Hpre].
  rewrite <- app_comm_cons, !assign_loop_head by done. f_equal.
  rewrite resolve_from_cons, resolve_step_of_node.
  destruct pre as [|s2 pre].
  - simpl. apply ensure_object_node.
  - rewrite <- app_comm_cons. unfold written_at_head. f_equal.
    rewrite <- app_comm_cons in IH. rewrite IH by done.
    by rewrite resolve_from_ensure.
Qed.

(** X2.  The guard [if (!segment) return;] of [assignValueAtPath].  A
    path that starts with a dot, and the empty path, change nothing.  A
    path with an empty segment further on (a trailing or a doubled dot
    after [p]) never stores the value, but the walk up to the empty
    segment has been done: the call is the assignment, at [p], of the
    object that is at [p], or of a fresh empty mapping when [p] holds no
    object. *)
Theorem assign_stops_at_empty_segment result p v :
  no_empty_segment p = true →
  (∀ rest, assignValueAtPath result ("." +:+ rest) v = result)
  ∧ assignValueAtPath result "" v = result
  ∧ assignValueAtPath result (p +:+ ".") v
    = assignValueAtPath result p (ensure_object (resolveValueAtPath result p))
  ∧ ∀ rest, assignValueAtPath result (p +:+ ".." +:+ rest) v
            = assignValueAtPath result p (ensure_object (resolveValueAtPath result p)).
Proof.
  intros Hp. apply no_empty_segment_Forall in Hp.
  pose proof (split_on_not_nil "." p) as Hnil.
  unfold assignValueAtPath, resolveValueAtPath.
  change (foldl resolve_step) with resolve_from.
  split_and!.
  - intros rest. change ("." +:+ rest) with (String "." rest).
    unfold split_on; fold split_on. rewrite decide_True by done. done.
  - done.
  - change (p +:+ ".") with (p +:+ String "." "").
    rewrite split_on_app. change (split_on "." "") with [""].
    by apply assign_loop_stops.
  - intros rest. change (p +:+ ".." +:+ rest) with (p +:+ String "." (String "." rest)).
    rewrite split_on_app. cbn [split_on]. rewrite decide_True by done.
    by apply assign_loop_stops.
Qed.

Lemma assign_stops_at_empty_segment_witness :
  assignValueAtPath (obj [("a", VStr "s")]) "a..b" (VBool true)
  = assignValueAtPath (obj [("a", VStr "s")]) "a"
      (ensure_object (resolveValueAtPath (obj [("a", VStr "s")]) "a")).
Proof.
  exact (proj2 (proj2 (proj2 (assign_stops_at_empty_segment (obj [("a", VStr "s")]) "a"
                                (VBool true) eq_refl))) "b").
Defined.

(** ** Resolving a path in two steps *)

(** X11.  Resolving composes: [p.q] resolves to what [q] resolves to from
    the value at [p]; hence a path [p.q] exists only if [p] exists and
    holds an object. *)
Theorem resolve_composes result p q :
  resolveValueAtPath result (p +:+ "." +:+ q)
  = resolve_from (resolveValueAtPath result p) (split_on "." q)
  ∧ (hasConfigPath result (p +:+ "." +:+ q) = true →
     hasConfigPath result p = true
     ∧ ∃ k m, resolveValueAtPath result p = VObj k m).
Proof.
  assert (resolveValueAtPath result (p +:+ "." +:+ q)
          = resolve_from (resolveValueAtPath result p) (split_on "." q)) as Hres.
  { unfold resolveValueAtPath. change (foldl resolve_step) with resolve_from.
    change (p +:+ "." +:+ q) with (p +:+ String "." q).
    by rewrite split_on_app, resolve_from_app. }
  split; [done|]. unfold hasConfigPath. rewrite Hres. intros Hdef.
  destruct (split_on "." q) as [|s rest] eqn:E; [by destruct (split_on_not_nil "." q)|].
  destruct (defined_path_inner _ _ _ Hdef) as (k & m & Hobj).
  rewrite Hobj. split; [done | by exists k, m].
Qed.

Lemma resolve_composes_witness :
  hasConfigPath (obj [("server", of_node (obj [("host", VStr "localhost")]))]) "server" = true
  ∧ ∃ k m, resolveValueAtPath (obj [("server", of_node (obj [("host", VStr "localhost")]))])
             "server" = VObj k m.
Proof.
  exact (proj2 (resolve_composes (obj [("server", of_node (obj [("host", VStr "localhost")]))])
                  "server" "host") eq_refl).
Defined.

(** ** The same flag twice *)

Lemma assign_loop_twice segments a b n :
  assign_loop segments b (assign_loop segments a n) = assign_loop segments b n.
Proof.
  revert n. induction segments as [|s rest IH]; intros n; [done|].
  destruct (nonempty s) eqn:Hs; [|by rewrite !assign_loop_empty_head].
  rewrite !assign_loop_head by done.
  rewrite get_key_set_key, set_key_twice. f_equal.
  destruct rest as [|s2 rest]; [done|].
  unfold written_at_head. rewrite not_an_object_of_node, as_node_of_node. by rewrite IH.
Qed.

Lemma value_of_raw_defined opts raw : is_defined (value_of_raw opts raw) = true.
Proof. unfold value_of_raw. by destruct (includes _ _). Qed.

Lemma parseFlag_valued opts result name raw :
  isDisabledFlag name = false →
  parseFlag opts result (Some name) (Some raw)
  = Ok (if nonempty name && hasConfigPath result name
        then assignValueAtPath result name (value_of_raw opts raw)
        else result).
Proof.
  intros Hdis. unfold parseFlag. rewrite normalizedPath_plain by done.
  destruct (nonempty name); [|done]. simpl.
  destruct (hasConfigPath result name); [|done]. simpl.
  by rewrite parsedValue_raw.
Qed.

Lemma assign_keeps_path result path v :
  hasConfigPath result path = true → is_defined v = true →
  hasConfigPath (assignValueAtPath result path v) path = true.
Proof.
  intros Hex Hv.
  pose proof (stores_or_aborts result path v Hex) as H.
  destruct (no_empty_segment path).
  - destruct H as (Hres & _). unfold hasConfigPath. by rewrite Hres.
  - by rewrite H.
Qed.

Lemma assign_keeps_value result path v :
  hasConfigPath result path = true →
  resolveValueAtPath (assignValueAtPath result path v) path = v
  ∨ assignValueAtPath result path v = result.
Proof.
  intros Hex.
  pose proof (stores_or_aborts result path v Hex) as H.
  destruct (no_empty_segment path); [left; apply H | by right].
Qed.

Lemma assignValueAtPath_twice result path a b :
  assignValueAtPath (assignValueAtPath result path a) path b = assignValueAtPath result path b.
Proof. apply assign_loop_twice. Qed.

Lemma parseFlag_twice opts result name a b :
  bind (parseFlag opts result (Some name) (Some a)) (λ r, parseFlag opts r (Some name) (Some b))
  = parseFlag opts result (Some name) (Some b).
Proof.
  destruct (nonempty name) eqn:Hne; [|by unfold parseFlag; rewrite Hne].
  destruct (hasConfigPath result (normalizedPath name)) eqn:Hex;
    [|by rewrite !parseFlag_unknown by done; cbn [bind]; rewrite parseFlag_unknown].
  rewrite !(parseFlag_known _ result) by done.
  set (p := normalizedPath name) in *.
  set (e := resolveValueAtPath result p).
  assert (∀ raw v, parsedValue opts name (Some raw) e = Ok v → is_defined v = true) as Hdef.
  { intros raw v. unfold parsedValue.
    destruct (isDisabledFlag name); [destruct (not_boolean e); by intros [= <-]|].
    destruct (includes _ _); by intros [= <-]. }
  assert (∀ v e', parsedValue opts name (Some a) e = Ok v →
                  (e' = e ∨ e' = v) →
                  parsedValue opts name (Some b) e' = parsedValue opts name (Some b) e) as Hsame.
  { intros v e'. unfold parsedValue.
    destruct (isDisabledFlag name); [|done].
    destruct (not_boolean e) eqn:He; [done|]. intros [= <-] [->| ->].
    - by rewrite He.
    - done. }
  destruct (parsedValue opts name (Some a) e) as [va|msg] eqn:Ha.
  2:{ cbn [bind]. revert Ha. unfold parsedValue.
      destruct (isDisabledFlag name); [|by destruct (includes _ a)].
      destruct (not_boolean e); [by intros [= <-] | done]. }
  cbn [bind].
  rewrite parseFlag_known; [|done|].
  2:{ fold p. apply assign_keeps_path; [done | by eapply Hdef]. }
  fold p.
  destruct (assign_keeps_value result p va Hex) as [Hv|Hv].
  - rewrite Hv, (Hsame va va eq_refl) by (by right). fold e.
    destruct (parsedValue opts name (Some b) e); [|done]. simpl.
    by rewrite assignValueAtPath_twice.
  - rewrite Hv. fold e. done.
Qed.

(** X3.  Last write wins.  On a working copy that is a tree of plain data,
    for paths of own data properties: two assignments at the same path are
    the second alone; and of two tokens [--name=a] and [--name=b] in a row
    the first has no part in the outcome, be the name known, unknown or
    negated. *)
Theorem last_write_wins opts result :
  (∀ path a b,
     assignValueAtPath (assignValueAtPath result path a) path b
     = assignValueAtPath result path b)
  ∧ (∀ name a b rest,
       includes "=" name = false →
       argument_loop opts
         (("--" +:+ name +:+ "=" +:+ a) :: ("--" +:+ name +:+ "=" +:+ b) :: rest) result
       = argument_loop opts (("--" +:+ name +:+ "=" +:+ b) :: rest) result).
Proof.
  split; [intros; apply assignValueAtPath_twice|].
  intros name a b rest Hname.
  destruct (split_on "=" a) as [|a' ?] eqn:Ea; [by destruct (split_on_not_nil "=" a)|].
  destruct (split_on "=" b) as [|b' ?] eqn:Eb; [by destruct (split_on_not_nil "=" b)|].
  rewrite (argument_loop_step _ _ _ _ (Some name) (Some a'))
    by (by rewrite dispatch_equals, Ea).
  rewrite (argument_loop_step _ ("--" +:+ name +:+ "=" +:+ b) rest result (Some name) (Some b'))
    by (by rewrite dispatch_equals, Eb).
  rewrite <- (parseFlag_twice opts result name a' b').
  destruct (parseFlag opts result (Some name) (Some a')) as [r|msg]; [|done]. cbn [bind].
  by rewrite (argument_loop_step _ _ _ _ (Some name) (Some b')) by (by rewrite dispatch_equals, Eb).
Qed.

Lemma last_write_wins_witness :
  argument_loop default_options ["--name=a"; "--name=b"] (obj [("name", VStr "")])
  = argument_loop default_options ["--name=b"] (obj [("name", VStr "")]).
Proof.
  exact (proj2 (last_write_wins default_options (obj [("name", VStr "")]))
           "name" "a" "b" [] eq_refl).
Defined.

(** ** Flags on unrelated paths *)

Lemma assign_loop_commute p q a b n :
  ¬ p `prefix_of` q → ¬ q `prefix_of` p →
  assign_loop p a (assign_loop q b n) = assign_loop q b (assign_loop p a n).
Proof.
  revert q n. induction p as [|s p IH]; intros q n Hpq Hqp.
  { destruct Hpq. apply prefix_nil. }
  destruct q as [|t q]; [destruct Hqp; apply prefix_nil|].
  destruct (nonempty s) eqn:Hs; [|by rewrite !(assign_loop_empty_head s)].
  destruct (nonempty t) eqn:Ht; [|by rewrite !(assign_loop_empty_head t)].
  rewrite !assign_loop_head by done.
  destruct (decide (s = t)) as [->|Hst].
  - rewrite !get_key_set_key, !set_key_twice. f_equal.
    destruct p as [|s2 p]; [destruct Hpq; apply prefix_cons, prefix_nil|].
    destruct q as [|t2 q]; [destruct Hqp; apply prefix_cons, prefix_nil|].
    unfold written_at_head. rewrite !not_an_object_of_node, !as_node_of_node.
    f_equal. apply IH.
    + intros ?. apply Hpq. by apply prefix_cons.
    + intros ?. apply Hqp. by apply prefix_cons.
  - rewrite !get_key_set_key_ne by done. by apply set_key_commute.
Qed.

Lemma unrelated_sym p q : unrelated p q → unrelated q p.
Proof. intros [H1 H2]. by split. Qed.

Lemma hasConfigPath_frame result p q v :
  unrelated p q → hasConfigPath (assignValueAtPath result p v) q = hasConfigPath result q.
Proof.
  intros [H1 H2]. unfold hasConfigPath, resolveValueAtPath, assignValueAtPath.
  change (foldl resolve_step) with resolve_from.
  by rewrite assign_loop_frame_any.
Qed.

Lemma parseFlag_commute opts result n1 a n2 b :
  isDisabledFlag n1 = false → isDisabledFlag n2 = false → unrelated n1 n2 →
  bind (parseFlag opts result (Some n1) (Some a)) (λ r, parseFlag opts r (Some n2) (Some b))
  = bind (parseFlag opts result (Some n2) (Some b)) (λ r, parseFlag opts r (Some n1) (Some a)).
Proof.
  intros H1 H2 Hun.
  rewrite !(parseFlag_valued opts result) by done. cbn [bind].
  rewrite !parseFlag_valued by done. f_equal.
  destruct (nonempty n1 && hasConfigPath result n1) eqn:E1;
    destruct (nonempty n2 && hasConfigPath result n2) eqn:E2;
    rewrite ?hasConfigPath_frame, ?E1, ?E2 by (done || by apply unrelated_sym); try done.
  destruct Hun as [Hp Hq]. unfold assignValueAtPath. by apply assign_loop_commute.
Qed.

Lemma flags_of_equals_tokens (flags : list (string * string)) :
  Forall (λ f, includes "=" f.1 = false ∧ includes "=" f.2 = false) flags →
  flags_of (equals_token <$> flags) = valued <$> flags.
Proof.
  induction 1 as [|[name raw] flags [Hn Hr] _ IH]; [done|].
  rewrite !fmap_cons. cbn [flags_of]. unfold equals_token at 1. cbn [fst snd] in *.
  rewrite dispatch_equals, split_on_no_sep by done. simpl. by rewrite IH.
Qed.

Lemma independent_cons f flags : independent (f :: flags) → independent flags.
Proof.
  intros H i j g1 g2 Hij Hi Hj. apply (H (S i) (S j)); [lia | done..].
Qed.

Lemma independent_names f flags g :
  independent (f :: flags) → g ∈ flags → unrelated f.1 g.1.
Proof.
  intros H [j Hj]%list_elem_of_lookup. by apply (H 0 (S j)).
Qed.

Lemma independent_Permutation flags flags' :
  flags ≡ₚ flags' → independent flags → independent flags'.
Proof.
  induction 1 as [|x l l' Hp IH|x y l|l l' l'' _ IH1 _ IH2]; intros Hind.
  - done.
  - intros i j f g Hij Hi Hj.
    assert (∀ g, g ∈ l' → unrelated x.1 g.1) as Hx.
    { intros g' Hg'. apply (independent_names x l); [done|]. by rewrite Hp. }
    specialize (IH (independent_cons _ _ Hind)).
    destruct i as [|i], j as [|j]; simplify_eq/=.
    + apply Hx. by eapply list_elem_of_lookup_2.
    + apply unrelated_sym, Hx. by eapply list_elem_of_lookup_2.
    + apply (IH i j); [lia | done..].
  - intros i j f g Hij Hi Hj.
    assert (∀ i' f', (x :: y :: l) !! i' = Some f' → ∃ i'', (y :: x :: l) !! i'' = Some f' ∧
              (i' = 0 → i'' = 1) ∧ (i' = 1 → i'' = 0) ∧ (2 ≤ i' → i'' = i')) as Hmap.
    { intros [|[|i']] f' Hf'; simpl in *.
      - exists 1. split; [done | lia].
      - exists 0. split; [done | lia].
      - exists (S (S i')). split; [done | lia]. }
    destruct (Hmap _ _ Hi) as (i2 & Hi2 & ?), (Hmap _ _ Hj) as (j2 & Hj2 & ?).
    apply (Hind i2 j2); [|done..].
    destruct i as [|[|i]], j as [|[|j]]; lia.
  - auto.
Qed.

Lemma run_flags_Permutation opts flags flags' :
  flags ≡ₚ flags' →
  Forall (λ f, isDisabledFlag f.1 = false) flags →
  independent flags →
  ∀ result, run_flags opts (valued <$> flags) result = run_flags opts (valued <$> flags') result.
Proof.
  induction 1 as [|x l l' Hp IH|x y l|l l' l'' Hp1 IH1 Hp2 IH2]; intros Hdis Hind result.
  - done.
  - rewrite !fmap_cons. cbn [run_flags valued].
    apply Forall_cons in Hdis as [_ Hdis].
    destruct (parseFlag opts result (Some x.1) (Some x.2)); [|done]. cbn [bind].
    apply IH; [done | by eapply independent_cons].
  - rewrite !fmap_cons. cbn [run_flags valued].
    apply Forall_cons in Hdis as [Hy [Hx _]%Forall_cons].
    assert (unrelated y.1 x.1) as Hun by (by apply (Hind 0 1)).
    pose proof (parseFlag_commute opts result y.1 y.2 x.1 x.2 Hy Hx Hun) as Hc.
    transitivity (bind (bind (parseFlag opts result (Some y.1) (Some y.2))
                          (λ r, parseFlag opts r (Some x.1) (Some x.2)))
                       (run_flags opts (valued <$> l)));
      [by destruct (parseFlag opts result (Some y.1) (Some y.2))|].
    rewrite Hc. by destruct (parseFlag opts result (Some x.1) (Some x.2)).
  - rewrite IH1 by done. apply IH2.
    + by rewrite <- Hp1.
    + by eapply independent_Permutation.
Qed.

(** X4.  Flags on unrelated paths commute.  On a working copy that is a
    tree of plain data, for paths of own data properties: a list of tokens
    [--name=value] (names without the [no-] prefix, no [=] inside a name
    or a value), no two of which address paths that lead one to the other,
    gives the same outcome in every order.  (In a tree unrelated paths
    lead to different objects.) *)
Theorem independent_flags_commute opts (flags flags' : list (string * string)) result :
  Forall (λ f, includes "=" f.1 = false ∧ includes "=" f.2 = false
               ∧ isDisabledFlag f.1 = false) flags →
  independent flags →
  flags ≡ₚ flags' →
  argument_loop opts (equals_token <$> flags) result
  = argument_loop opts (equals_token <$> flags') result.
Proof.
  intros Hfl Hind Hp.
  assert (Forall (λ f, includes "=" f.1 = false ∧ includes "=" f.2 = false
                       ∧ isDisabledFlag f.1 = false) flags') as Hfl' by (by rewrite <- Hp).
  rewrite !argument_loop_run_flags, !flags_of_equals_tokens.
  - apply run_flags_Permutation; [done| |done].
    eapply Forall_impl; [exact Hfl|]. by intros ? (_ & _ & ?).
  - eapply Forall_impl; [exact Hfl'|]. by intros ? (? & ? & _).
  - eapply Forall_impl; [exact Hfl|]. by intros ? (? & ? & _).
Qed.

Lemma independent_flags_commute_witness :
  argument_loop default_options (equals_token <$> [("a", "1"); ("b.c", "2")])
    (obj [("a", VStr ""); ("b", of_node (obj [("c", VStr "")]))])
  = argument_loop default_options (equals_token <$> [("b.c", "2"); ("a", "1")])
      (obj [("a", VStr ""); ("b", of_node (obj [("c", VStr "")]))]).
Proof.
  apply independent_flags_commute.
  - repeat constructor.
  - intros [|[|i]] [|[|j]] f g Hij Hi Hj; simplify_eq/=;
      (split; intros [k Hk]; simplify_eq/=).
  - apply perm_swap.
Defined.

(** ** The token after a flag *)

Lemma space_form_without_value opts result name next rest :
  includes "=" name = false →
  startsWith "--" next = true ∨ next = "" →
  argument_loop opts (("--" +:+ name) :: next :: rest) result
  = bind (parseFlag opts result (Some name) None) (argument_loop opts (next :: rest)).
Proof.
  intros Hname Hnext.
  apply argument_loop_step. rewrite dispatch_plain by done.
  change (head (next :: rest)) with (Some next). unfold following_value.
  destruct Hnext as [-> | ->]; [by rewrite andb_false_r | done].
Qed.

(** X5.  The token after a flag without [=].  When it is not empty and
    does not start with [--] it is the value of the flag, and the loop then
    passes it over: [--name value] is [--name=value] (for a value without
    [=]).  When it is empty or starts with [--] the flag is dispatched
    without a value and the token is examined in its turn.  A flag without
    [=] at the end of the list is dispatched without a value. *)
Theorem space_separated_value opts result name next rest :
  includes "=" name = false →
  (nonempty next = true → startsWith "--" next = false →
   argument_loop opts (("--" +:+ name) :: next :: rest) result
   = bind (parseFlag opts result (Some name) (Some next)) (argument_loop opts rest)
   ∧ (includes "=" next = false →
      argument_loop opts (("--" +:+ name) :: next :: rest) result
      = argument_loop opts (("--" +:+ name +:+ "=" +:+ next) :: rest) result))
  ∧ (startsWith "--" next = true ∨ next = "" →
     argument_loop opts (("--" +:+ name) :: next :: rest) result
     = bind (parseFlag opts result (Some name) None) (argument_loop opts (next :: rest)))
  ∧ argument_loop opts ["--" +:+ name] result = parseFlag opts result (Some name) None.
Proof.
  intros Hname. split_and!.
  - intros Hne Hdd.
    assert (argument_loop opts (("--" +:+ name) :: next :: rest) result
            = bind (parseFlag opts result (Some name) (Some next)) (argument_loop opts rest))
      as Hspace.
    { rewrite (argument_loop_step _ _ _ _ (Some name) (Some next)).
      - destruct (parseFlag opts result (Some name) (Some next)) as [r|msg]; [|done].
        cbn [bind]. apply argument_loop_skip. unfold dispatch. by rewrite Hdd.
      - rewrite dispatch_plain by done. change (head (next :: rest)) with (Some next).
        unfold following_value. by rewrite Hne, Hdd. }
    split; [done|]. intros Hnext. rewrite Hspace. symmetry.
    apply argument_loop_step. by rewrite dispatch_equals, split_on_no_sep.
  - by apply space_form_without_value.
  - rewrite (argument_loop_step _ _ _ _ (Some name) None) by (by rewrite dispatch_plain).
    by destruct (parseFlag opts result (Some name) None).
Qed.

Lemma space_separated_value_witness :
  argument_loop default_options ["--name"; "tene"] (obj [("name", VStr "")])
  = argument_loop default_options ["--name=tene"] (obj [("name", VStr "")]).
Proof.
  exact (proj2 (proj1 (space_separated_value default_options (obj [("name", VStr "")])
                         "name" "tene" [] eq_refl) eq_refl eq_refl) eq_refl).
Defined.

(** ** Tokens that reach no flag *)

Lemma parseFlag_empty_name opts result rawValue :
  parseFlag opts result (Some "") rawValue = Ok result.
Proof. done. Qed.

Lemma startsWith_inv p s : startsWith p s = true → ∃ t, s = p +:+ t.
Proof.
  revert s. induction p as [|a p IH]; intros s; [by exists s|].
  destruct s as [|b s]; [done|]. simpl. case_decide; [|done]. subst.
  intros (t & ->)%IH. by exists t.
Qed.

Lemma dispatch_names_no_flag token next :
  names_no_flag token = true →
  dispatch token next = None ∨ ∃ v, dispatch token next = Some (Some "", v).
Proof.
  unfold names_no_flag.
  destruct (startsWith "--" token) eqn:Hdd; [|left; unfold dispatch; by rewrite Hdd].
  cbn [negb orb].
  intros [Hd|(t & ->)%startsWith_inv]%orb_true_iff.
  - apply bool_decide_eq_true in Hd as ->. right. by eexists.
  - right. unfold dispatch.
    change (startsWith "--" ("--=" +:+ t)) with true.
    change (slice_from 2 ("--=" +:+ t)) with (String "=" t).
    cbn [negb includes]. rewrite decide_True by done.
    cbn [split_on]. rewrite decide_True by done. by eexists.
Qed.

(** ** Keys that no flag reaches *)

Lemma split_on_pieces c s : Forall (λ piece, includes c piece = false) (split_on c s).
Proof.
  induction s as [|a s IH]; [by repeat constructor|].
  cbn [split_on]. case_decide.
  - by constructor.
  - destruct (split_on c s) as [|seg segs].
    + constructor; [|done]. simpl. by rewrite decide_False.
    + apply Forall_cons in IH as [Hseg Hsegs]. constructor; [|done].
      simpl. by rewrite decide_False.
Qed.

Lemma includes_slice_from c n s : includes c s = false → includes c (slice_from n s) = false.
Proof.
  revert s. induction n as [|n IH]; intros s; [done|].
  destruct s as [|a s]; [done|]. simpl. case_decide; [done|]. apply IH.
Qed.

Lemma includes_split_head c d s piece :
  includes c s = false → piece ∈ split_on d s → includes c piece = false.
Proof.
  revert piece. induction s as [|a s IH]; intros piece Hs.
  - by intros ->%list_elem_of_singleton.
  - simpl in Hs. case_decide; [done|]. cbn [split_on]. case_decide.
    + intros [->|Hin]%elem_of_cons; [done | by apply IH].
    + destruct (split_on d s) as [|seg segs] eqn:E.
      * intros ->%list_elem_of_singleton. simpl. by rewrite decide_False.
      * intros [->|Hin]%elem_of_cons.
        -- simpl. rewrite decide_False by done. apply IH; [done | by left].
        -- apply IH; [done | by right].
Qed.

Lemma dispatch_name_no_equals token next name v :
  dispatch token next = Some (Some name, v) → includes "=" name = false.
Proof.
  unfold dispatch. destruct (startsWith "--" token); [|done]. cbn [negb].
  generalize (slice_from 2 token). intros r.
  destruct (includes "=" r) eqn:E.
  - intros H. injection H as Hname _.
    pose proof (split_on_pieces "=" r) as Hp.
    rewrite Forall_lookup in Hp. by eapply Hp.
  - intros H. by injection H as <- _.
Qed.

Lemma assign_loop_other_key segment rest v n key :
  key ≠ segment →
  props (assign_loop (segment :: rest) v n) !! key = props n !! key.
Proof.
  intros Hkey. destruct (nonempty segment) eqn:Hs; [|by rewrite assign_loop_empty_head].
  rewrite assign_loop_head by done. simpl. by rewrite lookup_insert_ne.
Qed.

Lemma unaddressable_segment key path segment rest :
  unaddressable key = true → includes "=" path = false →
  split_on "." path = segment :: rest →
  nonempty segment = false ∨ key ≠ segment.
Proof.
  unfold unaddressable. intros Hkey Hpath Hsplit.
  destruct (nonempty segment) eqn:Hs; [right|by left]. intros <-.
  rewrite Hs in Hkey. simpl in Hkey. apply orb_true_iff in Hkey as [Hdot|Heq].
  - pose proof (split_on_pieces "." path) as Hp. rewrite Hsplit in Hp.
    apply Forall_cons in Hp as [Hp _]. congruence.
  - assert (includes "=" key = false); [|congruence].
    eapply (includes_split_head "=" "." path); [done|]. rewrite Hsplit. by left.
Qed.

Lemma parseFlag_unaddressable opts result name rawValue result' key :
  unaddressable key = true → includes "=" name = false →
  parseFlag opts result (Some name) rawValue = Ok result' →
  props result' !! key = props result !! key.
Proof.
  intros Hkey Hname. unfold parseFlag.
  destruct (nonempty name); [|by intros [= <-]]. simpl.
  destruct (hasConfigPath result (normalizedPath name)); [|by intros [= <-]]. simpl.
  destruct (parsedValue _ _ _ _) as [v|msg]; [|done]. simpl. intros [= <-].
  unfold assignValueAtPath.
  destruct (split_on "." (normalizedPath name)) as [|segment rest] eqn:Hsplit; [done|].
  destruct (unaddressable_segment key (normalizedPath name) segment rest Hkey) as [Hs|Hs];
    [|done| |].
  - unfold normalizedPath. destruct (isDisabledFlag name); [|done].
    by apply includes_slice_from.
  - by rewrite assign_loop_empty_head.
  - by apply assign_loop_other_key.
Qed.

(** X9.  In a schema that is a tree of plain data, a key that is empty, or
    contains [.] or [=], holds after any run that returns what it held
    before: a flag name has no [=], a segment has no [.], and the walk of
    [assignValueAtPath] stops at an empty segment.  (In a tree no other
    path leads to what the key holds.) *)
Theorem unaddressable_keys_kept opts args data result key :
  unaddressable key = true →
  arglet data args opts = Ok result →
  props result !! key = props data !! key.
Proof.
  unfold arglet, structuredClone. intros Hkey.
  revert data. induction args as [|token rest IH]; intros data; [by intros [= <-]|].
  cbn [argument_loop].
  destruct (dispatch token (head rest)) as [[[name|] v]|] eqn:Hd; [| |by apply IH].
  - intros (r & Hr & Hrun)%bind_Ok.
    rewrite (IH _ Hrun). eapply parseFlag_unaddressable; [done| |done].
    by eapply dispatch_name_no_equals.
  - simpl. apply IH.
Qed.

Lemma unaddressable_keys_kept_witness :
  props (obj [("a.b", VStr "y"); ("a", of_node (obj [("b", VStr "x")]))]) !! "a.b"
  = props (obj [("a.b", VStr "y"); ("a", of_node (obj [("b", VStr "")]))]) !! "a.b".
Proof.
  exact (unaddressable_keys_kept default_options ["--a.b=x"]
           (obj [("a.b", VStr "y"); ("a", of_node (obj [("b", VStr "")]))])
           (obj [("a.b", VStr "y"); ("a", of_node (obj [("b", VStr "x")]))])
           "a.b" eq_refl eq_refl).
Defined.

(** ** The pieces of a raw value *)

Lemma join_split c s : join c (split_on c s) = s.
Proof.
  induction s as [|a s IH]; [done|].
  cbn [split_on]. case_decide as Hac.
  - subst. cbn [join]. destruct (split_on c s) as [|seg segs] eqn:E;
      [by destruct (split_on_not_nil c s)|].
    by rewrite IH.
  - destruct (split_on c s) as [|seg segs] eqn:E; [by destruct (split_on_not_nil c s)|].
    cbn [join] in *. destruct segs as [|seg2 segs]; [by rewrite IH|].
    by rewrite <- IH.
Qed.

Lemma split_on_length c s : includes c s = true → 2 ≤ length (split_on c s).
Proof.
  induction s as [|a s IH]; [done|].
  simpl. case_decide.
  - intros _. pose proof (split_on_not_nil c s). destruct (split_on c s); [done | simpl; lia].
  - intros H'. specialize (IH H'). destruct (split_on c s); simpl in *; lia.
Qed.

(** X8.  The array a raw value is split into.  When the raw value of a
    flag (without the [no-] prefix) contains the separator, the value
    computed for it is the array of its pieces: at least two of them, none
    of which contains the separator, and joining them with the separator
    gives the raw value back (empty pieces are kept). *)
Theorem array_value_round_trip opts X raw existing :
  isDisabledFlag X = false →
  includes (sep_char (arraySeparator opts)) raw = true →
  ∃ pieces,
    parsedValue opts X (Some raw) existing = Ok (js_array (VStr <$> pieces))
    ∧ join (sep_char (arraySeparator opts)) pieces = raw
    ∧ Forall (λ piece, includes (sep_char (arraySeparator opts)) piece = false) pieces
    ∧ 2 ≤ length pieces.
Proof.
  intros Hdis Hsep. exists (split_on (sep_char (arraySeparator opts)) raw).
  rewrite parsedValue_raw, Hsep by done.
  split_and!; [done | apply join_split | apply split_on_pieces | by apply split_on_length].
Qed.

Lemma array_value_round_trip_witness :
  ∃ pieces,
    parsedValue default_options "ids" (Some "1,,2") (VNum 7) = Ok (js_array (VStr <$> pieces))
    ∧ join "," pieces = "1,,2"
    ∧ Forall (λ piece, includes "," piece = false) pieces
    ∧ 2 ≤ length pieces.
Proof.
  exact (array_value_round_trip default_options "ids" "1,,2" (VNum 7) eq_refl eq_refl).
Defined.

(** ** The errors of a call *)

(** X10.  The errors of the merge.  A call that throws has met a flag of
    its list whose path exists in the working copy at that time and holds
    no boolean: a negation flag (the message names the path), or a flag
    dispatched without a value (the message names the flag).  A call whose
    flags all carry a value and are no negation returns. *)
Theorem errors_of_the_merge opts args data :
  (∀ msg, arglet data args opts = Throw msg →
     ∃ pre name rawValue post working_copy,
       flags_of args = pre ++ (Some name, rawValue) :: post
       ∧ run_flags opts pre data = Ok working_copy
       ∧ hasConfigPath working_copy (normalizedPath name) = true
       ∧ is_boolean (resolveValueAtPath working_copy (normalizedPath name)) = false
       ∧ ((isDisabledFlag name = true
           ∧ msg = "--no-" +:+ normalizedPath name +:+ " is only valid for boolean options")
          ∨ (isDisabledFlag name = false ∧ rawValue = None
             ∧ msg = "--" +:+ name +:+ " requires a value")))
  ∧ (forallb carries_value (flags_of args) = true → ∃ result, arglet data args opts = Ok result).
Proof.
  unfold arglet, structuredClone. rewrite argument_loop_run_flags. split.
  2:{ apply run_flags_carries_value. }
  generalize (flags_of args). intros flags. revert data.
  induction flags as [|[flagName rawValue] flags IH]; intros data msg; [done|].
  cbn [run_flags].
  destruct (parseFlag opts data flagName rawValue) as [r|m] eqn:Hflag; cbn [bind].
  - intros (pre & name & rv & post & w & Hfl & Hrun & Hrest)%IH.
    exists ((flagName, rawValue) :: pre), name, rv, post, w.
    split; [by rewrite Hfl|]. split; [|done].
    cbn [run_flags]. by rewrite Hflag.
  - intros [= ->]. destruct flagName as [name|]; [|done].
    exists [], name, rawValue, flags, data.
    split; [done|]. split; [done|].
    revert Hflag. unfold parseFlag.
    destruct (nonempty name); [|done]. simpl.
    destruct (hasConfigPath data (normalizedPath name)) eqn:Hex; [|done]. simpl.
    unfold parsedValue, is_boolean, not_boolean.
    destruct (isDisabledFlag name) eqn:Hdis.
    + destruct (bool_decide _); simpl; [done|]. intros [= <-]. split_and!; [done..|]. by left.
    + destruct rawValue as [raw|]; [by destruct (includes _ _)|].
      destruct (bool_decide _); simpl; [done|]. intros [= <-]. split_and!; [done..|].
      right. by rewrite normalizedPath_plain.
Qed.

Lemma errors_of_the_merge_witness :
  ∃ result, arglet (obj [("age", VNum 23)]) ["--age"; "25"] default_options = Ok result.
Proof.
  exact (proj2 (errors_of_the_merge default_options ["--age"; "25"] (obj [("age", VNum 23)]))
           eq_refl).
Defined.

(** ** Names that start with [no-] *)

Lemma startsWith_first_segment c p s seg segs :
  includes c p = false → split_on c s = seg :: segs →
  startsWith p seg = startsWith p s.
Proof.
  revert s seg segs. induction p as [|a p IH]; intros s seg segs Hp Hs; [done|].
  simpl in Hp. case_decide as Hac; [done|].
  destruct s as [|b s].
  - by injection Hs as <- <-.
  - cbn [split_on] in Hs. case_decide as Hbc.
    + injection Hs as <- <-. simpl. by rewrite decide_False by congruence.
    + destruct (split_on c s) as [|seg' segs'] eqn:E; [by destruct (split_on_not_nil c s)|].
      injection Hs as <- <-. simpl. case_decide; [|done]. by eapply IH.
Qed.

Lemma resolve_path_app result path P k :
  split_on "." path = P ++ k →
  resolveValueAtPath result path = resolve_from (resolve_from (of_node result) P) k.
Proof.
  intros H. unfold resolveValueAtPath. change (foldl resolve_step) with resolve_from.
  by rewrite H, resolve_from_app.
Qed.

Lemma is_boolean_leaf v : is_boolean v = true → not_an_object v = true.
Proof. by destruct v. Qed.

Lemma parseFlag_no_prefixed opts result flagName rawValue result' path :
  startsWith "no-" path = true →
  not_an_object (resolveValueAtPath result path) = true →
  parseFlag opts result flagName rawValue = Ok result' →
  resolveValueAtPath result' path = resolveValueAtPath result path
  ∨ (is_boolean (resolveValueAtPath result path) = true
     ∧ resolveValueAtPath result' path = VBool false).
Proof.
  intros Hno Hleaf. destruct flagName as [name|]; [|intros [= <-]; by left].
  unfold parseFlag.
  destruct (nonempty name); [|intros [= <-]; by left]. simpl.
  destruct (hasConfigPath result (normalizedPath name)) eqn:Hex; [|intros [= <-]; by left]. simpl.
  destruct (parsedValue opts name rawValue (resolveValueAtPath result (normalizedPath name)))
    as [v|msg] eqn:Hpv; [|done].
  simpl. intros [= <-].
  set (q := normalizedPath name) in *.
  destruct (decide (split_on "." q `prefix_of` split_on "." path)) as [[k Hk]|Hqp].
  - (* the flag writes at the path or above it *)
    destruct (isDisabledFlag name) eqn:Hdis.
    2:{ (* a flag without the prefix has another first segment *)
        exfalso.
        destruct (split_on "." q) as [|hq Q] eqn:HQ; [by destruct (split_on_not_nil "." q)|].
        rewrite <- app_comm_cons in Hk.
        pose proof (startsWith_first_segment "." "no-" path hq (Q ++ k) eq_refl Hk) as H1.
        pose proof (startsWith_first_segment "." "no-" q hq Q eq_refl HQ) as H2.
        unfold q in H2. rewrite normalizedPath_plain in H2 by done.
        unfold isDisabledFlag in Hdis. congruence. }
    assert (v = VBool false ∧ is_boolean (resolveValueAtPath result q) = true) as [-> Hbool].
    { revert Hpv. unfold parsedValue, is_boolean, not_boolean. rewrite Hdis. fold q.
      destruct (bool_decide _); simpl; [|done]. by intros [= <-]. }
    pose proof (stores_or_aborts result q (VBool false) Hex) as Hst.
    destruct (no_empty_segment q); [|rewrite Hst; by left].
    destruct Hst as (Hres & _).
    rewrite (resolve_path_app _ path _ k Hk), (resolve_path_app result path _ k Hk).
    change (resolve_from (of_node ?r) (split_on "." q)) with (resolveValueAtPath r q).
    rewrite Hres.
    destruct k as [|k1 k]; [by right|]. left.
    rewrite !resolve_from_leaf; [done | by apply is_boolean_leaf | done].
  - destruct (decide (split_on "." path `prefix_of` split_on "." q)) as [[k Hk]|Hpq].
    + (* the flag writes below the path: the path holds an object *)
      exfalso. destruct k as [|k1 k].
      { destruct Hqp. rewrite Hk, app_nil_r. done. }
      unfold hasConfigPath in Hex. rewrite (resolve_path_app result q _ _ Hk) in Hex.
      destruct (defined_path_inner _ _ _ Hex) as (kd & m & Hobj).
      change (resolve_from (of_node result) (split_on "." path))
        with (resolveValueAtPath result path) in Hobj.
      by rewrite Hobj in Hleaf.
    + left. unfold resolveValueAtPath, assignValueAtPath.
      change (foldl resolve_step) with resolve_from.
      by apply assign_loop_frame_any.
Qed.

(** X7.  In a schema that is a tree of plain data, a path of own data
    properties whose name starts with [no-] can only be switched off: when
    it holds no object, after a run that returns it holds what it held, or
    [false] in place of a boolean.  ([--no-x] addresses [x], so that a key
    [no-x] is reached by [--no-no-x] only, which assigns [false]; in a
    tree no other path leads to the object that has the key.) *)
Theorem no_prefixed_key_only_disabled opts args data result path :
  startsWith "no-" path = true →
  not_an_object (resolveValueAtPath data path) = true →
  arglet data args opts = Ok result →
  resolveValueAtPath result path = resolveValueAtPath data path
  ∨ (is_boolean (resolveValueAtPath data path) = true
     ∧ resolveValueAtPath result path = VBool false).
Proof.
  unfold arglet, structuredClone. rewrite argument_loop_run_flags.
  intros Hno. generalize (flags_of args). intros flags. revert data.
  induction flags as [|[flagName rawValue] flags IH]; intros data Hleaf.
  { intros [= <-]. by left. }
  cbn [run_flags]. intros (r & Hr & Hrun)%bind_Ok.
  destruct (parseFlag_no_prefixed _ _ _ _ _ path Hno Hleaf Hr) as [Hsame|[Hbool Hfalse]].
  - rewrite <- Hsame. apply IH; [by rewrite Hsame | done].
  - destruct (IH r) as [Hsame'|[_ Hfalse']]; [by rewrite Hfalse | done | |].
    + right. split; [done|]. by rewrite Hsame'.
    + by right.
Qed.

Lemma no_prefixed_key_only_disabled_witness :
  resolveValueAtPath (obj [("no-color", VBool false)]) "no-color"
  = resolveValueAtPath (obj [("no-color", VBool true)]) "no-color"
  ∨ (is_boolean (resolveValueAtPath (obj [("no-color", VBool true)]) "no-color") = true
     ∧ resolveValueAtPath (obj [("no-color", VBool false)]) "no-color" = VBool false).
Proof.
  exact (no_prefixed_key_only_disabled default_options ["--no-color"; "--no-no-color"]
           (obj [("no-color", VBool true)]) (obj [("no-color", VBool false)]) "no-color"
           eq_refl eq_refl eq_refl).
Defined.

(** * Properties of the console layer *)

(** ** Output and outcome *)

Lemma console_logger_silent displayName opts message :
  Console.debug opts ≠ Some true → Console.logger_debug displayName opts message = ([], Ok tt).
Proof.
  unfold Console.logger_debug. destruct (Console.debug opts) as [[]|]; done.
Qed.

Lemma console_logger_returns displayName opts message :
  (Console.logger_debug displayName opts message).2 = Ok tt.
Proof. unfold Console.logger_debug. by destruct (negb _). Qed.

Lemma console_bind_outcome {A B} (m : Console.W A) (f : A → Console.W B) :
  (Console.bindW m f).2 = bind m.2 (λ a, (f a).2).
Proof. by destruct m as [out [a|msg]]. Qed.

Lemma console_bind_output {A B} (m : Console.W A) (f : A → Console.W B) :
  m.1 = [] → (∀ a, (f a).1 = []) → (Console.bindW m f).1 = [].
Proof. destruct m as [out [a|msg]]; simpl; intros -> Hf; [by rewrite Hf | done]. Qed.

Lemma console_parsedValue opts sep flagName rawValue existing :
  Console.arraySeparator opts = Some sep →
  Console.parsedValue opts flagName rawValue existing
  = parsedValue (erase opts sep) flagName rawValue existing.
Proof. intros H. unfold Console.parsedValue, parsedValue. by rewrite H. Qed.

Lemma console_parsedValue_debug opts opts' flagName rawValue existing :
  Console.arraySeparator opts = Console.arraySeparator opts' →
  Console.parsedValue opts flagName rawValue existing
  = Console.parsedValue opts' flagName rawValue existing.
Proof. intros H. unfold Console.parsedValue. by rewrite H. Qed.

Lemma console_parseFlag_outcome displayName opts result flagName rawValue :
  (Console.parseFlag displayName opts result flagName rawValue).2
  = match flagName with
    | None => Ok result
    | Some flagName =>
        if negb (nonempty flagName) then Ok result
        else if negb (hasConfigPath result (normalizedPath flagName)) then Ok result
        else bind (Console.parsedValue opts flagName rawValue
                     (resolveValueAtPath result (normalizedPath flagName)))
                  (λ v, Ok (assignValueAtPath result (normalizedPath flagName) v))
    end.
Proof.
  unfold Console.parseFlag. destruct flagName as [flagName|]; [|done].
  destruct (nonempty flagName); [|done]. cbn [negb].
  rewrite console_bind_outcome.
  assert (∀ m : Console.W unit, m.2 = Ok tt → ∀ B (k : unit → outcome B), bind m.2 k = k tt)
    as Hskip by (by intros m -> B k).
  rewrite Hskip.
  2:{ destruct rawValue; [done | apply console_logger_returns]. }
  destruct (hasConfigPath result (normalizedPath flagName)); cbn [negb].
  - rewrite console_bind_outcome. by destruct (Console.parsedValue _ _ _ _).
  - rewrite console_bind_outcome, console_logger_returns. done.
Qed.

Lemma console_parseFlag_silent displayName opts result flagName rawValue :
  Console.debug opts ≠ Some true →
  (Console.parseFlag displayName opts result flagName rawValue).1 = [].
Proof.
  intros Hd. unfold Console.parseFlag. destruct flagName as [flagName|]; [|done].
  destruct (nonempty flagName); [|done]. cbn [negb].
  apply console_bind_output.
  - destruct rawValue; [done | by rewrite console_logger_silent].
  - intros _. destruct (hasConfigPath _ _); cbn [negb].
    + apply console_bind_output; [done | by intros].
    + apply console_bind_output; [by rewrite console_logger_silent | by intros].
Qed.

Lemma console_argument_loop_outcome displayName opts sep args result :
  Console.arraySeparator opts = Some sep →
  (Console.argument_loop displayName opts args result).2
  = argument_loop (erase opts sep) args result.
Proof.
  intros Hsep. revert result. induction args as [|tok rest IH]; intros result; [done|].
  cbn [Console.argument_loop argument_loop].
  destruct (dispatch tok (head rest)) as [[flagName flagValue]|]; [|apply IH].
  rewrite console_bind_outcome, console_parseFlag_outcome.
  assert (∀ o : outcome node,
            bind o (λ a, (Console.argument_loop displayName opts rest a).2)
            = bind o (argument_loop (erase opts sep) rest)) as Hb.
  { intros [a|msg]; [apply IH | done]. }
  rewrite Hb. f_equal. unfold parseFlag.
  destruct flagName as [flagName|]; [|done].
  destruct (nonempty flagName); [|done]. cbn [negb].
  destruct (hasConfigPath _ _); [|done]. cbn [negb].
  by rewrite (console_parsedValue opts sep).
Qed.

Lemma console_argument_loop_debug displayName displayName' opts opts' args result :
  Console.arraySeparator opts = Console.arraySeparator opts' →
  (Console.argument_loop displayName opts args result).2
  = (Console.argument_loop displayName' opts' args result).2.
Proof.
  intros Hsep. revert result. induction args as [|tok rest IH]; intros result; [done|].
  cbn [Console.argument_loop].
  destruct (dispatch tok (head rest)) as [[flagName flagValue]|]; [|apply IH].
  rewrite !console_bind_outcome, !console_parseFlag_outcome.
  destruct flagName as [flagName|]; [|apply IH].
  destruct (nonempty flagName); [|apply IH]. cbn [negb].
  destruct (hasConfigPath _ _); [|apply IH]. cbn [negb].
  rewrite (console_parsedValue_debug opts opts') by done.
  destruct (Console.parsedValue _ _ _ _); [apply IH | done].
Qed.

Lemma console_argument_loop_silent displayName opts args result :
  Console.debug opts ≠ Some true →
  (Console.argument_loop displayName opts args result).1 = [].
Proof.
  intros Hd. revert result. induction args as [|tok rest IH]; intros result; [done|].
  cbn [Console.argument_loop].
  destruct (dispatch tok (head rest)) as [[flagName flagValue]|]; [|apply IH].
  apply console_bind_output; [by apply console_parseFlag_silent | done].
Qed.

Lemma console_run_outcome displayName stringify data args opts :
  (Console.run displayName stringify data args opts).2
  = (Console.argument_loop displayName opts args data).2.
Proof.
  unfold Console.run, structuredClone. rewrite console_bind_outcome.
  destruct (Console.argument_loop _ _ _ _).2 as [r|msg]; [|done]. cbn [bind].
  by rewrite !console_bind_outcome, !console_logger_returns.
Qed.

Lemma console_run_erase displayName stringify data args opts sep :
  Console.arraySeparator opts = Some sep →
  (Console.run displayName stringify data args opts).2 = arglet data args (erase opts sep).
Proof.
  intros Hsep. rewrite console_run_outcome. by apply console_argument_loop_outcome.
Qed.

Lemma console_run_silent displayName stringify data args opts :
  Console.debug opts ≠ Some true →
  (Console.run displayName stringify data args opts).1 = [].
Proof.
  intros Hd. unfold Console.run.
  apply console_bind_output; [by apply console_argument_loop_silent|].
  intros r. apply console_bind_output; [by rewrite console_logger_silent|].
  intros _. apply console_bind_output; [by rewrite console_logger_silent | done].
Qed.

(** X12.  Diagnostic output only observes.  For a schema that is a tree of
    plain data, on which the two calls of [JSON.stringify] return: the
    outcome of a call with its output is the outcome of the value layer;
    it does not depend on [opts.debug], on [pkg.displayName] nor on the
    text [JSON.stringify] returns; and unless [opts.debug] is [true]
    nothing is printed. *)
Theorem debug_only_observes displayName stringify data args opts :
  (∀ sep, Console.arraySeparator opts = Some sep →
     (Console.run displayName stringify data args opts).2 = arglet data args (erase opts sep))
  ∧ (∀ displayName' stringify' opts',
       Console.arraySeparator opts' = Console.arraySeparator opts →
       (Console.run displayName' stringify' data args opts').2
       = (Console.run displayName stringify data args opts).2)
  ∧ (Console.debug opts ≠ Some true →
     (Console.run displayName stringify data args opts).1 = []).
Proof.
  split_and!.
  - intros sep. apply console_run_erase.
  - intros displayName' stringify' opts' Hsep. rewrite !console_run_outcome.
    by apply console_argument_loop_debug.
  - apply console_run_silent.
Qed.

Lemma debug_only_observes_witness :
  (Console.run "arglet" (λ _, "{}") (obj [("watch", VBool false)]) ["--watch"; "--x"]
     {| Console.debug := Some true; Console.arraySeparator := Some Comma |}).2
  = arglet (obj [("watch", VBool false)]) ["--watch"; "--x"] default_options.
Proof.
  exact (proj1 (debug_only_observes "arglet" (λ _, "{}") (obj [("watch", VBool false)])
                  ["--watch"; "--x"]
                  {| Console.debug := Some true; Console.arraySeparator := Some Comma |})
           Comma eq_refl).
Defined.

(** ** The call forms and the defaults *)

Lemma arglet_same_separator data args opts opts' :
  arraySeparator opts = arraySeparator opts' →
  arglet data args opts = arglet data args opts'.
Proof.
  intros Hsep. unfold arglet, structuredClone. revert data.
  induction args as [|tok rest IH]; intros data; [done|].
  cbn [argument_loop].
  destruct (dispatch tok (head rest)) as [[flagName flagValue]|]; [|apply IH].
  assert (parseFlag opts data flagName flagValue = parseFlag opts' data flagName flagValue) as ->.
  { unfold parseFlag, parsedValue. by rewrite Hsep. }
  destruct (parseFlag opts' data flagName flagValue); [apply IH | done].
Qed.

Lemma console_arglet_args displayName stringify p data args options :
  Console.arglet displayName stringify p data (Some (Console.Args args)) (Some options)
  = Console.run displayName stringify data args (Console.resolve_options p options).
Proof. done. Qed.

(** X13.  The call forms.  With the options as second argument the tokens
    are [process.argv.slice(2)] and a third argument is ignored; without a
    second argument the tokens are the same and the options the defaults,
    a third argument being ignored too; a call with tokens and no options
    is the call with [{}].  When the options leave [arraySeparator] out
    the separator is [,]; when they leave [debug] out and the variable
    [DEBUG] of the environment is unset or empty, nothing is printed. *)
Theorem call_forms displayName stringify p data :
  (∀ options explicitOptions,
     Console.arglet displayName stringify p data (Some (Console.Opts options)) explicitOptions
     = Console.arglet displayName stringify p data
         (Some (Console.Args (drop 2 (Console.argv p)))) (Some options))
  ∧ (∀ explicitOptions,
       Console.arglet displayName stringify p data None explicitOptions
       = Console.arglet displayName stringify p data
           (Some (Console.Args (drop 2 (Console.argv p)))) None)
  ∧ (∀ args,
       Console.arglet displayName stringify p data (Some (Console.Args args)) None
       = Console.arglet displayName stringify p data (Some (Console.Args args))
           (Some Console.no_options))
  ∧ (∀ args options,
       Console.user_arraySeparator options = Console.Absent →
       (Console.arglet displayName stringify p data (Some (Console.Args args)) (Some options)).2
       = arglet data args default_options)
  ∧ (∀ args options,
       Console.user_debug options = Console.Absent →
       Console.Boolean (Console.env_DEBUG p) = false →
       (Console.arglet displayName stringify p data (Some (Console.Args args)) (Some options)).1
       = []).
Proof.
  split_and!; try done.
  - intros args options Hsep. rewrite console_arglet_args.
    rewrite (console_run_erase _ _ _ _ _ Comma); [by apply arglet_same_separator|].
    unfold Console.resolve_options. by rewrite Hsep.
  - intros args options Hdebug Henv. rewrite console_arglet_args.
    apply console_run_silent. unfold Console.resolve_options. rewrite Hdebug. cbn.
    by rewrite Henv.
Qed.

Lemma call_forms_witness :
  (Console.arglet "arglet" (λ _, "{}") {| Console.argv := ["node"; "cli.js"; "--watch"];
                                          Console.env_DEBUG := Some "1" |}
     (obj [("watch", VBool false)]) (Some (Console.Args ["--watch"]))
     (Some {| Console.user_debug := Console.Present (Some false);
              Console.user_arraySeparator := Console.Absent |})).2
  = arglet (obj [("watch", VBool false)]) ["--watch"] default_options.
Proof.
  exact (proj1 (proj2 (proj2 (proj2
           (call_forms "arglet" (λ _, "{}")
              {| Console.argv := ["node"; "cli.js"; "--watch"]; Console.env_DEBUG := Some "1" |}
              (obj [("watch", VBool false)])))))
           ["--watch"]
           {| Console.user_debug := Console.Present (Some false);
              Console.user_arraySeparator := Console.Absent |} eq_refl).
Defined.




(** * Properties of the copy and of the dumps *)

(** ** A schema with a cycle *)

Lemma serializable_no_revisit fuel (h : Heap.store) stack l path :
  Dump.serializable fuel h stack (Heap.HRef l) = true →
  Dump.chain h l path → length path < fuel →
  NoDup (l :: path) ∧ ∀ x, x ∈ l :: path → x ∉ stack.
Proof.
  revert stack l path. induction fuel as [|fuel IH]; intros stack l path Hser Hch Hlen.
  { simpl in Hser. by case_decide. }
  cbn [Dump.serializable] in Hser. case_decide as Hl; [done|].
  destruct path as [|b path].
  { split; [apply NoDup_singleton|]. by intros x ->%list_elem_of_singleton. }
  destruct Hch as [(o & key & Ho & Hkey) Hch]. rewrite Ho in Hser.
  rewrite forallb_forall in Hser.
  specialize (Hser (key, Heap.HRef b)). cbn [snd] in Hser.
  destruct (IH ({[l]} ∪ stack) b path) as [Hnd Hout].
  - apply Hser. by apply list_elem_of_In, elem_of_map_to_list.
  - done.
  - simpl in Hlen. lia.
  - split.
    + apply NoDup_cons. split; [|done]. intros Hin. specialize (Hout l Hin). set_solver.
    + intros x [->|Hin]%elem_of_cons; [done|]. specialize (Hout x Hin). set_solver.
Qed.

Lemma first_repeat {A} `{EqDecision A} (l : list A) :
  ¬ NoDup l → ∃ pre x suf, l = pre ++ x :: suf ∧ NoDup pre ∧ x ∈ pre.
Proof.
  induction l as [|y l IH] using rev_ind; intros Hnd.
  { destruct Hnd. constructor. }
  destruct (decide (NoDup l)) as [Hl|Hl].
  - exists l, y, []. split_and!; [done..|].
    destruct (decide (y ∈ l)) as [|Hy]; [done|]. destruct Hnd.
    apply NoDup_app. split_and!; [done| |apply NoDup_singleton].
    intros x Hx ->%list_elem_of_singleton. done.
  - destruct (IH Hl) as (pre & x & suf & -> & Hpre & Hx).
    exists pre, x, (suf ++ [y]). split_and!; [|done..]. by rewrite <- app_assoc.
Qed.

Lemma chain_app (h : Heap.store) a p1 b p2 :
  Dump.chain h a (p1 ++ b :: p2) → Dump.chain h a (p1 ++ [b]) ∧ Dump.chain h b p2.
Proof.
  revert a. induction p1 as [|c p1 IH]; intros a; simpl.
  - intros [? ?]. done.
  - intros [? [? ?]%IH]. done.
Qed.

Lemma chain_sources (h : Heap.store) a path :
  Dump.chain h a path → ∀ x, x ∈ removelast (a :: path) → x ∈ dom h.
Proof.
  revert a. induction path as [|b path IH]; intros a Hch x.
  { simpl. by intros ?%elem_of_nil. }
  destruct Hch as [(o & key & Ho & _) Hch].
  change (removelast (a :: b :: path)) with (a :: removelast (b :: path)).
  intros [->|Hin]%elem_of_cons; [apply elem_of_dom; by eexists | by eapply IH].
Qed.


Lemma NoDup_length_le (l : list Heap.loc) (X : gset Heap.loc) :
  NoDup l → (∀ x, x ∈ l → x ∈ X) → length l ≤ size X.
Proof.
  intros Hnd Hsub. rewrite <- (size_list_to_set (C:=gset Heap.loc) l Hnd).
  apply subseteq_size. intros x Hx%elem_of_list_to_set. by apply Hsub.
Qed.

Lemma cyclic_not_serializable (h : Heap.store) data :
  Dump.cyclic h data → Dump.serializable (S (size h)) h ∅ (Heap.HRef data) = false.
Proof.
  intros (path & Hch & Hnd).
  destruct (Dump.serializable _ _ _ _) eqn:Hser; [exfalso|done].
  destruct (first_repeat _ Hnd) as (pre & x & suf & Hl & Hpre & Hx).
  destruct pre as [|a pre]; [by apply elem_of_nil in Hx|].
  rewrite <- app_comm_cons in Hl. injection Hl as <- ->.
  apply chain_app in Hch as [Hch _].
  destruct (serializable_no_revisit _ _ _ _ _ Hser Hch) as [Hnd' _].
  - rewrite length_app. simpl.
    assert (length (data :: pre) ≤ size (dom h)); [|rewrite size_dom in *; simpl in *; lia].
    apply NoDup_length_le; [done|]. intros y Hy. eapply (chain_sources h data (pre ++ [x])); [done|].
    rewrite app_comm_cons, removelast_last. done.
  - rewrite app_comm_cons in Hnd'. apply NoDup_app in Hnd' as (_ & Hnd' & _).
    apply (Hnd' x Hx). by apply list_elem_of_singleton.
Qed.



(** The fuel of [serializable] bounds the depth of the walk, which the
    objects outside the stack bound: any fuel above their number gives the
    same answer. *)

Lemma forallb_ext_in {A} (f g : A → bool) (l : list A) :
  (∀ x, x ∈ l → f x = g x) → forallb f l = forallb g l.
Proof.
  induction l as [|a l IH]; intros H; [done|]. simpl.
  rewrite (H a) by left. rewrite IH; [done|]. intros x Hx. apply H. by right.
Qed.

Lemma serializable_fuel n m (h : Heap.store) stack v :
  size (dom h ∖ stack) < n → size (dom h ∖ stack) < m →
  Dump.serializable n h stack v = Dump.serializable m h stack v.
Proof.
  revert m stack v. induction n as [|n IH]; intros m stack v Hn Hm; [lia|].
  destruct m as [|m]; [lia|].
  destruct v as [| | | | |l]; try done.
  cbn [Dump.serializable]. case_decide as Hl; [done|].
  destruct (h !! l) as [o|] eqn:Ho; [|done].
  apply forallb_ext_in. intros [key v'] _. cbn [snd].
  assert (dom h ∖ ({[l]} ∪ stack) ⊂ dom h ∖ stack) as Hlt%subset_size.
  { assert (l ∈ dom h) by (apply elem_of_dom; by eexists). set_solver. }
  apply IH; lia.
Qed.

(** ** A schema that is a tree *)

Lemma tree_serializable d (h : Heap.store) F v t fuel stack :
  Heap.tree_at d h F v t → F ## stack → size F < fuel →
  Dump.serializable fuel h stack v = true.
Proof.
  revert F v t fuel stack. induction d as [|d IH]; intros F v t fuel stack Ht Hdisj Hfuel;
    destruct v as [| | | | |l]; try (by destruct fuel).
  { by destruct t. }
  destruct (tree_at_ref_inv _ _ _ _ _ Ht) as (k & m & ->).
  destruct (tree_at_obj_inv _ _ _ _ _ _ Ht)
    as (d' & l0 & o & Fs & [= <-] & [= <-] & Ho & _ & Hl & Hch & _).
  destruct fuel as [|fuel]; [lia|].
  cbn [Dump.serializable]. rewrite decide_False by set_solver. rewrite Ho.
  apply forallb_forall. intros [key v'] Hin%list_elem_of_In%elem_of_map_to_list. cbn [snd].
  specialize (Hch key). rewrite Hin in Hch.
  destruct (m !! key) as [t'|], (Fs !! key) as [Fk|]; try done.
  destruct Hch as (Ht' & HFk & HlFk).
  apply (IH Fk _ t'); [done | set_solver |].
  assert (Fk ⊂ F) as Hlt%subset_size by set_solver. lia.
Qed.

Lemma tree_stringify d (h : Heap.store) F l t :
  Heap.tree_at d h F (Heap.HRef l) t → F ⊆ dom h →
  Dump.JSON_stringify l h = (Ok tt, h).
Proof.
  intros Ht HF. unfold Dump.JSON_stringify, Heap.bindM, Heap.get_store.
  rewrite (tree_serializable d h F _ t); [done | done | set_solver |].
  apply subseteq_size in HF. rewrite size_dom in HF. lia.
Qed.

(** On a tree the dumps return: the call is the call without them. *)

Lemma tree_arglet_dumps data schema args opts d (h : Heap.store) F :
  Heap.tree_at d h F (Heap.HRef data) (of_node schema) → F ⊆ dom h →
  Dump.arglet data args opts h = Heap.arglet data args opts h.
Proof.
  intros Ht HF.
  unfold Dump.arglet, Heap.arglet.
  pose proof (arglet_working h data args opts) as [Hsub _].
  unfold Heap.arglet in Hsub. unfold Heap.bindM at 1 5.
  unfold Heap.structuredClone in *.
  destruct (Heap.clone_object (S (size h)) data h ∅) as [[[l' h1] seen']|] eqn:Hc; [|done].
  assert (dom (∅ : gmap Heap.loc Heap.loc) ## F) as Hempty by set_solver.
  destruct (tree_clone _ _ _ _ _ _ _ _ _ _ Ht HF Hempty Hc) as (Ht1 & _ & _).
  pose proof (tree_argument_loop opts args d h1 _ l' schema Ht1 ltac:(set_solver)) as Hloop.
  unfold Heap.bindM in *.
  rewrite Hc in Hsub.
  destruct (Heap.argument_loop opts args l' h1) as [[[]|msg] h2]; [|done].
  destruct (argument_loop opts args schema) as [R|msg']; [|by simpl in Hloop].
  destruct Hloop as (d' & F' & Ht2 & HF'). simpl in Hsub.
  rewrite (tree_stringify d h2 F data (of_node schema)).
  - by rewrite (tree_stringify d' h2 F' l' (of_node R)).
  - eapply tree_at_frame; [|done]. by apply subseteq_agree.
  - etrans; [done|]. by apply subseteq_dom.
Qed.

(** X16.  On a schema that is a tree, the call of the store layer, dumps
    included, and the call of the value layer throw alike, and the object
    the first returns unfolds to the tree the second returns. *)
Theorem merge_of_a_tree data schema args opts d (h : Heap.store) F :
  Heap.tree_at d h F (Heap.HRef data) (of_node schema) → F ⊆ dom h → Heap.closed h = true →
  match Dump.arglet data args opts h, arglet schema args opts with
  | (Throw m, _), Throw m' => m = m'
  | (Ok result, h'), Ok R =>
      ∃ d', ∀ depth, d' ≤ depth → Heap.snapshot depth h' (Heap.HRef result) = of_node R
  | _, _ => False
  end.
Proof.
  intros Ht HF Hclosed.
  rewrite (tree_arglet_dumps data schema args opts d h F Ht HF).
  by eapply layers_agree.
Qed.

Lemma merge_of_a_tree_witness :
  match Dump.arglet 1%positive ["--verbose"; "--server.host=0.0.0.0"] default_options sample_store,
        arglet (obj [("verbose", VBool false);
                     ("server", of_node (obj [("host", VStr "localhost")]))])
          ["--verbose"; "--server.host=0.0.0.0"] default_options with
  | (Throw m, _), Throw m' => m = m'
  | (Ok result, h'), Ok R =>
      ∃ d', ∀ depth, d' ≤ depth → Heap.snapshot depth h' (Heap.HRef result) = of_node R
  | _, _ => False
  end.
Proof.
  apply (merge_of_a_tree 1%positive _ _ _ 2 sample_store {[ 1%positive; 2%positive ]}).
  - exact sample_store_tree.
  - set_solver.
  - reflexivity.
Defined.

Lemma heap_parseFlag_empty_name opts result rawValue (h : Heap.store) :
  Heap.parseFlag opts result (Some "") rawValue h = (Ok tt, h).
Proof. done. Qed.

Lemma heap_argument_loop_no_flag opts args result (h : Heap.store) :
  forallb names_no_flag args = true →
  Heap.argument_loop opts args result h = (Ok tt, h).
Proof.
  induction args as [|token rest IH]; [done|].
  intros [Htok Hrest]%andb_true_iff. cbn [Heap.argument_loop].
  destruct (dispatch_names_no_flag token (head rest) Htok) as [-> | [v ->]]; [by apply IH|].
  unfold Heap.bindM. rewrite heap_parseFlag_empty_name. by apply IH.
Qed.

(** ** The copy shares nothing with the schema *)

Lemma dump_stringify_store l (h : Heap.store) : (Dump.JSON_stringify l h).2 = h.
Proof.
  unfold Dump.JSON_stringify, Heap.bindM, Heap.get_store.
  by destruct (Dump.serializable _ _ _ _).
Qed.

Lemma dump_arglet_returns data args opts (h : Heap.store) result h' :
  Dump.arglet data args opts h = (Ok result, h') →
  Heap.arglet data args opts h = (Ok result, h').
Proof.
  unfold Dump.arglet, Heap.arglet, Heap.bindM.
  destruct (Heap.structuredClone data h) as [[r|msg] h1]; [|done].
  destruct (Heap.argument_loop opts args r h1) as [[[]|msg] h2]; [|done].
  pose proof (dump_stringify_store data h2) as H1.
  destruct (Dump.JSON_stringify data h2) as [[[]|msg] h3]; [|done]. simpl in H1. subst h3.
  pose proof (dump_stringify_store r h2) as H2.
  destruct (Dump.JSON_stringify r h2) as [[[]|msg] h3]; [|done]. simpl in H2. by subst h3.
Qed.

Lemma arglet_result_new data args opts (h : Heap.store) result h' :
  Heap.arglet data args opts h = (Ok result, h') → h !! result = None.
Proof.
  unfold Heap.arglet, Heap.bindM.
  destruct (structuredClone_working h data h (working_start h)) as [_ Hres].
  destruct (Heap.structuredClone data h) as [[r|msg] h1]; [|done].
  destruct (Heap.argument_loop opts args r h1) as [[[]|msg] h2]; [|done].
  intros [= <- <-]. by apply Hres.
Qed.

(** X19.  The working copy and the schema share no object: no object
    reached from the object the call returns, along any chain of
    properties, is an object of the store of the caller. *)
Theorem working_copy_is_separate data args opts (h : Heap.store) result h' :
  Dump.arglet data args opts h = (Ok result, h') →
  ∀ path x, Dump.chain h' result path → x ∈ result :: path → h !! x = None.
Proof.
  intros Hrun%dump_arglet_returns.
  pose proof (arglet_working h data args opts) as [_ Hnew].
  pose proof (arglet_result_new _ _ _ _ _ _ Hrun) as Hres.
  rewrite Hrun in Hnew. cbn [snd] in Hnew.
  intros path. revert Hres. generalize result. clear Hrun.
  induction path as [|b path IH]; intros a Ha x Hch.
  - by intros ->%list_elem_of_singleton.
  - destruct Hch as [(o & key & Ho & Hkey) Hch].
    intros [->|Hin]%elem_of_cons; [done|].
    apply (IH b); [|done..]. exact (Hnew a o key (Heap.HRef b) Ha Ho Hkey).
Qed.

Lemma working_copy_is_separate_witness :
  sample_store !! 4%positive = None.
Proof.
  apply (working_copy_is_separate 1%positive ["--server.host=0.0.0.0"] default_options
           sample_store 3%positive
           (Dump.arglet 1%positive ["--server.host=0.0.0.0"] default_options sample_store).2
           ltac:(vm_compute; reflexivity) [4%positive]).
  - split; [|done]. vm_compute. eexists _, "server". split; reflexivity.
  - set_solver.
Defined.

(** ** [structuredClone] on a schema of any shape

    Every object reached is copied once; when the copy of an object is
    finished its properties hold the copies of what the properties of the
    object hold.  Objects are finished from the leaves up, and an object
    met again while its copy is being filled is referred to by that
    copy. *)

Lemma copied_value_mono seen seen' v v' :
  seen ⊆ seen' → copied_value seen v v' → copied_value seen' v v'.
Proof.
  intros Hsub. destruct v as [| | | | |x]; try done.
  intros (y & Hy & ->). exists y. split; [by eapply lookup_weaken | done].
Qed.

Lemma copy_done_agree (h0 h h' : Heap.store) seen seen' a :
  seen ⊆ seen' → (∀ b, seen !! a = Some b → h' !! b = h !! b) →
  copy_done h0 h seen a → copy_done h0 h' seen' a.
Proof.
  intros Hsub Hagree (oa & b & ob & Ha & Hb & Hob & Hk & Hprops).
  exists oa, b, ob. split_and!; [done | by eapply lookup_weaken | by rewrite Hagree | done |].
  intros key. specialize (Hprops key).
  destruct (Heap.oprops oa !! key), (Heap.oprops ob !! key); try done.
  by eapply copied_value_mono.
Qed.

Section clone_copies.
Import Heap.

Variable h0 : store.
Hypothesis h0_closed : closed h0 = true.

Lemma clone_object_copies fuel :
  ∀ l h seen opened l' h' seen',
    clone_inv h0 opened h seen → is_Some (h0 !! l) →
    clone_object fuel l h seen = Some (l', h', seen') →
    clone_inv h0 opened h' seen' ∧ h ⊆ h' ∧ seen ⊆ seen' ∧ seen' !! l = Some l'.
Proof.
  induction fuel as [|fuel IH]; intros l h seen opened l' h' seen' Hinv [o0 Ho0].
  { simpl. destruct (seen !! l) as [b|] eqn:Hl; [|done]. by intros [= <- <- <-]. }
  simpl. destruct (seen !! l) as [b|] eqn:Hl; [by intros [= <- <- <-]|].
  destruct Hinv as (Hsub & Hdom & Hrange & Hinj & Hdone).
  rewrite (lookup_weaken _ _ _ _ Ho0 Hsub).
  set (l1 := fresh (dom h)). set (h1 := <[l1 := Object (okind o0) ∅]> h).
  set (seen1 := <[l := l1]> seen).
  assert (l1 ∉ dom h) as Hl1 by apply is_fresh.
  assert (h !! l1 = None) as Hl1' by (by apply not_elem_of_dom).
  assert (h0 !! l1 = None) as Hl1''.
  { destruct (h0 !! l1) eqn:E; [|done]. eapply lookup_weaken in E; [|done]. congruence. }
  assert (seen ⊆ seen1) as Hseen1 by (by apply insert_subseteq).
  assert (h ⊆ h1) as Hh1 by (by apply insert_subseteq).
  match goal with
  | |- match foldl ?f ?init ?kvs with _ => _ end = _ → _ =>
      destruct (foldl f init kvs) as [[h2 seen2]|] eqn:Hfold; [|done]
  end.
  intros [= <- <- <-].
  set (Inv := λ (pre : list (string * hvalue)) (st : store * gmap loc loc),
    h ⊆ st.1 ∧ seen1 ⊆ st.2 ∧ clone_inv h0 (opened ∪ {[l]}) st.1 st.2 ∧
    ∃ P, st.1 !! l1 = Some (Object (okind o0) P) ∧
         (∀ key v', P !! key = Some v' → ∃ v, (key, v) ∈ pre ∧ copied_value st.2 v v') ∧
         (∀ key v, (key, v) ∈ pre → is_Some (P !! key))).
  cut (Inv (map_to_list (oprops o0)) (h2, seen2)).
  { intros (Hh2 & Hs2 & (Hsub2 & Hdom2 & Hrange2 & Hinj2 & Hdone2) & P & HP & HP1 & HP2).
    simpl in *.
    assert (seen2 !! l = Some l1) as Hl2.
    { apply (lookup_weaken seen1 seen2); [apply lookup_insert_eq | done]. }
    split_and!; [|done|by etrans|done].
    split_and!; [done..|].
    intros a Ha Hop. destruct (decide (a = l)) as [->|Hal]; [|apply Hdone2; set_solver].
    exists o0, l1, (Object (okind o0) P). split_and!; [done..|].
    intros key. simpl.
    destruct (oprops o0 !! key) as [v|] eqn:Hv, (P !! key) as [v'|] eqn:Hv'; try done.
    - destruct (HP1 _ _ Hv') as (v2 & Hin%elem_of_map_to_list & Hcopy). congruence.
    - destruct (HP2 key v) as [? ?]; [by apply elem_of_map_to_list | congruence].
    - destruct (HP1 _ _ Hv') as (v2 & Hin%elem_of_map_to_list & _). congruence. }
  revert Hfold. apply (foldl_option_prefix _ Inv).
  - done.
  - (* before the first property *)
    split_and!; simpl; [done | done | |].
    + split_and!.
      * by etrans.
      * unfold seen1. rewrite dom_insert_L.
        assert (l ∈ dom h0) by (apply elem_of_dom; by eexists). set_solver.
      * intros a b. unfold seen1, h1. rewrite lookup_insert.
        case_decide.
        -- intros [= <-]. rewrite lookup_insert_eq. split; [by eexists | done].
        -- intros Hab. destruct (Hrange a b Hab) as [[ob Hob] ?]. split; [|done].
           exists ob. by eapply lookup_weaken.
      * intros a a' b. unfold seen1. rewrite !lookup_insert.
        repeat case_decide; subst; try done.
        -- intros [= <-] Ha'. destruct (Hrange _ _ Ha') as [[? ?] _]. congruence.
        -- intros Ha [= <-]. destruct (Hrange _ _ Ha) as [[? ?] _]. congruence.
        -- apply Hinj.
      * intros a Ha Hop. apply (copy_done_agree h0 h h1 seen seen1); [done| |].
        -- intros b Hb. destruct (Hrange _ _ Hb) as [[ob Hob] _].
           by rewrite Hob, (lookup_weaken _ _ _ _ Hob Hh1).
        -- apply Hdone; [|set_solver]. unfold seen1 in Ha. rewrite dom_insert_L in Ha. set_solver.
    + exists ∅. split_and!; [apply lookup_insert_eq | by intros ?? ?%lookup_empty_Some |].
      intros key v Hin. by apply elem_of_nil in Hin.
  - (* one more property *)
    intros pre [key v] suf [hc seenc] [hc1 seenc1] Hkvs
      (Hhc & Hsc & Hinvc & P & HP & HP1 & HP2). simpl in *.
    assert (oprops o0 !! key = Some v) as Hv.
    { apply elem_of_map_to_list. rewrite Hkvs. set_solver. }
    assert (∀ hx seenx v',
      hc ⊆ hx → seenc ⊆ seenx → clone_inv h0 (opened ∪ {[l]}) hx seenx →
      copied_value seenx v v' →
      Inv (pre ++ [(key, v)]) (store_key l1 key v' hx, seenx)) as Hput.
    { intros hx seenx v' Hhx Hsx (Hsubx & Hdomx & Hrangex & Hinjx & Hdonex) Hcopy.
      assert (seenx !! l = Some l1) as Hlx.
      { apply (lookup_weaken seen1 seenx); [apply lookup_insert_eq | by etrans]. }
      assert (hx !! l1 = Some (Object (okind o0) P)) as HPx by (by eapply lookup_weaken).
      split_and!; simpl.
      - apply store_key_subseteq; [by etrans | done].
      - by etrans.
      - split_and!.
        + apply store_key_subseteq; [done|]. by apply not_elem_of_dom.
        + done.
        + intros a b Hab. destruct (Hrangex a b Hab) as [Hb ?]. split; [|done].
          apply elem_of_dom. rewrite store_key_dom. by apply elem_of_dom.
        + done.
        + intros a Ha Hop. apply (copy_done_agree h0 hx _ seenx seenx); [done| |by apply Hdonex].
          intros b Hb. apply store_key_lookup_ne. intros <-.
          assert (a = l) by (by eapply Hinjx). set_solver.
      - exists (<[key := v']> P). split_and!.
        + by rewrite (store_key_lookup _ _ _ _ (Object (okind o0) P)).
        + intros key' v''. destruct (decide (key' = key)) as [->|Hne].
          * rewrite lookup_insert_eq. intros [= <-]. exists v. split; [set_solver | done].
          * rewrite lookup_insert_ne by done. intros (v2 & Hin & Hc2)%HP1.
            exists v2. split; [set_solver | by eapply copied_value_mono]. 
        + intros key' v2 [Hin|Hin]%elem_of_app.
          * destruct (decide (key' = key)) as [->|Hne];
              [by rewrite lookup_insert_eq | rewrite lookup_insert_ne by done; by eapply HP2].
          * apply list_elem_of_singleton in Hin. injection Hin as -> ->.
            by rewrite lookup_insert_eq. }
    destruct v as [| | | | |c];
      try (intros [= <- <-]; by apply Hput).
    destruct (clone_object fuel c hc seenc) as [[[c' hc'] seenc']|] eqn:Hc; [|done].
    intros [= <- <-].
    destruct (IH c hc seenc (opened ∪ {[l]}) c' hc' seenc' Hinvc) as (Hinv' & Hh' & Hs' & Hc').
    { pose proof (closed_allocated h0 l o0 key (HRef c) h0_closed Ho0 Hv) as Hal.
      simpl in Hal. by apply bool_decide_eq_true in Hal. }
    { done. }
    apply Hput; [done..|]. by exists c'.
Qed.

End clone_copies.

Lemma copies_deep_equal (h0 h : Heap.store) seen :
  (∀ a, a ∈ dom seen → copy_done h0 h seen a) →
  ∀ depth v v', copied_value seen v v' → Heap.snapshot depth h v' = Heap.snapshot depth h0 v.
Proof.
  intros Hdone. induction depth as [|depth IH]; intros v v' Hcopy.
  - destruct v as [| | | | |x]; simpl in Hcopy; try (by subst).
    by destruct Hcopy as (y & _ & ->).
  - destruct v as [| | | | |x]; simpl in Hcopy; try (by subst).
    destruct Hcopy as (y & Hy & ->).
    destruct (Hdone x) as (oa & b & ob & Ha & Hb & Hob & Hk & Hprops).
    { apply elem_of_dom. by eexists. }
    assert (b = y) as -> by congruence.
    cbn [Heap.snapshot]. rewrite Ha, Hob, Hk. f_equal.
    apply map_eq. intros key. rewrite !lookup_fmap. specialize (Hprops key).
    destruct (Heap.oprops oa !! key), (Heap.oprops ob !! key); try done.
    simpl. f_equal. by apply IH.
Qed.

Lemma structuredClone_copies data (h : Heap.store) :
  Heap.closed h = true → Heap.allocated h (Heap.HRef data) = true →
  ∃ result h' seen,
    Heap.structuredClone data h = (Ok result, h')
    ∧ clone_inv h ∅ h' seen
    ∧ seen !! data = Some result.
Proof.
  intros Hclosed Hdata.
  destruct (structuredClone_returns data h Hclosed Hdata) as (result & Hres).
  simpl in Hdata. apply bool_decide_eq_true in Hdata.
  unfold Heap.structuredClone in *.
  destruct (Heap.clone_object (S (size h)) data h ∅) as [[[l' h'] seen']|] eqn:Hc; [|done].
  simpl in Hres. injection Hres as ->.
  assert (clone_inv h ∅ h ∅) as Hinit.
  { split_and!; [done | set_solver | by intros ?? ?%lookup_empty_Some
                | by intros ??? ?%lookup_empty_Some | set_solver]. }
  destruct (clone_object_copies h Hclosed _ _ _ _ _ _ _ _ Hinit Hdata Hc)
    as (Hinv & _ & _ & Hl).
  by exists result, h', seen'.
Qed.

(** X18.  [structuredClone(data)] returns a new object that is deep-equal
    to [data], for a schema of any shape, shared objects and cycles
    included, and leaves the store of the caller as it was. *)
Theorem clone_is_deep_equal data (h : Heap.store) :
  Heap.closed h = true → Heap.allocated h (Heap.HRef data) = true →
  ∃ result h',
    Heap.structuredClone data h = (Ok result, h')
    ∧ h !! result = None
    ∧ h ⊆ h'
    ∧ Heap.deep_equal h' (Heap.HRef result) h (Heap.HRef data).
Proof.
  intros Hclosed Hdata.
  destruct (structuredClone_copies data h Hclosed Hdata)
    as (result & h' & seen & Hclone & (Hsub & Hdom & Hrange & Hinj & Hdone) & Hl).
  exists result, h'. split_and!; [done| |done|].
  - by destruct (Hrange _ _ Hl).
  - intros depth. apply (copies_deep_equal h h' seen).
    + intros a Ha. apply Hdone; [done | set_solver].
    + by exists result.
Qed.

Lemma clone_is_deep_equal_witness :
  ∃ result h',
    Heap.structuredClone 1%positive cyclic_store = (Ok result, h')
    ∧ cyclic_store !! result = None
    ∧ cyclic_store ⊆ h'
    ∧ Heap.deep_equal h' (Heap.HRef result) cyclic_store (Heap.HRef 1%positive).
Proof. exact (clone_is_deep_equal 1%positive cyclic_store eq_refl eq_refl). Defined.

(** * Properties of one flag in the store *)

(** ** One flag, one write *)

Lemma heap_resolve_undef (h : Heap.store) segments :
  foldl (Heap.resolve_step h) Heap.HUndef segments = Heap.HUndef.
Proof. induction segments as [|s segs IH]; [done|]. exact IH. Qed.

Lemma heap_resolve_step_defined (h : Heap.store) current key :
  Heap.is_defined (Heap.resolve_step h current key) = true →
  ∃ l o, current = Heap.HRef l ∧ h !! l = Some o
         ∧ Heap.oprops o !! key = Some (Heap.resolve_step h current key)
         ∧ Heap.read h l key = Heap.resolve_step h current key.
Proof.
  unfold Heap.resolve_step, Heap.holds_key, Heap.read.
  destruct current as [| | | | |l]; try done.
  destruct (h !! l) as [o|] eqn:Ho; [|done].
  destruct (Heap.oprops o !! key) as [v|] eqn:Hv.
  - rewrite bool_decide_eq_true_2 by (by eexists). simpl. intros _. exists l, o.
    by rewrite Ho, Hv.
  - by rewrite bool_decide_eq_false_2 by (by intros [? ?]).
Qed.

Lemma heap_resolve_defined_cons (h : Heap.store) current key rest :
  Heap.is_defined (foldl (Heap.resolve_step h) current (key :: rest)) = true →
  Heap.is_defined (Heap.resolve_step h current key) = true.
Proof.
  simpl. destruct (Heap.resolve_step h current key) eqn:E; try done.
  by rewrite heap_resolve_undef.
Qed.

(** Along a path that exists, [assignValueAtPath] writes one property of
    one object: the last segment, in the object the segments before it
    lead to. *)
Lemma heap_assign_existing segments :
  ∀ cur (h : Heap.store) v,
    Heap.is_defined (foldl (Heap.resolve_step h) (Heap.HRef cur) segments) = true →
    segments ≠ [] →
    Heap.assign_loop segments v cur h = (Ok tt, h)
    ∨ ∃ parent key y,
        segments = parent ++ [key]
        ∧ foldl (Heap.resolve_step h) (Heap.HRef cur) parent = Heap.HRef y
        ∧ is_Some (h !! y)
        ∧ Heap.assign_loop segments v cur h = (Ok tt, Heap.store_key y key v h).
Proof.
  induction segments as [|segment rest IH]; intros cur h v Hdef Hnil; [done|].
  destruct (nonempty segment) eqn:Hseg; [|left; simpl; by rewrite Hseg].
  pose proof (heap_resolve_defined_cons _ _ _ _ Hdef) as Hstep.
  destruct (heap_resolve_step_defined _ _ _ Hstep) as (l & o & [= <-] & Ho & Hkey & Hread).
  destruct rest as [|s2 rest].
  - right. exists [], segment, cur. split_and!; [done | done | by eexists |].
    by apply heap_assign_loop_last.
  - simpl in Hdef.
    pose proof (heap_resolve_defined_cons h _ s2 rest Hdef) as Hstep2.
    destruct (heap_resolve_step_defined _ _ _ Hstep2) as (child & oc & Hchild & _).
    rewrite (heap_assign_loop_descend _ _ _ _ _ _ child) by (done || congruence).
    destruct (IH child h v) as [Hsame|(parent & key & y & Hsplit & Hparent & Hy & Hassign)];
      [by rewrite <- Hchild | done | by left |].
    right. exists (segment :: parent), key, y. split_and!; [by rewrite Hsplit | | done | done].
    cbn [foldl]. by rewrite Hchild.
Qed.

Lemma heap_resolve_weaken (h h1 : Heap.store) segments :
  h ⊆ h1 →
  ∀ current,
    Heap.is_defined (foldl (Heap.resolve_step h) current segments) = true →
    foldl (Heap.resolve_step h1) current segments = foldl (Heap.resolve_step h) current segments.
Proof.
  intros Hsub. induction segments as [|key rest IH]; intros current Hdef; [done|].
  pose proof (heap_resolve_defined_cons _ _ _ _ Hdef) as Hstep.
  destruct (heap_resolve_step_defined _ _ _ Hstep) as (l & o & -> & Ho & Hkey & Hread).
  cbn [foldl] in *.
  assert (Heap.resolve_step h1 (Heap.HRef l) key = Heap.resolve_step h (Heap.HRef l) key) as ->.
  { unfold Heap.resolve_step, Heap.holds_key, Heap.read.
    by rewrite Ho, (lookup_weaken _ _ _ _ Ho Hsub). }
  by apply IH.
Qed.

Lemma heap_resolve_prefix (h : Heap.store) current parent key :
  Heap.is_defined (foldl (Heap.resolve_step h) current (parent ++ [key])) = true →
  Heap.is_defined (foldl (Heap.resolve_step h) current parent) = true.
Proof.
  rewrite foldl_app. simpl.
  destruct (foldl (Heap.resolve_step h) current parent); done.
Qed.

(** What [parsedValue] does to the store: nothing, or the allocation of
    the array it returns. *)
Lemma heap_parsedValue_store opts flagName rawValue existing (h h1 : Heap.store) v :
  Heap.parsedValue opts flagName rawValue existing h = (Ok v, h1) →
  (h1 = h ∧ ∀ l, v ≠ Heap.HRef l)
  ∨ ∃ l o, h !! l = None ∧ v = Heap.HRef l ∧ h1 = <[l := o]> h
           ∧ ∀ key w, Heap.oprops o !! key = Some w → ∀ l', w ≠ Heap.HRef l'.
Proof.
  unfold Heap.parsedValue.
  destruct (isDisabledFlag flagName).
  { destruct (Heap.not_boolean existing); [done|]. intros [= <- <-]. by left. }
  destruct rawValue as [raw|].
  2:{ destruct (Heap.not_boolean existing); [done|]. intros [= <- <-]. by left. }
  destruct (includes _ raw); [|intros [= <- <-]; by left].
  unfold Heap.alloc_array, Heap.bindM, Heap.alloc, Heap.ret. intros [= <- <-].
  right. eexists _, _. split; [apply not_elem_of_dom, is_fresh|].
  split; [done|]. split; [done|].
  simpl. intros key w Hk l' ->.
  by apply elem_of_list_to_map_2, elem_of_lookup_imap in Hk as (i & s & [= _ ?] & _).
Qed.

Lemma heap_parseFlag_effect opts result flagName rawValue (h h' : Heap.store) :
  Heap.parseFlag opts result (Some flagName) rawValue h = (Ok tt, h') →
  h' = h
  ∨ ∃ v h1,
      Heap.parsedValue opts flagName rawValue
        (Heap.resolveValueAtPath h result (normalizedPath flagName)) h = (Ok v, h1)
      ∧ h ⊆ h1
      ∧ (h' = h1
         ∨ ∃ parent key y,
             split_on "." (normalizedPath flagName) = parent ++ [key]
             ∧ foldl (Heap.resolve_step h) (Heap.HRef result) parent = Heap.HRef y
             ∧ is_Some (h !! y)
             ∧ h' = Heap.store_key y key v h1).
Proof.
  unfold Heap.parseFlag.
  destruct (nonempty flagName); [|intros [= <-]; by left]. cbn [negb].
  unfold Heap.bindM at 1. cbn [Heap.get_store].
  destruct (Heap.hasConfigPath h result (normalizedPath flagName)) eqn:Hex;
    [|intros [= <-]; by left].
  cbn [negb]. unfold Heap.bindM.
  destruct (Heap.parsedValue _ _ _ _ h) as [[v|msg] h1] eqn:Hpv; [|done].
  assert (h ⊆ h1) as Hsub.
  { destruct (heap_parsedValue_store _ _ _ _ _ _ _ Hpv) as [[-> _]|(l & o & Hl & _ & -> & _)];
      [done | by apply insert_subseteq]. }
  unfold Heap.assignValueAtPath, Heap.hasConfigPath, Heap.resolveValueAtPath in *.
  intros Hrun. right. exists v, h1. split; [done|]. split; [done|].
  destruct (heap_assign_existing (split_on "." (normalizedPath flagName)) result h1 v)
    as [Hsame|(parent & key & y & Hsplit & Hparent & _ & Hassign)].
  - by rewrite (heap_resolve_weaken h h1 _ Hsub _ Hex).
  - apply split_on_not_nil.
  - left. congruence.
  - right. exists parent, key, y.
    assert (foldl (Heap.resolve_step h) (Heap.HRef result) parent = Heap.HRef y) as Hy0.
    { rewrite <- Hparent. symmetry. apply heap_resolve_weaken; [done|].
      apply heap_resolve_prefix with key. by rewrite <- Hsplit. }
    split_and!; [done|done| |congruence].
    rewrite Hsplit, foldl_app, Hy0 in Hex. cbn [foldl] in Hex.
    destruct (heap_resolve_step_defined _ _ _ Hex) as (l & ol & [= <-] & Hl & _).
    by eexists.
Qed.

(** X20.  One flag, one write.  A call of [parseFlag] that returns has
    left the store as it was, or has allocated the array of its value and
    stopped at an empty segment, or has written the value at one property
    of one object of the store: the last segment of the path, in the
    object the segments before it lead to.  Every other object is as it
    was. *)
Theorem flag_writes_one_property opts result flagName rawValue (h h' : Heap.store) :
  Heap.parseFlag opts result (Some flagName) rawValue h = (Ok tt, h') →
  h' = h
  ∨ ∃ v h1,
      Heap.parsedValue opts flagName rawValue
        (Heap.resolveValueAtPath h result (normalizedPath flagName)) h = (Ok v, h1)
      ∧ (h' = h1
         ∨ ∃ parent key y,
             split_on "." (normalizedPath flagName) = parent ++ [key]
             ∧ foldl (Heap.resolve_step h) (Heap.HRef result) parent = Heap.HRef y
             ∧ is_Some (h !! y)
             ∧ h' = Heap.store_key y key v h1
             ∧ Heap.read h' y key = v
             ∧ ∀ l, l ≠ y → h' !! l = h1 !! l).
Proof.
  intros [->|(v & h1 & Hpv & Hsub & Hrun)]%heap_parseFlag_effect; [by left|].
  right. exists v, h1. split; [done|].
  destruct Hrun as [->|(parent & key & y & Hsplit & Hparent & [o Hy] & ->)]; [by left|].
  right. exists parent, key, y. split_and!; [done | done | by eexists | done | |].
  - unfold Heap.read.
    rewrite (store_key_lookup _ _ _ _ o) by (by eapply lookup_weaken). simpl.
    by rewrite lookup_insert_eq.
  - intros l Hl. by apply store_key_lookup_ne.
Qed.

Lemma flag_writes_one_property_witness :
  (Heap.parseFlag default_options 1%positive (Some "a.c") (Some "x,y") shared_store).2 = shared_store
  ∨ ∃ v h1,
      Heap.parsedValue default_options "a.c" (Some "x,y")
        (Heap.resolveValueAtPath shared_store 1%positive (normalizedPath "a.c")) shared_store
      = (Ok v, h1)
      ∧ ((Heap.parseFlag default_options 1%positive (Some "a.c") (Some "x,y") shared_store).2 = h1
         ∨ ∃ parent key y,
             split_on "." (normalizedPath "a.c") = parent ++ [key]
             ∧ foldl (Heap.resolve_step shared_store) (Heap.HRef 1%positive) parent = Heap.HRef y
             ∧ is_Some (shared_store !! y)
             ∧ (Heap.parseFlag default_options 1%positive (Some "a.c") (Some "x,y") shared_store).2
               = Heap.store_key y key v h1
             ∧ Heap.read (Heap.parseFlag default_options 1%positive (Some "a.c") (Some "x,y") shared_store).2
                 y key = v
             ∧ ∀ l, l ≠ y →
                 (Heap.parseFlag default_options 1%positive (Some "a.c") (Some "x,y") shared_store).2 !! l
                 = h1 !! l).
Proof.
  exact (flag_writes_one_property default_options 1%positive "a.c" (Some "x,y")
           shared_store _ eq_refl).
Defined.

(** * Schemas without a cycle *)

(** ** When [JSON.stringify] throws *)

Lemma forallb_false {A} (f : A → bool) (l : list A) :
  forallb f l = false → ∃ x, x ∈ l ∧ f x = false.
Proof.
  induction l as [|a l IH]; [done|]. simpl.
  destruct (f a) eqn:E; simpl.
  - intros (x & Hx & Hfx)%IH. exists x. split; [by right | done].
  - intros _. exists a. split; [by left | done].
Qed.

(** When the walk of [JSON.stringify] throws, a chain of properties has
    led back to an object of the stack, or to an object of the chain. *)
Lemma not_serializable_chain fuel (h : Heap.store) stack l :
  size (dom h ∖ stack) < fuel →
  Dump.serializable fuel h stack (Heap.HRef l) = false →
  ∃ path, Dump.chain h l path
          ∧ (¬ NoDup (l :: path) ∨ ∃ x, last (l :: path) = Some x ∧ x ∈ stack).
Proof.
  revert stack l. induction fuel as [|fuel IH]; intros stack l Hfuel; [lia|].
  cbn [Dump.serializable]. case_decide as Hl.
  { intros _. exists []. split; [done|]. right. by exists l. }
  destruct (h !! l) as [o|] eqn:Ho; [|done].
  intros ([key v] & Hin%elem_of_map_to_list & Hser)%forallb_false. cbn [snd] in Hser.
  destruct v as [| | | | |c]; try (by destruct fuel).
  destruct (IH ({[l]} ∪ stack) c) as (path & Hch & Hpath); [|done|].
  { assert (dom h ∖ ({[l]} ∪ stack) ⊂ dom h ∖ stack) as Hlt%subset_size; [|lia].
    assert (l ∈ dom h) by (apply elem_of_dom; by eexists). set_solver. }
  exists (c :: path). split; [split; [by exists o, key | done]|].
  destruct Hpath as [Hnd|(x & Hlast & Hx)].
  - left. intros Hnd'. apply Hnd. by apply NoDup_cons in Hnd' as [_ ?].
  - apply elem_of_union in Hx as [->%elem_of_singleton|Hx].
    + left. intros [Hnot _]%NoDup_cons. apply Hnot.
      apply last_Some in Hlast as (pre & ->). 
      destruct pre as [|p pre]; simplify_eq/=; set_solver.
    + right. exists x. split; [|done]. by rewrite last_cons_cons.
Qed.

Lemma acyclic_serializable (h : Heap.store) l :
  ¬ Dump.cyclic h l → Dump.serializable (S (size h)) h ∅ (Heap.HRef l) = true.
Proof.
  intros Hac. destruct (Dump.serializable _ _ _ _) eqn:Hser; [done|]. destruct Hac.
  assert (size (dom h ∖ (∅ : gset Heap.loc)) < S (size h)) as Hfuel.
  { assert (size (dom h ∖ (∅ : gset Heap.loc)) ≤ size (dom h))
      by (apply subseteq_size; set_solver).
    rewrite size_dom in *. lia. }
  destruct (not_serializable_chain _ _ _ _ Hfuel Hser) as (path & Hch & [Hnd|(x & _ & Hx)]).
  - by exists path.
  - set_solver.
Qed.

Lemma serializable_acyclic (h : Heap.store) l :
  Dump.serializable (S (size h)) h ∅ (Heap.HRef l) = true → ¬ Dump.cyclic h l.
Proof. intros Hser Hcyc%cyclic_not_serializable. congruence. Qed.

(** ** What keeps a store free of cycles *)

Lemma chain_out_edges (h : Heap.store) a path :
  Dump.chain h a path → ∀ x, x ∈ removelast (a :: path) → ∃ y, Dump.edge h x y.
Proof.
  revert a. induction path as [|b path IH]; intros a Hch x.
  { simpl. by intros ?%elem_of_nil. }
  destruct Hch as [Hedge Hch].
  change (removelast (a :: b :: path)) with (a :: removelast (b :: path)).
  intros [->|Hin]%elem_of_cons; [by exists b | by eapply IH].
Qed.

Lemma chain_edges (h h' : Heap.store) (P : Heap.loc → Prop) a path :
  (∀ x y, P y → Dump.edge h' x y → Dump.edge h x y) →
  (∀ y, y ∈ path → P y) →
  Dump.chain h' a path → Dump.chain h a path.
Proof.
  intros Hedge. revert a. induction path as [|b path IH]; intros a HP; [done|].
  intros [Hab Hch]. split.
  - apply Hedge; [|done]. apply HP. by left.
  - apply IH; [|done]. intros y Hy. apply HP. by right.
Qed.

(** New properties that all lead to one object without a property of its
    own close no cycle. *)
Lemma sink_closes_no_cycle (h h' : Heap.store) s r :
  (∀ y, ¬ Dump.edge h' s y) →
  (∀ x y, y ≠ s → Dump.edge h' x y → Dump.edge h x y) →
  Dump.cyclic h' r → Dump.cyclic h r.
Proof.
  intros Hsink Hedge (path & Hch & Hnd).
  destruct (first_repeat _ Hnd) as (pre & x & suf & Hl & Hpre & Hx).
  destruct pre as [|a pre]; [by apply elem_of_nil in Hx|].
  rewrite <- app_comm_cons in Hl. injection Hl as <- ->.
  apply chain_app in Hch as [Hch _].
  assert (∀ y, y ∈ r :: pre → y ≠ s) as Hsources.
  { intros y Hy ->. destruct (chain_out_edges _ _ _ Hch s) as [z Hz].
    - by rewrite app_comm_cons, removelast_last.
    - by apply (Hsink z). }
  exists (pre ++ [x]). split.
  - apply (chain_edges h h' (λ y, y ≠ s)); [done| |done].
    intros y [Hy| ->%list_elem_of_singleton]%elem_of_app; [|by apply Hsources].
    apply Hsources. by right.
  - rewrite app_comm_cons. intros [_ [Hno _]]%NoDup_app.
    apply (Hno x Hx). by apply list_elem_of_singleton.
Qed.

Lemma edge_insert_new (h : Heap.store) l o x y :
  h !! l = None → Dump.edge (<[l := o]> h) x y → x ≠ l → Dump.edge h x y.
Proof.
  intros Hl (ox & key & Hx & Hkey) Hne. rewrite lookup_insert_ne in Hx by done.
  by exists ox, key.
Qed.

Lemma edge_store_key (h : Heap.store) a key v x y :
  Dump.edge (Heap.store_key a key v h) x y → Dump.edge h x y ∨ v = Heap.HRef y.
Proof.
  intros (ox & k & Hx & Hk). destruct (decide (x = a)) as [->|Hne].
  - unfold Heap.store_key in Hx. destruct (h !! a) as [o|] eqn:Ho.
    + rewrite lookup_insert_eq in Hx. injection Hx as <-. simpl in Hk.
      destruct (decide (k = key)) as [->|Hkne].
      * rewrite lookup_insert_eq in Hk. right. congruence.
      * rewrite lookup_insert_ne in Hk by done. left. by exists o, k.
    + left. by exists ox, k.
  - rewrite store_key_lookup_ne in Hx by done. left. by exists ox, k.
Qed.

(** A flag closes no cycle: what it writes is a primitive value or a new
    array of strings. *)
Lemma flag_closes_no_cycle opts result flagName rawValue (h h' : Heap.store) :
  Heap.parseFlag opts result flagName rawValue h = (Ok tt, h') →
  dom h ⊆ dom h' ∧ ∀ r, Dump.cyclic h' r → Dump.cyclic h r.
Proof.
  destruct flagName as [flagName|]; [|by intros [= <-]].
  intros [->|(v & h1 & Hpv & _ & Hrun)]%heap_parseFlag_effect; [done|].
  destruct (heap_parsedValue_store _ _ _ _ _ _ _ Hpv)
    as [[-> Hprim]|(l & o & Hl & -> & -> & Hleaves)].
  - destruct Hrun as [->|(parent & key & y & _ & _ & _ & ->)]; [done|].
    split; [by rewrite store_key_dom|]. intros r (path & Hch & Hnd).
    exists path. split; [|done].
    apply (chain_edges h (Heap.store_key y key v h) (λ _, True)); [|done..].
    intros a b _ [?|?]%edge_store_key; [done|]. by destruct (Hprim b).
  - assert (∀ b, ¬ Dump.edge (<[l := o]> h) l b) as Hsink1.
    { intros b (ol & key & Hol & Hkey). rewrite lookup_insert_eq in Hol.
      injection Hol as <-. by eapply Hleaves. }
    assert (∀ a b, b ≠ l → Dump.edge (<[l := o]> h) a b → Dump.edge h a b) as Hedge1.
    { intros a b _ Hab. apply (edge_insert_new h l o); [done..|].
      intros ->. by apply (Hsink1 b). }
    destruct Hrun as [->|(parent & key & y & _ & _ & Hy & ->)].
    + split; [rewrite dom_insert_L; set_solver|]. intros r.
      by apply (sink_closes_no_cycle h (<[l := o]> h) l).
    + split; [rewrite store_key_dom, dom_insert_L; set_solver|]. intros r.
      assert (y ≠ l) as Hyl by (intros ->; destruct Hy; congruence).
      apply (sink_closes_no_cycle h (Heap.store_key y key (Heap.HRef l) (<[l := o]> h)) l).
      * intros b (ol & k & Hol & Hk). rewrite store_key_lookup_ne in Hol by done.
        apply (Hsink1 b). by exists ol, k.
      * intros a b Hb [Hab|[= ?]]%edge_store_key; [by apply Hedge1 | congruence].
Qed.

Lemma flags_close_no_cycle opts args result :
  ∀ (h h' : Heap.store),
    Heap.argument_loop opts args result h = (Ok tt, h') →
    dom h ⊆ dom h' ∧ ∀ r, Dump.cyclic h' r → Dump.cyclic h r.
Proof.
  induction args as [|token rest IH]; intros h h'; [by intros [= <-]|].
  cbn [Heap.argument_loop].
  destruct (dispatch token (head rest)) as [[flagName flagValue]|]; [|by apply IH].
  unfold Heap.bindM.
  destruct (Heap.parseFlag opts result flagName flagValue h) as [[[]|msg] h1] eqn:Hflag; [|done].
  intros [Hdom Hcyc]%IH. destruct (flag_closes_no_cycle _ _ _ _ _ _ Hflag) as [Hdom1 Hcyc1].
  split; [set_solver | auto].
Qed.

(** In a closed store the chains from an object stay what they are when
    objects are added. *)
Lemma chain_closed (h h' : Heap.store) :
  Heap.closed h = true → h ⊆ h' →
  ∀ path a, is_Some (h !! a) → Dump.chain h' a path → Dump.chain h a path.
Proof.
  intros Hclosed Hsub. induction path as [|b path IH]; intros a [o Ho]; [done|].
  intros [(o' & key & Ho' & Hkey) Hch].
  rewrite (lookup_weaken _ _ _ _ Ho Hsub) in Ho'. injection Ho' as <-.
  split; [by exists o, key|]. apply IH; [|done].
  pose proof (closed_allocated _ _ _ _ _ Hclosed Ho Hkey) as Hb.
  simpl in Hb. by apply bool_decide_eq_true in Hb.
Qed.

Lemma Forall2_NoDup {A B} (R : A → B → Prop) (l : list A) (l' : list B) :
  (∀ x y z, R x z → R y z → x = y) →
  Forall2 R l l' → NoDup l → NoDup l'.
Proof.
  intros Hinj. induction 1 as [|x z l l' Hxz Hall IH]; [intros _; constructor|].
  intros [Hx Hnd]%NoDup_cons. apply NoDup_cons. split; [|by apply IH].
  intros Hz. apply Hx.
  apply list_elem_of_lookup in Hz as [i Hi].
  destruct (Forall2_lookup_r _ _ _ _ _ Hall Hi) as (y & Hy & Hyz).
  rewrite (Hinj x y z Hxz Hyz). by eapply list_elem_of_lookup_2.
Qed.

(** A chain of properties of the copy is the copy of a chain of the
    original. *)
Lemma copy_chain_back (h0 h : Heap.store) seen :
  clone_inv h0 ∅ h seen →
  ∀ path' a a', seen !! a = Some a' → Dump.chain h a' path' →
    ∃ path, Dump.chain h0 a path ∧ Forall2 (λ x x', seen !! x = Some x') path path'.
Proof.
  intros (Hsub & Hdom & Hrange & Hinj & Hdone).
  induction path' as [|b' path' IH]; intros a a' Ha; [by exists []|].
  intros [(o' & key & Ho' & Hkey') Hch].
  destruct (Hdone a) as (oa & c & ob & Hoa & Hc & Hob & _ & Hprops).
  { apply elem_of_dom. by eexists. }
  { set_solver. }
  assert (c = a') as -> by congruence. assert (ob = o') as -> by congruence.
  specialize (Hprops key). rewrite Hkey' in Hprops.
  destruct (Heap.oprops oa !! key) as [v|] eqn:Hkey; [|done].
  destruct v as [| | | | |b]; simpl in Hprops; try done.
  destruct Hprops as (y & Hb & [= <-]).
  destruct (IH b b' Hb Hch) as (path & Hpath & Hall).
  exists (b :: path). split; [|by constructor]. split; [by exists oa, key | done].
Qed.

Lemma copy_closes_no_cycle (h0 h : Heap.store) seen a a' :
  clone_inv h0 ∅ h seen → seen !! a = Some a' →
  Dump.cyclic h a' → Dump.cyclic h0 a.
Proof.
  intros Hinv Ha (path' & Hch & Hnd).
  destruct (copy_chain_back _ _ _ Hinv _ _ _ Ha Hch) as (path & Hpath & Hall).
  exists path. split; [done|]. intros Hnd0. apply Hnd.
  apply (Forall2_NoDup (λ x x', seen !! x = Some x') (a :: path)); [|by constructor|done].
  destruct Hinv as (_ & _ & _ & Hinj & _). intros x y z. apply Hinj.
Qed.

(** The clone of a schema without a cycle: a store in which neither the
    schema nor the copy has one. *)
Lemma clone_closes_no_cycle data (h h1 : Heap.store) result :
  Heap.closed h = true → is_Some (h !! data) →
  Heap.structuredClone data h = (Ok result, h1) →
  ¬ Dump.cyclic h data →
  dom h ⊆ dom h1 ∧ ¬ Dump.cyclic h1 data ∧ ¬ Dump.cyclic h1 result.
Proof.
  intros Hclosed Hdata Hclone Hac. unfold Heap.structuredClone in Hclone.
  destruct (Heap.clone_object (S (size h)) data h ∅) as [[[l' h'] seen']|] eqn:Hc; [|done].
  injection Hclone as -> ->.
  assert (clone_inv h ∅ h ∅) as Hinit.
  { split_and!; [done | set_solver | by intros ?? ?%lookup_empty_Some
                | by intros ??? ?%lookup_empty_Some | set_solver]. }
  destruct (clone_object_copies h Hclosed _ _ _ _ _ _ _ _ Hinit Hdata Hc)
    as (Hinv & Hh & _ & Hl).
  split_and!.
  - by apply subseteq_dom.
  - intros (path & Hch & Hnd). apply Hac. exists path. split; [|done].
    by apply (chain_closed h h1).
  - intros Hcyc. apply Hac. by apply (copy_closes_no_cycle h h1 seen' data result).
Qed.

(** X21.  The dumps of a schema without a cycle.  When no chain of
    properties from the schema comes back to an object it has gone
    through, the two calls of [JSON.stringify] return, whatever the
    tokens: the call throws what the merge throws and returns what the
    merge returns.  A flag closes no cycle. *)
Theorem acyclic_schema_is_dumped data args opts (h : Heap.store) :
  Heap.closed h = true → Heap.allocated h (Heap.HRef data) = true →
  ¬ Dump.cyclic h data →
  Dump.arglet data args opts h = Heap.arglet data args opts h.
Proof.
  intros Hclosed Hdata Hac. simpl in Hdata. apply bool_decide_eq_true in Hdata.
  unfold Dump.arglet, Heap.arglet, Heap.bindM.
  destruct (Heap.structuredClone data h) as [[result|msg] h1] eqn:Hclone; [|done].
  destruct (clone_closes_no_cycle _ _ _ _ Hclosed Hdata Hclone Hac) as (Hdom & Hd1 & Hr1).
  destruct (Heap.argument_loop opts args result h1) as [[[]|msg] h2] eqn:Hloop; [|done].
  destruct (flags_close_no_cycle _ _ _ _ _ Hloop) as [_ Hcyc].
  unfold Dump.JSON_stringify, Heap.bindM, Heap.get_store.
  rewrite (acyclic_serializable h2 data) by (intros Hc; by apply Hcyc in Hc).
  cbn [Heap.ret].
  by rewrite (acyclic_serializable h2 result) by (intros Hc; by apply Hcyc in Hc).
Qed.

Lemma acyclic_schema_is_dumped_witness :
  Dump.arglet 1%positive ["--a.c=x,y"; "--b.c"] default_options shared_store
  = Heap.arglet 1%positive ["--a.c=x,y"; "--b.c"] default_options shared_store.
Proof.
  apply acyclic_schema_is_dumped; [reflexivity | reflexivity |].
  by apply serializable_acyclic.
Defined.

(** ** Without a flag *)

(** X17.  Without a flag the call returns a copy: for a schema without a
    cycle and a list of tokens that reach no flag (the empty list for
    one), the call returns a new object, deep-equal to the schema, and the
    store of the caller is as it was. *)
Theorem no_flag_returns_a_copy data args opts (h : Heap.store) :
  Heap.closed h = true → Heap.allocated h (Heap.HRef data) = true →
  ¬ Dump.cyclic h data →
  forallb names_no_flag args = true →
  ∃ result h',
    Dump.arglet data args opts h = (Ok result, h')
    ∧ h !! result = None
    ∧ h ⊆ h'
    ∧ Heap.deep_equal h' (Heap.HRef result) h (Heap.HRef data).
Proof.
  intros Hclosed Hdata Hac Hargs.
  destruct (structuredClone_copies data h Hclosed Hdata)
    as (result & h' & seen & Hclone & Hinv & Hl).
  simpl in Hdata. apply bool_decide_eq_true in Hdata.
  assert (¬ Dump.cyclic h' result) as Hr.
  { intros Hcyc. apply Hac. by apply (copy_closes_no_cycle h h' seen data result). }
  destruct Hinv as (Hsub & Hdom & Hrange & Hinj & Hdone).
  assert (¬ Dump.cyclic h' data) as Hd.
  { intros (path & Hch & Hnd). apply Hac. exists path. split; [|done].
    by apply (chain_closed h h'). }
  exists result, h'. split_and!; [| |done|].
  - unfold Dump.arglet, Heap.bindM. rewrite Hclone.
    rewrite heap_argument_loop_no_flag by done.
    unfold Dump.JSON_stringify, Heap.bindM, Heap.get_store.
    rewrite (acyclic_serializable h' data) by done. cbn [Heap.ret].
    by rewrite (acyclic_serializable h' result) by done.
  - by destruct (Hrange _ _ Hl).
  - intros depth. apply (copies_deep_equal h h' seen).
    + intros a Ha. apply Hdone; [done | set_solver].
    + by exists result.
Qed.

Lemma no_flag_returns_a_copy_witness :
  ∃ result h',
    Dump.arglet 1%positive ["positional"; "--"] default_options shared_store = (Ok result, h')
    ∧ shared_store !! result = None
    ∧ shared_store ⊆ h'
    ∧ Heap.deep_equal h' (Heap.HRef result) shared_store (Heap.HRef 1%positive).
Proof.
  apply no_flag_returns_a_copy; [reflexivity | reflexivity | | reflexivity].
  by apply serializable_acyclic.
Defined.

(** * Properties of the prototype layer *)

(** ** Flags that name inherited members *)

(** C1 (the code at the failing input).  With the schema [{a: 1}] the
    token [--__proto__.toString=x] finds its path in the working copy,
    through the accessor [__proto__] and the member [toString] of
    [Object.prototype], and [assignValueAtPath] walks the same way: the
    call returns a new object and has written ["x"] into
    [Object.prototype], an object of the caller that is no part of the
    working copy.  The schema keeps its own properties, and reads
    [toString] as ["x"] from then on. *)
Theorem flag_writes_to_Object_prototype ToArrayLength :
  let run := Proto.arglet ToArrayLength 20%positive ["--__proto__.toString=x"]
               default_options number_schema in
  run.1 = Ok 21%positive
  ∧ number_schema !! 21%positive = None
  ∧ run.2 !! 20%positive = number_schema !! 20%positive
  ∧ run.2 !! Proto.Object_prototype ≠ number_schema !! Proto.Object_prototype
  ∧ Proto.get number_schema 20%positive "toString" = Heap.HRef 6%positive
  ∧ Proto.get run.2 20%positive "toString" = Heap.HStr "x".
Proof.
  intros run.
  split; [by vm_compute|]. split; [by vm_compute|]. split; [by vm_compute|].
  split; [vm_compute; discriminate|]. split; by vm_compute.
Qed.

(** C4 (the code at the failing input).  With the schema [{a: 1}], of
    which [toString] and [constructor] are no keys, the tokens
    [--toString] and [--no-constructor] are not ignored: [key in current]
    finds the members of [Object.prototype], which hold functions, and the
    call throws.  The token [--unknown] is ignored. *)
Theorem inherited_name_is_not_ignored ToArrayLength :
  (Proto.arglet ToArrayLength 20%positive ["--toString"] default_options number_schema).1
  = Throw "--toString requires a value"
  ∧ (Proto.arglet ToArrayLength 20%positive ["--no-constructor"] default_options
       number_schema).1
    = Throw "--no-constructor is only valid for boolean options"
  ∧ (Proto.arglet ToArrayLength 20%positive ["--unknown"] default_options number_schema).1
    = Ok 21%positive.
Proof. split; [by vm_compute|]. split; by vm_compute. Qed.

(** ** Tokens that reach no flag *)

Lemma proto_parseFlag_empty_name ToArrayLength opts result rawValue (h : Proto.store) :
  Proto.parseFlag ToArrayLength opts result (Some "") rawValue h = (Ok tt, h).
Proof. done. Qed.

(** X6.  A list made of tokens without the [--] marker, of [--] alone and
    of tokens that start with [--=] (an empty name) dispatches no flag
    with a name: the argument loop writes nothing and throws nothing,
    whatever the store holds, shared objects, cycles and prototypes
    included. *)
Theorem tokens_without_flag ToArrayLength opts args result (h : Proto.store) :
  forallb names_no_flag args = true →
  Proto.argument_loop ToArrayLength opts args result h = (Ok tt, h).
Proof.
  induction args as [|token rest IH]; [done|].
  intros [Htok Hrest]%andb_true_iff. cbn [Proto.argument_loop].
  destruct (dispatch_names_no_flag token (head rest) Htok) as [-> | [v ->]]; [by apply IH|].
  unfold Proto.bindM. rewrite proto_parseFlag_empty_name. by apply IH.
Qed.

Lemma tokens_without_flag_witness :
  Proto.argument_loop (λ _ _, Ok None) default_options ["-x"; "--"; "value"; "--=1"]
    20%positive number_schema
  = (Ok tt, number_schema).
Proof.
  exact (tokens_without_flag (λ _ _, Ok None) default_options ["-x"; "--"; "value"; "--=1"]
           20%positive number_schema eq_refl).
Defined.

(** ** Merging twice, beyond trees and own data *)

(** With a shared object the second merge returns another result than the
    first: in [{a: o, b: o}] with [o = {c: false}] the flags [b.c] and
    [a.c] write to the one object, and in the result of the first merge
    [a] holds a string, so that the second merge keeps the ["2"] of
    [b.c]. *)
Lemma second_merge_meets_a_shared_object :
  let T := ["--b.c=2"; "--a.c=1"; "--a=s"] in
  let first := Dump.arglet 1%positive T default_options shared_store in
  let second := Dump.arglet 3%positive T default_options first.2 in
  forallb carries_value (flags_of T) = true
  ∧ first.1 = Ok 3%positive
  ∧ Heap.snapshot 2 first.2 (Heap.HRef 3%positive)
    = of_node (obj [("a", VStr "s"); ("b", of_node (obj [("c", VStr "1")]))])
  ∧ second.1 = Ok 5%positive
  ∧ Heap.snapshot 2 second.2 (Heap.HRef 5%positive)
    = of_node (obj [("a", VStr "s"); ("b", of_node (obj [("c", VStr "2")]))]).
Proof.
  intros T first second.
  split; [by vm_compute|]. split; [by vm_compute|]. split; [by vm_compute|].
  split; by vm_compute.
Qed.

(** Through the [length] of an array the second merge throws, though
    every flag carries a value: with [{ids: "s"}] the path [ids.length]
    does not exist at the first merge, which makes [ids] an array, and
    exists at the second, where ["x"] is no length. *)
Lemma second_merge_meets_an_array_length ToArrayLength :
  let T := ["--ids.length=x"; "--ids=a,b"] in
  let first := Proto.arglet (no_length_at "x" ToArrayLength) 20%positive T default_options
                 string_schema in
  let second := Proto.arglet (no_length_at "x" ToArrayLength) 21%positive T default_options
                  first.2 in
  forallb carries_value (flags_of T) = true
  ∧ first.1 = Ok 21%positive
  ∧ second.1 = Throw "RangeError: Invalid array length".
Proof.
  intros T first second.
  split; [by vm_compute|]. split; by vm_compute.
Qed.

(** The same through a member of [Array.prototype]: the second merge
    replaces [reduce], which the next [resolveValueAtPath] calls. *)
Lemma second_merge_meets_reduce ToArrayLength :
  let T := ["--ids.__proto__.reduce=x"; "--ids=a,b"] in
  let first := Proto.arglet ToArrayLength 20%positive T default_options string_schema in
  let second := Proto.arglet ToArrayLength 21%positive T default_options first.2 in
  forallb carries_value (flags_of T) = true
  ∧ first.1 = Ok 21%positive
  ∧ second.1 = Throw "TypeError: path.split(...).reduce is not a function".
Proof.
  intros T first second.
  split; [by vm_compute|]. split; by vm_compute.
Qed.

(** ** On plain keys the prototype layer is the store layer *)

Lemma inv_realm_lookup (R : Proto.store) D h l o :
  plain_inv R D h → R !! l = Some o → h !! l = Some o.
Proof.
  intros Hinv Hl. rewrite (inv_realm _ _ _ Hinv); [done|].
  intros HD. by rewrite (inv_apart _ _ _ Hinv l HD) in Hl.
Qed.

Lemma inv_realm_subseteq (R : Proto.store) D h : plain_inv R D h → R ⊆ h.
Proof.
  intros Hinv. apply map_subseteq_spec. intros l o. by apply (inv_realm_lookup R D).
Qed.

Lemma own_property_plain o key :
  key ≠ "length" → Proto.own_property o key = Proto.oprops o !! key.
Proof.
  intros Hkey. unfold Proto.own_property.
  destruct (Proto.oclass o); [done| |done]. by rewrite decide_False.
Qed.

(** The lookup of a plain key finds nothing in the realm. *)
Lemma find_property_realm (R : Proto.store) D h key fuel :
  plain_inv R D h → plain_for R key →
  ∀ l, is_Some (R !! l) → Proto.find_property fuel h l key = None.
Proof.
  intros Hinv [Hlen Hkey]. induction fuel as [|fuel IH]; intros l [o Ho]; [done|].
  simpl. rewrite (inv_realm_lookup R _ _ _ _ Hinv Ho).
  rewrite (own_property_plain _ _ Hlen), (Hkey _ _ Ho).
  destruct (Proto.oproto o) as [p|] eqn:Hp; [|done].
  apply IH. by eapply inv_chain.
Qed.

(** From an object of the realm a lookup stays in the realm. *)
Lemma find_property_in_realm (R : Proto.store) D h key fuel :
  plain_inv R D h →
  ∀ l, is_Some (R !! l) → Proto.find_property fuel h l key = Proto.find_property fuel R l key.
Proof.
  intros Hinv. induction fuel as [|fuel IH]; intros l [o Ho]; [done|].
  simpl. rewrite (inv_realm_lookup R _ _ _ _ Hinv Ho), Ho.
  destruct (Proto.own_property o key); [done|].
  destruct (Proto.oproto o) as [p|] eqn:Hp; [|done].
  apply IH. by eapply inv_chain.
Qed.

Lemma find_property_fuel (h : Proto.store) key fuel fuel' :
  fuel ≤ fuel' →
  ∀ l x, Proto.find_property fuel h l key = Some x → Proto.find_property fuel' h l key = Some x.
Proof.
  revert fuel'. induction fuel as [|fuel IH]; intros fuel' Hle l x; [done|].
  destruct fuel' as [|fuel']; [lia|]. simpl.
  destruct (h !! l) as [o|]; [|done].
  destruct (Proto.own_property o key); [done|].
  destruct (Proto.oproto o); [|done]. apply IH. lia.
Qed.

Lemma reduce_is_there (R : Proto.store) D h :
  plain_inv R D h →
  Proto.is_callable h (Proto.get h Proto.Array_prototype "reduce") = true.
Proof.
  intros Hinv.
  destruct (inv_reduce _ _ _ Hinv) as (fuel & holder & f & e & fo & Hfuel & Hfind & Hf & Hfo).
  unfold Proto.get, Proto.lookup_property.
  rewrite (find_property_in_realm R D h) by (done || by eapply inv_Array).
  rewrite (find_property_fuel R "reduce" fuel (S (size h)) Hfuel _ _ Hfind).
  simpl. by rewrite (inv_realm_lookup R _ _ _ _ Hinv Hf), Hfo.
Qed.

(** On an object of plain data a plain key is an own key or no key. *)
Lemma lookup_property_data (R : Proto.store) D h l o key :
  plain_inv R D h → plain_for R key → l ∈ D → h !! l = Some o →
  Proto.lookup_property h l key = (λ p, (l, p)) <$> Proto.oprops o !! key.
Proof.
  intros Hinv Hkey HD Ho. unfold Proto.lookup_property. simpl. rewrite Ho.
  rewrite (own_property_plain _ _ (proj1 Hkey)).
  destruct (Proto.oprops o !! key) as [p|]; [done|]. simpl.
  destruct (Proto.oproto o) as [q|] eqn:Hq; [|done].
  eapply (find_property_realm R); [done..|].
  destruct (inv_data _ _ _ Hinv l HD) as (o' & Ho' & _ & Hproto & _).
  assert (o' = o) as -> by congruence. by apply Hproto.
Qed.

Lemma data_is_object (R : Proto.store) D h l :
  plain_inv R D h → l ∈ D → Proto.is_object h (Heap.HRef l) = true.
Proof.
  intros Hinv HD. destruct (inv_data _ _ _ Hinv l HD) as (o & Ho & Hclass & _).
  simpl. rewrite Ho. by destruct (Proto.oclass o).
Qed.

Lemma own_data_lookup h l :
  own_data_store h !! l = own_data <$> h !! l.
Proof. apply lookup_fmap. Qed.

Lemma data_property (R : Proto.store) D h l o key :
  plain_inv R D h → l ∈ D → h !! l = Some o →
  (Proto.oprops o !! key = None ∧ omap data_value (Proto.oprops o) !! key = None)
  ∨ ∃ v e, Proto.oprops o !! key = Some (Proto.Data v e)
           ∧ omap data_value (Proto.oprops o) !! key = Some v ∧ data_ref D v.
Proof.
  intros Hinv HD Ho. destruct (inv_data _ _ _ Hinv l HD) as (o' & Ho' & _ & _ & Hprops).
  assert (o' = o) as -> by congruence. rewrite lookup_omap.
  destruct (Proto.oprops o !! key) as [p|] eqn:Hp; [|by left].
  destruct (Hprops _ _ Hp) as (v & e & -> & Hv). right. by exists v, e.
Qed.

Lemma get_data (R : Proto.store) D h l key :
  plain_inv R D h → plain_for R key → l ∈ D →
  Proto.get h l key = Heap.read (own_data_store h) l key
  ∧ Proto.has_property h l key = Heap.holds_key (own_data_store h) (Heap.HRef l) key
  ∧ data_ref D (Proto.get h l key).
Proof.
  intros Hinv Hkey HD. destruct (inv_data _ _ _ Hinv l HD) as (o & Ho & _).
  unfold Proto.get, Proto.has_property, Heap.read, Heap.holds_key.
  rewrite (lookup_property_data R D h l o) by done. rewrite own_data_lookup, Ho. simpl.
  destruct (data_property R D h l o key Hinv HD Ho) as [[-> ->]|(v & e & -> & -> & Hv)]; simpl.
  - done.
  - done.
Qed.

Lemma resolve_step_data (R : Proto.store) D h current key :
  plain_inv R D h → plain_for R key → data_ref D current →
  Proto.resolve_step h current key = Heap.resolve_step (own_data_store h) current key
  ∧ data_ref D (Proto.resolve_step h current key).
Proof.
  intros Hinv Hkey Hcur. unfold Proto.resolve_step, Heap.resolve_step.
  destruct current as [| | | | |l]; try done. simpl in Hcur.
  rewrite (data_is_object R D h l) by done. cbn [andb].
  destruct (get_data R D h l key Hinv Hkey Hcur) as (Hget & Hhas & Hv).
  rewrite Hhas. destruct (Heap.holds_key _ _ _); [|done]. by split.
Qed.

Lemma resolve_data (R : Proto.store) D h segments :
  plain_inv R D h → Forall (plain_for R) segments →
  ∀ current, data_ref D current →
    foldl (Proto.resolve_step h) current segments
    = foldl (Heap.resolve_step (own_data_store h)) current segments
    ∧ data_ref D (foldl (Proto.resolve_step h) current segments).
Proof.
  intros Hinv. induction 1 as [|key segments Hkey _ IH]; intros current Hcur; [done|].
  simpl. destruct (resolve_step_data R D h current key Hinv Hkey Hcur) as [<- Hnext].
  by apply IH.
Qed.


Lemma data_ref_mono (D D' : gset Proto.loc) v : D ⊆ D' → data_ref D v → data_ref D' v.
Proof. intros Hsub. destruct v; simpl; set_solver. Qed.

(** Replacing an object of plain data keeps the invariant. *)
Lemma inv_update (R : Proto.store) D h l o :
  plain_inv R D h → l ∈ D → joins R D o → plain_inv R D (<[l := o]> h).
Proof.
  intros Hinv HD Ho.
  destruct (inv_data _ _ _ Hinv l HD) as (o0 & Hl & _).
  destruct Hinv as [Hrealm Hapart Hdata Hchain HO HA Hred].
  split; try done.
  - intros l' Hl'. rewrite lookup_insert_ne by set_solver. by apply Hrealm.
  - intros l' Hl'. destruct (decide (l' = l)) as [->|Hne].
    + exists o. by rewrite lookup_insert_eq.
    + rewrite lookup_insert_ne by done. by apply Hdata.
  - by rewrite map_size_insert_Some by (by eexists).
Qed.

(** A new object joins the plain data. *)
Lemma inv_alloc (R : Proto.store) D h o :
  plain_inv R D h → joins R D o →
  plain_inv R ({[fresh (dom h)]} ∪ D) (<[fresh (dom h) := o]> h)
  ∧ fresh (dom h) ∉ D.
Proof.
  intros Hinv (Hclass & Hproto & Hprops).
  pose proof (is_fresh (dom h)) as Hfresh.
  assert (h !! fresh (dom h) = None) as Hnone by (by apply not_elem_of_dom).
  assert (fresh (dom h) ∉ D) as HD.
  { intros HD. destruct (inv_data _ _ _ Hinv _ HD) as (o' & Ho' & _). congruence. }
  split; [|done].
  destruct Hinv as [Hrealm Hapart Hdata Hchain HO HA Hred].
  split; try done.
  - intros l Hl. rewrite lookup_insert_ne by set_solver. apply Hrealm. set_solver.
  - intros l [->%elem_of_singleton|Hl]%elem_of_union; [|by apply Hapart].
    rewrite <- Hrealm by done. done.
  - intros l [->%elem_of_singleton|Hl]%elem_of_union.
    + exists o. rewrite lookup_insert_eq. split_and!; [done..|].
      intros key p Hp. destruct (Hprops _ _ Hp) as (v & e & -> & Hv).
      exists v, e. split; [done|]. eapply data_ref_mono; [|done]. set_solver.
    + destruct (Hdata l Hl) as (o' & Ho' & ? & ? & Hprops').
      exists o'. rewrite lookup_insert_ne by (intros <-; congruence).
      split_and!; [done..|].
      intros key p Hp. destruct (Hprops' _ _ Hp) as (v & e & -> & Hv).
      exists v, e. split; [done|]. eapply data_ref_mono; [|done]. set_solver.
  - destruct Hred as (fuel & holder & f & e & fo & Hfuel & Hfind).
    exists fuel, holder, f, e, fo. split; [|done].
    rewrite map_size_insert_None by done. lia.
Qed.

Lemma own_data_insert h l o :
  own_data_store (<[l := o]> h) = <[l := own_data o]> (own_data_store h).
Proof. apply fmap_insert. Qed.

Lemma own_data_dom h : dom (own_data_store h) = dom h.
Proof. apply dom_fmap_L. Qed.

Lemma class_kind_define o key v :
  match Proto.oclass (Proto.define_own o key v) with Proto.ArrayObject _ => Array | _ => Plain end
  = match Proto.oclass o with Proto.ArrayObject _ => Array | _ => Plain end.
Proof.
  unfold Proto.define_own. simpl.
  destruct (Proto.oclass o); [done| |done]. by destruct (Proto.array_index key).
Qed.

Lemma class_define o key v :
  Proto.oclass o ≠ Proto.FunctionObject →
  Proto.oclass (Proto.define_own o key v) ≠ Proto.FunctionObject.
Proof.
  unfold Proto.define_own. simpl.
  destruct (Proto.oclass o); [done| |done]. by destruct (Proto.array_index key).
Qed.

(** [o[key] = v] on an object of plain data, at a plain key: the write
    of the store layer. *)
Lemma set_data (R : Proto.store) (ToArrayLength : Proto.store → Heap.hvalue → outcome (option N)) D h l key v :
  plain_inv R D h → plain_for R key → l ∈ D → data_ref D v →
  ∃ h', Proto.set ToArrayLength l key v h = (Ok tt, h')
        ∧ own_data_store h' = Heap.store_key l key v (own_data_store h)
        ∧ plain_inv R D h'
        ∧ Proto.get h' l key = v
        ∧ dom h' = dom h.
Proof.
  intros Hinv Hkey HD Hv.
  destruct (inv_data _ _ _ Hinv l HD) as (o & Ho & Hclass & Hproto & Hprops).
  assert (l ∈ dom h) as Hdom by (apply elem_of_dom; by eexists).
  assert (∀ o', Proto.oprops o' = <[key := Proto.Data v true]> (Proto.oprops o)
                ∨ (∃ e, Proto.oprops o' = <[key := Proto.Data v e]> (Proto.oprops o)) →
                Proto.oproto o' = Proto.oproto o →
                Proto.oclass o' ≠ Proto.FunctionObject →
                match Proto.oclass o' with Proto.ArrayObject _ => Array | _ => Plain end
                = match Proto.oclass o with Proto.ArrayObject _ => Array | _ => Plain end →
                own_data_store (<[l := o']> h) = Heap.store_key l key v (own_data_store h)
                ∧ plain_inv R D (<[l := o']> h)
                ∧ Proto.get (<[l := o']> h) l key = v
                ∧ dom (<[l := o']> h) = dom h) as Hput.
  { intros o' Hprops' Hproto' Hclass' Hkind.
    assert (∃ e, Proto.oprops o' = <[key := Proto.Data v e]> (Proto.oprops o)) as [e He]
      by (destruct Hprops' as [?|?]; [by exists true|done]).
    assert (joins R D o') as Hjoins.
    { split_and!; [done|by rewrite Hproto'|].
      intros key' p. rewrite He.
      intros [[<- <-]|[_ Hp]]%lookup_insert_Some; [by exists v, e | by apply (Hprops key')]. }
    pose proof (inv_update R D h l o' Hinv HD Hjoins) as Hinv'.
    split_and!; [|done| |].
    - rewrite own_data_insert. unfold Heap.store_key.
      rewrite own_data_lookup, Ho. simpl. f_equal. unfold own_data. rewrite Hkind. f_equal.
      rewrite He. by apply omap_insert_Some.
    - unfold Proto.get.
      rewrite (lookup_property_data R D _ l o') by (done || by rewrite lookup_insert_eq).
      by rewrite He, lookup_insert_eq.
    - rewrite dom_insert_L. set_solver. }
  unfold Proto.set. rewrite Ho.
  assert (match Proto.oclass o, decide (key = "length") with
          | Proto.ArrayObject _, left _ => Proto.ArraySetLength ToArrayLength l o v h
          | _, _ =>
              match Proto.lookup_property h l key with
              | Some (holder, Proto.Data _ enumerable) =>
                  if decide (holder = l)
                  then (Ok tt, <[l := Proto.Object (Proto.oproto o) (Proto.oclass o)
                                        (<[key := Proto.Data v enumerable]> (Proto.oprops o))]> h)
                  else (Ok tt, <[l := Proto.define_own o key v]> h)
              | Some (_, Proto.Accessor_proto) => Proto.set_prototype l o v h
              | None => (Ok tt, <[l := Proto.define_own o key v]> h)
              end
          end
          = match Proto.lookup_property h l key with
            | Some (holder, Proto.Data _ enumerable) =>
                if decide (holder = l)
                then (Ok tt, <[l := Proto.Object (Proto.oproto o) (Proto.oclass o)
                                      (<[key := Proto.Data v enumerable]> (Proto.oprops o))]> h)
                else (Ok tt, <[l := Proto.define_own o key v]> h)
            | Some (_, Proto.Accessor_proto) => Proto.set_prototype l o v h
            | None => (Ok tt, <[l := Proto.define_own o key v]> h)
            end) as ->.
  { destruct (Proto.oclass o); [done| |done].
    destruct (decide (key = "length")) as [Hlen|]; [|done]. by destruct Hkey. }
  rewrite (lookup_property_data R D h l o) by done.
  destruct (Proto.oprops o !! key) as [p|] eqn:Hp; simpl.
  - destruct (Hprops _ _ Hp) as (w & e & -> & _). rewrite decide_True by done.
    eexists. split; [done|]. apply Hput; [right; by exists e|done..].
  - eexists. split; [done|].
    apply Hput; [by left | done | by apply class_define | apply class_kind_define].
Qed.


Lemma joins_empty_object (R : Proto.store) D :
  is_Some (R !! Proto.Object_prototype) → joins R D Proto.empty_object.
Proof.
  intros HO. split_and!; [done| |].
  - intros p [= <-]. done.
  - intros key p. simpl. by rewrite lookup_empty.
Qed.

Lemma own_data_empty_object : own_data Proto.empty_object = Heap.Object Plain ∅.
Proof. unfold own_data. simpl. by rewrite omap_empty. Qed.

(** The loop of [assignValueAtPath] on plain keys: the loop of the store
    layer. *)
Lemma assign_loop_data (R : Proto.store) (ToArrayLength : Proto.store → Heap.hvalue → outcome (option N)) segments v :
  Forall (plain_for R) segments →
  ∀ D h currentNode,
    plain_inv R D h → currentNode ∈ D → data_ref D v →
    ∃ D' h', D ⊆ D'
      ∧ Proto.assign_loop ToArrayLength segments v currentNode h = (Ok tt, h')
      ∧ Heap.assign_loop segments v currentNode (own_data_store h) = (Ok tt, own_data_store h')
      ∧ plain_inv R D' h'.
Proof.
  induction 1 as [|segment rest Hkey Hrest IH]; intros D h cur Hinv Hcur Hv.
  { exists D, h. by split_and!. }
  cbn [Proto.assign_loop Heap.assign_loop].
  destruct (nonempty segment); cbn [negb]; [|exists D, h; by split_and!].
  destruct rest as [|s2 rest].
  { destruct (set_data R ToArrayLength D h cur segment v Hinv Hkey Hcur Hv)
      as (h' & Hset & Hown & Hinv' & _).
    exists D, h'. split_and!; [done|done| |done].
    unfold Heap.set_key. by rewrite Hown. }
  unfold Proto.bindM at 1, Heap.bindM at 1. cbn [Proto.get_store Heap.get_store].
  destruct (get_data R D h cur segment Hinv Hkey Hcur) as (Hget & _ & Hchild).
  rewrite <- Hget.
  destruct (Proto.get h cur segment) as [| | | | |child] eqn:Hread.
  6:{ simpl in Hchild. rewrite (data_is_object R D h child) by done.
      unfold Proto.bindM, Proto.ret, Proto.get_store. rewrite Hread.
      by apply IH. }
  all: cbn [Proto.is_object].
  all: unfold Proto.bindM at 1 2, Proto.alloc, Heap.bindM at 1, Heap.alloc; cbn beta iota zeta.
  all: rewrite own_data_dom.
  all: destruct (inv_alloc R D h Proto.empty_object Hinv) as [Hinv1 Hfresh];
    [apply joins_empty_object; by eapply inv_Object|].
  all: set (child := fresh (dom h)) in *.
  all: destruct (set_data R ToArrayLength ({[child]} ∪ D) (<[child := Proto.empty_object]> h)
                   cur segment (Heap.HRef child) Hinv1 Hkey)
         as (h2 & Hset & Hown & Hinv2 & Hget2 & _); [set_solver | simpl; set_solver |].
  all: rewrite Hset; unfold Heap.bindM at 1, Heap.set_key.
  all: unfold Proto.bindM, Proto.get_store; rewrite Hget2.
  all: destruct (IH ({[child]} ∪ D) h2 child Hinv2) as (D' & h' & Hsub & Hrun & Hrun' & Hinv');
    [set_solver | eapply data_ref_mono; [|done]; set_solver |].
  all: exists D', h'; split_and!; [set_solver | done | | done].
  all: rewrite <- Hrun'; f_equal.
  all: by rewrite Hown, own_data_insert, own_data_empty_object.
Qed.

Lemma own_data_array pieces :
  own_data (Proto.Object (Some Proto.Array_prototype)
              (Proto.ArrayObject (N.of_nat (length pieces)))
              (list_to_map (imap (λ i s, (pretty i, Proto.Data (Heap.HStr s) true)) pieces)))
  = Heap.Object Array (list_to_map (imap (λ i s, (pretty i, Heap.HStr s)) pieces)).
Proof.
  unfold own_data. simpl. f_equal.
  rewrite (indexed_fmap (λ s, Proto.Data (Heap.HStr s) true)), (indexed_fmap Heap.HStr).
  apply map_eq. intros key. rewrite lookup_omap, !lookup_fmap.
  by destruct (_ !! key).
Qed.

Lemma joins_array (R : Proto.store) D pieces :
  is_Some (R !! Proto.Array_prototype) →
  joins R D (Proto.Object (Some Proto.Array_prototype)
               (Proto.ArrayObject (N.of_nat (length pieces)))
               (list_to_map (imap (λ i s, (pretty i, Proto.Data (Heap.HStr s) true)) pieces))).
Proof.
  intros HA. split_and!; [done| |].
  - by intros p [= <-].
  - intros key p Hp.
    apply elem_of_list_to_map_2, elem_of_lookup_imap in Hp as (i & s & [= -> ->] & Hi).
    by eexists _, _.
Qed.

Lemma parsedValue_data (R : Proto.store) D h opts flagName rawValue existingValue :
  plain_inv R D h →
  agree R D (Proto.parsedValue opts flagName rawValue existingValue)
          (Heap.parsedValue opts flagName rawValue existingValue) h data_ref.
Proof.
  intros Hinv. unfold agree, Proto.parsedValue, Heap.parsedValue.
  destruct (isDisabledFlag flagName).
  { destruct (Heap.not_boolean existingValue); agree_here D h. }
  destruct rawValue as [raw|].
  2:{ destruct (Heap.not_boolean existingValue); agree_here D h. }
  destruct (includes _ raw); [|agree_here D h].
  set (pieces := split_on _ raw).
  unfold Proto.alloc_array, Heap.alloc_array, Proto.bindM, Heap.bindM, Proto.alloc, Heap.alloc.
  rewrite own_data_dom.
  destruct (inv_alloc R D h _ Hinv (joins_array R D pieces (inv_Array _ _ _ Hinv))) as [Hinv1 _].
  eexists _, _, _. split_and!; [|done| |done|].
  - set_solver.
  - unfold Heap.ret. by rewrite own_data_insert, own_data_array.
  - intros a [= <-]. simpl. set_solver.
Qed.

Lemma resolveValueAtPath_data (R : Proto.store) D h result path :
  plain_inv R D h → result ∈ D → Forall (plain_for R) (split_on "." path) →
  Proto.resolveValueAtPath result path h
  = (Ok (Heap.resolveValueAtPath (own_data_store h) result path), h)
  ∧ data_ref D (Heap.resolveValueAtPath (own_data_store h) result path).
Proof.
  intros Hinv Hres Hkeys. unfold Proto.resolveValueAtPath, Proto.lift.
  rewrite (reduce_is_there R D h Hinv).
  destruct (resolve_data R D h _ Hinv Hkeys (Heap.HRef result) Hres) as [Heq Hv].
  unfold Heap.resolveValueAtPath. by rewrite <- Heq.
Qed.

Lemma parseFlag_data (R : Proto.store) (ToArrayLength : Proto.store → Heap.hvalue → outcome (option N)) D h opts result flagName rawValue :
  plain_inv R D h → result ∈ D →
  (∀ name, flagName = Some name → Forall (plain_for R) (split_on "." (normalizedPath name))) →
  agree R D (Proto.parseFlag ToArrayLength opts result flagName rawValue)
          (Heap.parseFlag opts result flagName rawValue) h (λ _ _, True).
Proof.
  intros Hinv Hres Hkeys. unfold agree, Proto.parseFlag, Heap.parseFlag.
  destruct flagName as [flagName|]; [|agree_here D h].
  specialize (Hkeys flagName eq_refl).
  destruct (nonempty flagName); cbn [negb]; [|agree_here D h].
  unfold Proto.hasConfigPath, Heap.hasConfigPath.
  unfold Proto.bindM at 1 2, Heap.bindM at 1. cbn [Heap.get_store].
  destruct (resolveValueAtPath_data R D h result _ Hinv Hres Hkeys) as [Hresolve Hexisting].
  rewrite Hresolve. cbn [Proto.ret].
  destruct (Heap.is_defined _); cbn [negb]; [|agree_here D h].
  unfold Proto.bindM at 1. rewrite Hresolve.
  destruct (parsedValue_data R D h opts flagName rawValue
              (Heap.resolveValueAtPath (own_data_store h) result (normalizedPath flagName)) Hinv)
    as (D1 & r & h1 & Hsub1 & Hpv & Hpv' & Hinv1 & Hv).
  unfold Proto.bindM, Heap.bindM. rewrite Hpv, Hpv'.
  destruct r as [v|msg]; [|agree_here D1 h1].
  destruct (assign_loop_data R ToArrayLength _ v Hkeys D1 h1 result Hinv1) as (D2 & h2 & Hsub2 & Hrun & Hrun' & Hinv2);
    [set_solver | by apply Hv |].
  exists D2. eexists _, h2. unfold Proto.assignValueAtPath, Heap.assignValueAtPath.
  split_and!; [set_solver|done..].
Qed.

Lemma argument_loop_data (R : Proto.store) (ToArrayLength : Proto.store → Heap.hvalue → outcome (option N)) opts args result :
  ∀ D h,
    plain_inv R D h → result ∈ D →
    Forall (λ flag : option string * option string,
              ∀ name, flag.1 = Some name →
                      Forall (plain_for R) (split_on "." (normalizedPath name)))
           (flags_of args) →
    agree R D (Proto.argument_loop ToArrayLength opts args result)
            (Heap.argument_loop opts args result) h (λ _ _, True).
Proof.
  unfold agree. induction args as [|token rest IH]; intros D h Hinv Hres Hflags.
  { agree_here D h. }
  cbn [Proto.argument_loop Heap.argument_loop flags_of] in *.
  destruct (dispatch token (head rest)) as [[flagName flagValue]|]; [|by apply IH].
  apply Forall_cons in Hflags as [Hflag Hflags].
  destruct (parseFlag_data R ToArrayLength D h opts result flagName flagValue Hinv Hres Hflag)
    as (D1 & r & h1 & Hsub1 & Hpf & Hpf' & Hinv1 & _).
  unfold Proto.bindM, Heap.bindM. rewrite Hpf, Hpf'.
  destruct r as [[]|msg]; [|agree_here D1 h1].
  destruct (IH D1 h1 Hinv1) as (D2 & r & h2 & Hsub2 & Hrun & Hrun' & Hinv2 & _);
    [set_solver | done |].
  exists D2, r, h2. split_and!; [set_solver | done..].
Qed.

Lemma realm_of_lookup h D l o :
  realm_of h D !! l = Some o ↔ h !! l = Some o ∧ l ∉ D.
Proof. apply (map_lookup_filter_Some (λ lo : Proto.loc * Proto.object, lo.1 ∉ D)). Qed.

Lemma realm_of_member h D p : p ∈ dom h ∖ D → is_Some (realm_of h D !! p).
Proof.
  intros [[o Ho]%elem_of_dom Hp]%elem_of_difference. exists o. by apply realm_of_lookup.
Qed.

Lemma find_property_realm_of h D key fuel :
  (∀ l o p, realm_of h D !! l = Some o → Proto.oproto o = Some p →
            is_Some (realm_of h D !! p)) →
  ∀ l, is_Some (realm_of h D !! l) →
    Proto.find_property fuel (realm_of h D) l key = Proto.find_property fuel h l key.
Proof.
  intros Hchain. induction fuel as [|fuel IH]; intros l [o Ho]; [done|].
  simpl. rewrite Ho. apply realm_of_lookup in Ho as Ho'. destruct Ho' as [-> _].
  destruct (Proto.own_property o key); [done|].
  destruct (Proto.oproto o) as [p|] eqn:Hp; [|done].
  apply IH. by eapply Hchain.
Qed.

Lemma plain_data_inv h D : plain_data h D = true → plain_inv (realm_of h D) D h.
Proof.
  unfold plain_data. rewrite !andb_true_iff.
  intros [[[[HD%bool_decide_eq_true Hall] HO%bool_decide_eq_true] HA%bool_decide_eq_true] Hred].
  rewrite forallb_forall in Hall.
  assert (∀ l o, h !! l = Some o →
                 if decide (l ∈ D) then data_object h D o = true
                 else realm_object h D o = true) as Hobj.
  { intros l o Ho. specialize (Hall (l, o)). simpl in Hall.
    destruct (decide (l ∈ D)); apply Hall; by apply list_elem_of_In, elem_of_map_to_list. }
  assert (∀ l o p, realm_of h D !! l = Some o → Proto.oproto o = Some p →
                   is_Some (realm_of h D !! p)) as Hchain.
  { intros l o p [Ho Hl]%realm_of_lookup Hp. specialize (Hobj l o Ho).
    rewrite decide_False in Hobj by done. unfold realm_object in Hobj. rewrite Hp in Hobj.
    apply bool_decide_eq_true in Hobj. by apply realm_of_member. }
  split.
  - intros l Hl. destruct (h !! l) as [o|] eqn:Ho.
    + symmetry. by apply realm_of_lookup.
    + symmetry. apply (map_lookup_filter_None (λ lo : Proto.loc * Proto.object, lo.1 ∉ D)).
      by left.
  - intros l Hl. apply (map_lookup_filter_None (λ lo : Proto.loc * Proto.object, lo.1 ∉ D)).
    right. intros o _. simpl. by intros ?.
  - intros l Hl. assert (l ∈ dom h) as [o Ho]%elem_of_dom by set_solver.
    exists o. specialize (Hobj l o Ho). rewrite decide_True in Hobj by done.
    unfold data_object in Hobj. rewrite !andb_true_iff in Hobj.
    destruct Hobj as [[Hclass Hproto] Hprops]. split_and!; [done| | |].
    + by destruct (Proto.oclass o).
    + intros p Hp. rewrite Hp in Hproto. apply bool_decide_eq_true in Hproto.
      by apply realm_of_member.
    + intros key p Hp. rewrite forallb_forall in Hprops.
      specialize (Hprops (key, p)). simpl in Hprops.
      assert (In (key, p) (map_to_list (Proto.oprops o))) as Hin
        by (by apply list_elem_of_In, elem_of_map_to_list).
      specialize (Hprops Hin). destruct p as [v e|]; [|done].
      exists v, e. split; [done|]. destruct v as [| | | | |l']; try done. simpl.
      by apply bool_decide_eq_true in Hprops.
  - done.
  - by apply realm_of_member.
  - by apply realm_of_member.
  - unfold Proto.lookup_property in Hred.
    destruct (Proto.find_property (S (size h)) h Proto.Array_prototype "reduce")
      as [[holder [v e|]]|] eqn:Hfind; [|done..].
    destruct v as [| | | | |f]; try done. simpl in Hred.
    destruct (h !! f) as [fo|] eqn:Hf; [|done].
    exists (S (size h)), holder, f, e, fo. split_and!; [done| | |by destruct (Proto.oclass fo)].
    + rewrite find_property_realm_of; [done..|]. by apply realm_of_member.
    + apply realm_of_lookup. split; [done|]. intros HfD.
      specialize (Hobj f fo Hf). rewrite decide_True in Hobj by done.
      unfold data_object in Hobj. by destruct (Proto.oclass fo).
Qed.

Lemma plain_key_for h D key : plain_key h D key = true → plain_for (realm_of h D) key.
Proof.
  unfold plain_key. rewrite andb_true_iff, negb_true_iff.
  intros [Hlen%bool_decide_eq_false Hall]. split; [done|].
  intros l o [Ho Hl]%realm_of_lookup. rewrite forallb_forall in Hall.
  specialize (Hall (l, o)). simpl in Hall.
  rewrite bool_decide_eq_false_2 in Hall by done. simpl in Hall.
  eapply bool_decide_eq_true_1, Hall. by apply list_elem_of_In, elem_of_map_to_list.
Qed.

(** X22.  On plain data and plain keys, property access in full is access
    to own data.  For a working copy made of plain data, in a store whose
    other objects are closed under prototypes and hold [Object.prototype]
    and [Array.prototype] with its [reduce], and for tokens whose flags
    have paths made of plain keys only (no segment is [length] or a key
    of an object that is not plain data), the argument loop of the
    prototype layer returns or throws what the loop of the store layer
    returns or throws on the own data, leaves the own data that loop
    leaves, and leaves the objects that are not plain data as they
    were. *)
Theorem plain_flags_run_alike ToArrayLength opts args result (h : Proto.store) D :
  plain_data h D = true → result ∈ D →
  forallb (plain_flag h D) (flags_of args) = true →
  Heap.argument_loop opts args result (own_data_store h)
  = ((Proto.argument_loop ToArrayLength opts args result h).1,
     own_data_store (Proto.argument_loop ToArrayLength opts args result h).2)
  ∧ ∀ l, l ∉ D → is_Some (h !! l) →
         (Proto.argument_loop ToArrayLength opts args result h).2 !! l = h !! l.
Proof.
  intros Hinv%plain_data_inv Hres Hflags.
  destruct (argument_loop_data (realm_of h D) ToArrayLength opts args result D h Hinv Hres)
    as (D' & r & h' & Hsub & Hrun & Hrun' & Hinv' & _).
  { apply Forall_forall. intros flag Hflag name Hname.
    rewrite forallb_forall in Hflags. specialize (Hflags flag).
    unfold plain_flag in Hflags. rewrite Hname in Hflags.
    apply Forall_forall. intros key Hkey. apply plain_key_for.
    assert (forallb (plain_key h D) (split_on "." (normalizedPath name)) = true) as Hkeys
      by (by apply Hflags, list_elem_of_In).
    rewrite forallb_forall in Hkeys. by apply Hkeys, list_elem_of_In. }
  rewrite Hrun, Hrun'. split; [done|].
  intros l Hl [o Ho]. simpl.
  assert (realm_of h D !! l = Some o) as HR by (by apply realm_of_lookup).
  rewrite Ho. by apply (inv_realm_lookup (realm_of h D) D').
Qed.

Lemma plain_flags_run_alike_witness :
  let h := (Proto.structuredClone 20%positive string_schema).2 in
  Heap.argument_loop default_options ["--ids=a,b"; "--ids.0=z"; "--nope"] 21%positive
    (own_data_store h)
  = ((Proto.argument_loop (λ _ _, Ok None) default_options
        ["--ids=a,b"; "--ids.0=z"; "--nope"] 21%positive h).1,
     own_data_store (Proto.argument_loop (λ _ _, Ok None) default_options
                       ["--ids=a,b"; "--ids.0=z"; "--nope"] 21%positive h).2)
  ∧ ∀ l, l ∉ ({[20%positive; 21%positive]} : gset positive) → is_Some (h !! l) →
         (Proto.argument_loop (λ _ _, Ok None) default_options
            ["--ids=a,b"; "--ids.0=z"; "--nope"] 21%positive h).2 !! l = h !! l.
Proof.
  exact (plain_flags_run_alike (λ _ _, Ok None) default_options
           ["--ids=a,b"; "--ids.0=z"; "--nope"] 21%positive
           (Proto.structuredClone 20%positive string_schema).2 {[20%positive; 21%positive]}
           eq_refl ltac:(set_solver) eq_refl).
Defined.
